(** * fund_testnet: a shallow embedding of quarkchain/testnet/fund_testnet.py

    The script funds a list of beneficiary addresses on a sharded test
    network: [read_addr] loads the input file, [fund] groups the addresses
    of every amount by shard and launches one [fund_shard] flow per popped
    address, each flow talking to the node through [Endpoint].

    Layout: the Python built-ins the script uses, exceptions and JSON
    values, the world and the effect monad, the components of the script
    in the order of the source ([Endpoint], [create_transaction],
    [fund_shard], [read_addr], [fund]), the descriptions the theorems are
    stated with, and the theorems. *)

From Stdlib Require Import List String Ascii ZArith Lia Bool QArith Permutation.
Import ListNotations.

Set Warnings "-register-all".

Local Open Scope string_scope.
Local Open Scope Z_scope.

(** ** Python built-ins on [str] and [int]

    A [str] is a [string] whose characters are code points below 256. *)
Module Py.

(** [str.isspace] on one code point below 256, as used by [str.split]. *)
Definition isspace (c : ascii) : bool :=
  let n := nat_of_ascii c in
  ((9 <=? n) && (n <=? 13))%nat || ((28 <=? n) && (n <=? 32))%nat
  || (n =? 133)%nat || (n =? 160)%nat.

(** The whitespace [int(str, base)] skips around the literal: the C
    locale's spaces, and the two non-ASCII spaces it first rewrites. *)
Definition int_space (c : ascii) : bool :=
  let n := nat_of_ascii c in
  ((9 <=? n) && (n <=? 13))%nat || (n =? 32)%nat
  || (n =? 133)%nat || (n =? 160)%nat.

Definition is_empty (s : string) : bool :=
  match s with EmptyString => true | String _ _ => false end.

(** [s.split()]: the maximal runs of non-whitespace characters. [tok] is
    the run being read. *)
Fixpoint split_from (s tok : string) : list string :=
  match s with
  | EmptyString => if is_empty tok then [] else [tok]
  | String c s' =>
      if isspace c
      then (if is_empty tok then split_from s' EmptyString
            else tok :: split_from s' EmptyString)
      else split_from s' (tok ++ String c EmptyString)
  end.

Definition split (s : string) : list string := split_from s EmptyString.

(** [f.readlines()] of a file opened in text mode with the default
    [newline=None]: lines end at "\n", "\r" or "\r\n", and every line
    terminator is handed over as "\n". [after_cr] remembers that the
    previous character was a "\r" whose line is already closed. *)
Definition LF : ascii := ascii_of_nat 10.
Definition CR : ascii := ascii_of_nat 13.

Fixpoint readlines_from (s cur : string) (after_cr : bool) : list string :=
  match s with
  | EmptyString => if is_empty cur then [] else [cur]
  | String c s' =>
      if Ascii.eqb c LF then
        (if after_cr then readlines_from s' cur false
         else (cur ++ String LF EmptyString) :: readlines_from s' EmptyString false)
      else if Ascii.eqb c CR then
        (cur ++ String LF EmptyString) :: readlines_from s' EmptyString true
      else readlines_from s' (cur ++ String c EmptyString) false
  end.

Definition readlines (content : string) : list string :=
  readlines_from content EmptyString false.

(** Slices. [drop n s] is [s[n:]] and [suffix n s] is [s[-n:]] for
    [n > 0]: the last [n] characters, or all of [s] when it is shorter. *)
Fixpoint drop (n : nat) (s : string) : string :=
  match n, s with
  | O, _ => s
  | S n', String _ s' => drop n' s'
  | S _, EmptyString => EmptyString
  end.

Definition suffix (n : nat) (s : string) : string :=
  drop (String.length s - n) s.

(** The value of a digit in [int(str, base)]: letters count up to 35. *)
Definition digit_value (c : ascii) : option Z :=
  let n := Z.of_nat (nat_of_ascii c) in
  if (48 <=? n) && (n <=? 57) then Some (n - 48)
  else if (97 <=? n) && (n <=? 122) then Some (n - 87)
  else if (65 <=? n) && (n <=? 90) then Some (n - 55)
  else None.

(** The digits of a literal, single underscores allowed between them. *)
Fixpoint parse_digits (base : Z) (s : string) (acc : Z) (prev_us : bool)
  : option Z :=
  match s with
  | EmptyString => if prev_us then None else Some acc
  | String c s' =>
      if Ascii.eqb c "_"%char then
        (if prev_us then None else parse_digits base s' acc true)
      else
        match digit_value c with
        | Some d =>
            if d <? base then parse_digits base s' (acc * base + d) false
            else None
        | None => None
        end
  end.

Fixpoint lstrip (sp : ascii -> bool) (s : string) : string :=
  match s with
  | EmptyString => EmptyString
  | String c s' => if sp c then lstrip sp s' else s
  end.

Fixpoint rstrip (sp : ascii -> bool) (s : string) : string :=
  match s with
  | EmptyString => EmptyString
  | String c s' =>
      let r := rstrip sp s' in
      if sp c && is_empty r then EmptyString else String c r
  end.

Definition strip (sp : ascii -> bool) (s : string) : string :=
  rstrip sp (lstrip sp s).

Definition split_sign (s : string) : bool * string :=
  match s with
  | String "+"%char r => (false, r)
  | String "-"%char r => (true, r)
  | _ => (false, s)
  end.

(** After a "0x" or "0X" prefix of a base-16 literal one underscore may
    follow. *)
Definition skip_prefix (base : Z) (s : string) : string :=
  if base =? 16 then
    match s with
    | String "0"%char (String x r) =>
        if Ascii.eqb x "x"%char || Ascii.eqb x "X"%char then
          match r with
          | String "_"%char r' => r'
          | _ => r
          end
        else s
    | _ => s
    end
  else s.

(** [int(s, base)] for a [str] and base 10 or 16; [None] is
    [ValueError]. Underscores are accepted as from Python 3.6, and there
    is no bound on the number of digits, as before Python 3.11. *)
Definition int (base : Z) (s : string) : option Z :=
  let (neg, body) := split_sign (strip int_space s) in
  let digits := skip_prefix base body in
  match digits with
  | EmptyString => None
  | String c _ =>
      if Ascii.eqb c "_"%char then None
      else option_map (fun v => if neg : bool then - v else v)
                      (parse_digits base digits 0 false)
  end.

End Py.

(** ** Exceptions, results and JSON values *)

(** The exceptions the script can meet. [TransportError] stands for the
    timeouts and connection errors of the HTTP layer,
    [ReceivedErrorResponse] for the exception the JSON-RPC client raises
    on an error response; [KeyboardInterrupt] is the one that does not
    derive from [Exception]. *)
Inductive exn : Type :=
| ValueError
| TypeError
| KeyError
| TransportError
| ReceivedErrorResponse
| InvalidTransaction
| KeyboardInterrupt.

Definition is_Exception (e : exn) : bool :=
  match e with
  | KeyboardInterrupt => false
  | _ => true
  end.

(** A pure computation that may raise. *)
Inductive result (A : Type) : Type :=
| Ok (a : A)
| Err (e : exn).
Arguments Ok {A} a.
Arguments Err {A} e.

Definition of_option {A : Type} (e : exn) (o : option A) : result A :=
  match o with
  | Some a => Ok a
  | None => Err e
  end.

(** A decoded JSON-RPC result. *)
Inductive json : Type :=
| JNull
| JBool (b : bool)
| JInt (z : Z)
| JStr (s : string)
| JList (l : list json)
| JDict (d : list (string * json)).

(** Truth value of [if resp:]. *)
Definition truthy (j : json) : bool :=
  match j with
  | JNull => false
  | JBool b => b
  | JInt z => negb (z =? 0)
  | JStr s => negb (Py.is_empty s)
  | JList l => match l with [] => false | _ => true end
  | JDict d => match d with [] => false | _ => true end
  end.

Fixpoint assoc {A : Type} (k : string) (d : list (string * A)) : option A :=
  match d with
  | [] => None
  | (k', v) :: d' => if String.eqb k k' then Some v else assoc k d'
  end.

(** [resp[key]] with a [str] key. *)
Definition subscript (j : json) (key : string) : result json :=
  match j with
  | JDict d => of_option KeyError (assoc key d)
  | _ => Err TypeError
  end.

(** [int(x, 16)] on a decoded value: only a [str] has a base. *)
Definition int16 (j : json) : result Z :=
  match j with
  | JStr s => of_option ValueError (Py.int 16 s)
  | _ => Err TypeError
  end.

(** ** The library types the script uses *)

Definition bytes : Type := list Byte.byte.

(** Modelled from the spec: [Address] is declared in [quarkchain.core],
    outside this script. The spec has it as an opaque recipient
    identifier that encodes a shard id; the record keeps the two
    attributes the script reads. *)
Record Address : Type := mkAddress {
  recipient : bytes;
  fullShardId : Z
}.

(** Modelled from the spec: [Identity] is declared in [quarkchain.core],
    outside this script. It is the genesis identity of the spec, the key
    holding the initial supply; the script reads its key. *)
Record Identity : Type := mkIdentity {
  id_recipient : bytes;
  getKey : bytes
}.

(** Modelled from the spec: [EvmTransaction] is declared in
    [quarkchain.evm.transactions], outside this script. The spec gives a
    transaction a nonce, a gas price and a gas limit, a recipient, a
    value, a payload, the shard-routing tags of sender and recipient, a
    network id and a signature; the fields are the keyword arguments of
    the constructor call, and [v], [r], [s] the signature, 0 until the
    transaction is signed. *)
Record EvmTransaction : Type := mkEvmTransaction {
  nonce : Z;
  gasprice : Z;
  startgas : Z;
  to : bytes;
  value : Z;
  data : bytes;
  fromFullShardId : Z;
  toFullShardId : Z;
  networkId : Z;
  v : Z;
  r : Z;
  s : Z
}.

(** ** The world of the script and its effect monad *)

(** The positional arguments of one [client.request]. *)
Inductive request : Type :=
| SendRawTransaction (txHex : string)
| GetTransactionReceipt (txId : json)
| GetTransactionCount (addressHex : string)
| NetworkInfo.

(** What one [await client.request] does: it returns the decoded
    result or raises. *)
Inductive rpc_outcome : Type :=
| Returned (resp : json)
| Raised (e : exn).

(** One funding flow handed to [asyncio.gather]:
    [fund_shard(endpoint, genesisId, to, networkId, shard, amount)]. *)
Record flow : Type := mkFlow {
  flow_to : Address;
  flow_networkId : Z;
  flow_shard : Z;
  flow_amount : Z
}.

(** The lines the script prints, by format string. *)
Inductive message : Type :=
| MsgTimeout (url : string) (e : exn)
| MsgPending (shard : Z) (txId : json) (dest : Address)
| MsgRetry (txId : json)
| MsgFunded (shard : Z) (txId : json) (height status amount : Z)
| MsgStart (amount : Z) (count : nat)
| MsgInvalid (addr : string)
| MsgBlank
| MsgResult (idx : nat) (height : Z) (txId : json).

Inductive event : Type :=
| ERequest (url : string) (args : request) (o : rpc_outcome)
| ESleep (seconds : Q)
| EPrint (m : message)
| ELaunch (f : flow)
| EDone (f : flow).

(** The world: the outcomes the node will give to the coming requests, in
    order; the raw draws behind [random.randint]; and what has happened
    so far. *)
Record world : Type := mkWorld {
  script : list rpc_outcome;
  entropy : list Z;
  trace : list event
}.

(** A computation ends with a value, raises, or is still [Pending] when
    the fuel of its loops or the script of the node is used up. *)
Inductive outcome (A : Type) : Type :=
| Done (a : A)
| Raise (e : exn)
| Pending.
Arguments Done {A} a.
Arguments Raise {A} e.
Arguments Pending {A}.

Definition M (A : Type) : Type := world -> outcome A * world.

Definition ret {A : Type} (a : A) : M A := fun w => (Done a, w).

Definition bind {A B : Type} (m : M A) (k : A -> M B) : M B :=
  fun w =>
    match m w with
    | (Done a, w') => k a w'
    | (Raise e, w') => (Raise e, w')
    | (Pending, w') => (Pending, w')
    end.

Notation "x <- m ;; k" := (bind m (fun x => k))
  (at level 61, m at next level, right associativity).
Notation "m ;;; k" := (bind m (fun _ => k))
  (at level 61, right associativity).

Definition raise {A : Type} (e : exn) : M A := fun w => (Raise e, w).

Definition pending {A : Type} : M A := fun w => (Pending, w).

Definition lift {A : Type} (x : result A) : M A :=
  match x with
  | Ok a => ret a
  | Err e => raise e
  end.

Definition emit (e : event) : M unit :=
  fun w => (Done tt, mkWorld (script w) (entropy w) (trace w ++ [e])).

Definition print (m : message) : M unit := emit (EPrint m).

(** [await asyncio.sleep(seconds)]. *)
Definition sleep (seconds : Q) : M unit := emit (ESleep seconds).

(** [random.randint(a, b)]: an integer of [a..b], both ends included. *)
Definition randint (a b : Z) : M Z :=
  fun w =>
    match entropy w with
    | [] => (Pending, w)
    | z :: rest =>
        (Done (a + z mod (b - a + 1)), mkWorld (script w) rest (trace w))
    end.

(** [await client.request]: the next outcome of the script; the request
    is recorded with what came of it. *)
Definition client_request (url : string) (args : request) : M rpc_outcome :=
  fun w =>
    match script w with
    | [] => (Pending, w)
    | o :: rest =>
        (Done o, mkWorld rest (entropy w) (trace w ++ [ERequest url args o]))
    end.

Fixpoint emit_all (es : list event) : M unit :=
  match es with
  | [] => ret tt
  | e :: es' => emit e ;;; emit_all es'
  end.

(** ** What the script takes from the rest of the project

    [rlp_hex tx] is [rlp.encode(tx, EvmTransaction).hex()], [serialize_hex]
    is [account.serialize().hex()], [createFromIdentity] and [createFrom]
    are the two constructors of [Address] the script calls (the second one
    raises on a malformed string), [valid_key] and [ecsign] are the two
    halves of signing. *)
Class Library : Type := {
  rlp_hex : EvmTransaction -> string;
  serialize_hex : Address -> string;
  createFromIdentity : Identity -> Z -> Address;
  createFrom : string -> result Address;
  valid_key : bytes -> bool;
  ecsign : bytes -> EvmTransaction -> Z * Z * Z
}.

(** ** Python dictionaries

    A [dict] keeps its keys in insertion order and the script iterates
    over them, so a dictionary is the list of its items in that order. *)
Module Dict.
Section Ops.
Context {K V : Type} (eqb : K -> K -> bool).

Fixpoint get (d : list (K * V)) (k : K) : option V :=
  match d with
  | [] => None
  | (k', v') :: d' => if eqb k k' then Some v' else get d' k
  end.

(** [d[k] = v]: a key already present keeps its place. *)
Fixpoint set (d : list (K * V)) (k : K) (v : V) : list (K * V) :=
  match d with
  | [] => [(k, v)]
  | (k', v') :: d' =>
      if eqb k k' then (k', v) :: d' else (k', v') :: set d' k v
  end.
End Ops.

(** [d[k].append(x)] on a [defaultdict(list)]. *)
Fixpoint append_to {K A : Type} (eqb : K -> K -> bool)
  (d : list (K * list A)) (k : K) (x : A) : list (K * list A) :=
  match d with
  | [] => [(k, [x])]
  | (k', l) :: d' =>
      if eqb k k' then (k', (l ++ [x])%list) :: d'
      else (k', l) :: append_to eqb d' k x
  end.

(** [dict(rows)] for rows of strings: every row must have two elements. *)
Fixpoint of_rows (rows : list (list string)) (d : list (string * string))
  : result (list (string * string)) :=
  match rows with
  | [] => Ok d
  | [k; v] :: rest => of_rows rest (set String.eqb d k v)
  | _ :: _ => Err ValueError
  end.
End Dict.

(** ** class Endpoint *)
Module Endpoint.

Record t : Type := mk { url : string }.

(** [__sendRequest]: the manual retry loop. *)
Fixpoint sendRequest (fuel : nat) (self : t) (args : request) : M json :=
  match fuel with
  | O => pending
  | S fuel' =>
      o <- client_request (url self) args ;;
      match o with
      | Returned response => ret response
      | Raised e =>
          if is_Exception e then
            print (MsgTimeout (url self) e) ;;;
            d <- randint 0 5 ;;
            sleep (inject_Z (1 + d)) ;;;
            sendRequest fuel' self args
          else raise e
      end
  end.

Section WithLibrary.
Context {L : Library}.

Definition sendTransaction (fuel : nat) (self : t) (tx : EvmTransaction)
  : M json :=
  let txHex := "0x" ++ rlp_hex tx in
  resp <- sendRequest fuel self (SendRawTransaction txHex) ;;
  ret resp.

Definition getTransactionReceipt (fuel : nat) (self : t) (txId : json)
  : M json :=
  resp <- sendRequest fuel self (GetTransactionReceipt txId) ;;
  ret resp.

Definition getNonce (fuel : nat) (self : t) (account : Address) : M Z :=
  let addressHex := "0x" ++ serialize_hex account in
  resp <- sendRequest fuel self (GetTransactionCount addressHex) ;;
  lift (int16 resp).

Definition getShardSize (fuel : nat) (self : t) : M Z :=
  resp <- sendRequest fuel self NetworkInfo ;;
  field <- lift (subscript resp "shardSize") ;;
  lift (int16 field).

Definition getNetworkId (fuel : nat) (self : t) : M Z :=
  resp <- sendRequest fuel self NetworkInfo ;;
  field <- lift (subscript resp "networkId") ;;
  lift (int16 field).
End WithLibrary.

End Endpoint.

(** ** The transaction builder *)
Section Builder.
Context {L : Library}.

(** Modelled from the spec: [EvmTransaction.sign] is declared with the
    transaction class, outside this script. The spec asks of it that it
    is deterministic and fails only on a key that is invalid for
    signing; it fills the signature fields and leaves the others. *)
Definition sign (key : bytes) (tx : EvmTransaction) : result EvmTransaction :=
  if valid_key key then
    let '(sv, sr, ss) := ecsign key tx in
    Ok (mkEvmTransaction (nonce tx) (gasprice tx) (startgas tx) (to tx)
          (value tx) (data tx) (fromFullShardId tx) (toFullShardId tx)
          (networkId tx) sv sr ss)
  else Err InvalidTransaction.

(** [amount] is already an [int] (a key of [read_addr]'s result), so
    [int(amount)] is [amount]. *)
Definition create_transaction (address : Address) (key : bytes) (nonce : Z)
  (to : Address) (networkId : Z) (amount : Z) : result EvmTransaction :=
  let evmTx :=
    mkEvmTransaction nonce 1 1000000 (recipient to) (amount * 10 ^ 18) []
      (fullShardId address) (fullShardId to) networkId 0 0 0 in
  sign key evmTx.
End Builder.

(** ** fund_shard: the funding flow of one address *)
Section FundShard.
Context {L : Library}.

(** The [while True] loop of [fund_shard]; it hands back the receipt
    that ended it. *)
Fixpoint poll (fuel : nat) (endpoint : Endpoint.t) (tx : EvmTransaction)
  (txId : json) (shard : Z) (to : Address) (cnt : Z) : M json :=
  match fuel with
  | O => pending
  | S fuel' =>
      print (MsgPending shard txId to) ;;;
      sleep (inject_Z 5) ;;;
      resp <- Endpoint.getTransactionReceipt fuel endpoint txId ;;
      if truthy resp then ret resp
      else
        let cnt := cnt + 1 in
        if cnt =? 10 then
          let cnt := 0 in
          print (MsgRetry txId) ;;;
          Endpoint.sendTransaction fuel endpoint tx ;;;
          poll fuel' endpoint tx txId shard to cnt
        else poll fuel' endpoint tx txId shard to cnt
  end.

Definition fund_shard (fuel : nat) (endpoint : Endpoint.t)
  (genesisId : Identity) (to : Address) (networkId shard amount : Z)
  : M (json * Z) :=
  let address := createFromIdentity genesisId shard in
  nonce <- Endpoint.getNonce fuel endpoint address ;;
  tx <- lift (create_transaction address (getKey genesisId) nonce to
                networkId amount) ;;
  txId <- Endpoint.sendTransaction fuel endpoint tx ;;
  resp <- poll fuel endpoint tx txId shard to 0 ;;
  bh <- lift (subscript resp "blockHeight") ;;
  height <- lift (int16 bh) ;;
  st <- lift (subscript resp "status") ;;
  status <- lift (int16 st) ;;
  print (MsgFunded shard txId height status amount) ;;;
  ret (txId, height).
End FundShard.

(** ** read_addr: the input loader *)

(** The loop over [tqkcMap.items()]. *)
Fixpoint group_by_amount (items : list (string * string))
  (byAmount : list (Z * list string)) : result (list (Z * list string)) :=
  match items with
  | [] => Ok byAmount
  | (addr, amount) :: rest =>
      match Py.int 10 amount with
      | Some n => group_by_amount rest (Dict.append_to Z.eqb byAmount n addr)
      | None => Err ValueError
      end
  end.

(** [read_addr] on the text of the file. *)
Definition read_addr (content : string) : result (list (Z * list string)) :=
  match Dict.of_rows (map Py.split (Py.readlines content)) [] with
  | Ok tqkcMap => group_by_amount tqkcMap []
  | Err e => Err e
  end.

(** ** fund: the orchestrator *)

(** [int(addr[-8:], 16) & (shardSize - 1)]; [&] on Python integers is
    [Z.land], also on negative ones. *)
Definition shard_of (shardSize : Z) (addr : string) : result Z :=
  match Py.int 16 (Py.suffix 8 addr) with
  | Some n => Ok (Z.land n (shardSize - 1))
  | None => Err ValueError
  end.

(** The loop that fills [byShard]. *)
Fixpoint group_by_shard (shardSize : Z) (addrs : list string)
  (byShard : list (Z * list string)) : result (list (Z * list string)) :=
  match addrs with
  | [] => Ok byShard
  | addr :: rest =>
      match shard_of shardSize addr with
      | Ok shard =>
          group_by_shard shardSize rest (Dict.append_to Z.eqb byShard shard addr)
      | Err e => Err e
      end
  end.

(** One pass over [byShard.values()]: [addrs.pop()] takes the last
    address of every queue that is not empty. The result is [toFund] and
    the queues left. *)
Fixpoint pop_round (byShard : list (Z * list string))
  : list string * list (Z * list string) :=
  match byShard with
  | [] => ([], [])
  | (shard, addrs) :: rest =>
      let (toFund, rest') := pop_round rest in
      match addrs with
      | [] => (toFund, (shard, addrs) :: rest')
      | _ :: _ =>
          (List.last addrs EmptyString :: toFund,
           (shard, removelast addrs) :: rest')
      end
  end.

(** What [asyncio.gather] makes of the outcomes of its awaitables: an
    exception of one of them is raised to the caller, otherwise it waits
    for all of them and returns their results in the order given. When
    several of them raise, [asyncio.gather] hands on the exception that
    was raised first in time. The flows are run here one after the other,
    each on answers of its own, and the time a request takes is not
    modelled, so there is no time to compare: [collect] takes the first
    in the order of the list. What is proved of a failing batch only says
    that the exception is that of one of its flows, or names a class that
    holds of every flow. *)
Fixpoint collect {A : Type} (os : list (outcome A)) : outcome (list A) :=
  match os with
  | [] => Done []
  | o :: rest =>
      match o, collect rest with
      | Raise e, _ => Raise e
      | _, Raise e => Raise e
      | Pending, _ => Pending
      | _, Pending => Pending
      | Done a, Done l => Done (a :: l)
      end
  end.

Section Orchestrator.
Context {L : Library}.
Variable fuel : nat.
Variable endpoint : Endpoint.t.
Variable genesisId : Identity.
(** The flows of a batch share the connection but each one only sees
    the answers to its own requests: [flow_world f] holds those, and
    the draws of the flow. *)
Variable flow_world : flow -> world.

Definition run_flow (f : flow) : outcome (json * Z) :=
  fst (fund_shard fuel endpoint genesisId (flow_to f) (flow_networkId f)
         (flow_shard f) (flow_amount f) (flow_world f)).

(** [await asyncio.gather] of [futures]: the flows start in that order
    and the call returns once all have ended, or raises. *)
Definition gather (futures : list flow) : M (list (json * Z)) :=
  emit_all (map ELaunch futures) ;;;
  results <- (fun w => (collect (map run_flow futures), w)) ;;
  emit_all (map EDone futures) ;;;
  ret results.

(** The loop over [toFund] that builds [futures]. *)
Fixpoint make_futures (networkId shardSize amount : Z)
  (toFund : list string) (futures : list flow) : M (list flow) :=
  match toFund with
  | [] => ret futures
  | addr :: rest =>
      shard <- lift (shard_of shardSize addr) ;;
      match createFrom (Py.drop 2 addr) with
      | Err _ =>
          print (MsgInvalid addr) ;;;
          make_futures networkId shardSize amount rest futures
      | Ok to =>
          sleep (1 # 10) ;;;
          make_futures networkId shardSize amount rest
            (futures ++ [mkFlow to networkId shard amount])%list
      end
  end.

(** The loop over [enumerate(results)]. *)
Fixpoint print_results (idx : nat) (results : list (json * Z)) : M unit :=
  match results with
  | [] => ret tt
  | (txId, height) :: rest =>
      print (MsgResult idx height txId) ;;;
      print_results (S idx) rest
  end.

(** The [while True] loop of rounds for one amount. *)
Fixpoint rounds (n : nat) (networkId shardSize amount : Z)
  (byShard : list (Z * list string)) : M unit :=
  match n with
  | O => pending
  | S n' =>
      let (toFund, byShard') := pop_round byShard in
      match toFund with
      | [] => ret tt
      | _ :: _ =>
          futures <- make_futures networkId shardSize amount toFund [] ;;
          results <- gather futures ;;
          print MsgBlank ;;;
          print_results 0 results ;;;
          rounds n' networkId shardSize amount byShard'
      end
  end.

(** The loop over the amounts of [addrByAmount]. *)
Fixpoint for_amounts (networkId shardSize : Z)
  (items : list (Z * list string)) : M unit :=
  match items with
  | [] => ret tt
  | (amount, addrs) :: rest =>
      print (MsgStart amount (List.length addrs)) ;;;
      byShard <- lift (group_by_shard shardSize addrs []) ;;
      rounds fuel networkId shardSize amount byShard ;;;
      for_amounts networkId shardSize rest
  end.

Definition fund (addrByAmount : list (Z * list string)) : M unit :=
  networkId <- Endpoint.getNetworkId fuel endpoint ;;
  shardSize <- Endpoint.getShardSize fuel endpoint ;;
  for_amounts networkId shardSize addrByAmount.
End Orchestrator.

(** ** An instance of the library for the examples

    Addresses are 24 bytes in hexadecimal, 20 of recipient and 4 of full
    shard id; every key but the empty one signs. *)
Fixpoint unhex (s : string) : option bytes :=
  match s with
  | EmptyString => Some []
  | String a (String b rest) =>
      match Py.digit_value a, Py.digit_value b, unhex rest with
      | Some x, Some y, Some bs =>
          if (x <? 16) && (y <? 16) then
            match Byte.of_N (Z.to_N (16 * x + y)) with
            | Some byte => Some (byte :: bs)
            | None => None
            end
          else None
      | _, _, _ => None
      end
  | String _ EmptyString => None
  end.

Definition demo_createFrom (s : string) : result Address :=
  match unhex s with
  | Some bs =>
      if (List.length bs =? 24)%nat then
        match Py.int 16 (Py.suffix 8 s) with
        | Some shard => Ok (mkAddress (firstn 20 bs) shard)
        | None => Err ValueError
        end
      else Err ValueError
  | None => Err ValueError
  end.

Definition demo_library : Library := {|
  rlp_hex := fun tx => if value tx =? 0 then "c0" else "c1";
  serialize_hex := fun _ => "00";
  createFromIdentity := fun id shard => mkAddress (id_recipient id) shard;
  createFrom := demo_createFrom;
  valid_key := fun key => match key with [] => false | _ => true end;
  ecsign := fun _ tx => (27, nonce tx + 1, value tx + 1)
|}.

Definition demo_endpoint : Endpoint.t := Endpoint.mk "http://localhost:38391".

Definition demo_genesis : Identity := mkIdentity [] [Byte.x01].

(** ** Specification-side descriptions of traces *)

(** What one failed attempt of [__sendRequest] leaves in the trace, [z]
    being the raw draw behind [random.randint(0, 5)]. *)
Definition retry_events (self : Endpoint.t) (args : request) (e : exn) (z : Z)
  : list event :=
  [ERequest (Endpoint.url self) args (Raised e);
   EPrint (MsgTimeout (Endpoint.url self) e);
   ESleep (inject_Z (1 + z mod 6))].

Fixpoint retries (self : Endpoint.t) (args : request) (es : list exn)
  (zs : list Z) : list event :=
  match es, zs with
  | e :: es', z :: zs' =>
      (retry_events self args e z ++ retries self args es' zs')%list
  | _, _ => []
  end.

(** ** Specification-side reading of the input file *)

(** The pairs of the rows that have two elements. *)
Definition pairs_of_rows (rows : list (list string)) : list (string * string) :=
  flat_map (fun row =>
              match row with
              | [addr; amount] => [(addr, amount)]
              | _ => []
              end) rows.

(** The [(address, amount)] pairs of the lines that have two tokens, in
    the order of the file. *)
Definition entries (content : string) : list (string * string) :=
  pairs_of_rows (map Py.split (Py.readlines content)).

(** The amount token on the last line of an address. *)
Definition last_amount (es : list (string * string)) (addr : string)
  : option string :=
  Dict.get String.eqb (rev es) addr.

(** [d[k]] on a [defaultdict(list)] read without inserting. *)
Definition lookup (d : list (Z * list string)) (k : Z) : list string :=
  match Dict.get Z.eqb d k with
  | Some l => l
  | None => []
  end.

(** All the addresses queued in a grouping, group after group. *)
Definition all_addresses (d : list (Z * list string)) : list string :=
  List.concat (map snd d).

(** The dictionary built by storing pairs one after the other. *)
Definition store (d : list (string * string)) (ps : list (string * string))
  : list (string * string) :=
  fold_left (fun d p => Dict.set String.eqb d (fst p) (snd p)) ps d.

(** One line terminator, to write files in examples. *)
Definition nl : string := String Py.LF EmptyString.

(** ** Specification-side reading of an address *)

Definition is_hex (c : ascii) : bool :=
  match Py.digit_value c with
  | Some d => d <? 16
  | None => false
  end.

Fixpoint all_hex (s : string) : bool :=
  match s with
  | EmptyString => true
  | String c s' => is_hex c && all_hex s'
  end.

Definition hex_digit (c : ascii) : Z :=
  match Py.digit_value c with
  | Some d => d
  | None => 0
  end.

(** The integer written by a string of hexadecimal digits, most
    significant digit first, continuing from [acc]. *)
Fixpoint hex_value_from (s : string) (acc : Z) : Z :=
  match s with
  | EmptyString => acc
  | String c s' => hex_value_from s' (acc * 16 + hex_digit c)
  end.

Definition hex_value (s : string) : Z := hex_value_from s 0.

(** Every address of every queue sits under its own shard. *)
Definition queues_ok (shardSize : Z) (byShard : list (Z * list string)) : Prop :=
  forall key queue, In (key, queue) byShard ->
    forall addr, In addr queue -> shard_of shardSize addr = Ok key.

(** ** Specification-side description of a funding flow *)
Section FlowTrace.
Context {L : Library}.
Variables (endpoint : Endpoint.t) (tx : EvmTransaction) (txId : json)
          (shard : Z) (dest : Address).

(** One turn of the polling loop that got [resp] as receipt. *)
Definition one_poll (resp : json) : list event :=
  [EPrint (MsgPending shard txId dest);
   ESleep (inject_Z 5);
   ERequest (Endpoint.url endpoint) (GetTransactionReceipt txId)
     (Returned resp)].

(** Sending [tx], answered by [resp]. *)
Definition submission (resp : json) : event :=
  ERequest (Endpoint.url endpoint)
    (SendRawTransaction ("0x" ++ rlp_hex tx)) (Returned resp).

(** Ten polls answered by the empty receipt [empty], then the retry,
    answered by [x]. *)
Definition retry_block (empty x : json) : list event :=
  (List.concat (repeat (one_poll empty) 10)
     ++ [EPrint (MsgRetry txId); submission x])%list.

(** The loop when the node answers [length xs] times ten empty receipts
    and a resubmission, then [k] more empty receipts, then [receipt]. *)
Definition poll_trace (empty : json) (xs : list json) (k : nat)
  (receipt : json) : list event :=
  (flat_map (retry_block empty) xs
     ++ List.concat (repeat (one_poll empty) k)
     ++ one_poll receipt)%list.

Definition poll_script (empty : json) (xs : list json) (k : nat)
  (receipt : json) : list rpc_outcome :=
  (flat_map (fun x => repeat (Returned empty) 10 ++ [Returned x]) xs
     ++ repeat (Returned empty) k
     ++ [Returned receipt])%list.
End FlowTrace.

(** The seconds slept in a trace. *)
Fixpoint slept (tr : list event) : Q :=
  match tr with
  | [] => 0%Q
  | ESleep d :: tr' => (d + slept tr')%Q
  | _ :: tr' => slept tr'
  end.

(** ** Properties of what a computation adds to the trace *)

(** Whatever the world, [m] only adds events that satisfy [P]. *)
Definition emits {A : Type} (P : event -> Prop) (m : M A) : Prop :=
  forall w, exists t, trace (snd (m w)) = (trace w ++ t)%list /\ Forall P t.

(** A submission that the node answered. *)
Definition is_answered_submission (e : event) : Prop :=
  exists url txHex resp,
    e = ERequest url (SendRawTransaction txHex) (Returned resp).

(** A receipt request asks for [txId]. *)
Definition polls_only (txId : json) (e : event) : Prop :=
  forall url id o, e = ERequest url (GetTransactionReceipt id) o -> id = txId.

(** ** Specification-side description of a round *)
Section RoundSpec.
Context {L : Library}.
Variables (net shardSize amount : Z).

(** The flows of the addresses of a batch that parse, in order. *)
Definition valid_flows (toFund : list string) : list flow :=
  flat_map (fun addr =>
              match shard_of shardSize addr, createFrom (Py.drop 2 addr) with
              | Ok shard, Ok dest => [mkFlow dest net shard amount]
              | _, _ => []
              end) toFund.

(** What preparing a batch leaves in the trace: the short sleep before
    a flow, the message for an address that does not parse. *)
Definition prep_events (toFund : list string) : list event :=
  map (fun addr =>
         match createFrom (Py.drop 2 addr) with
         | Ok _ => ESleep (1 # 10)
         | Err _ => EPrint (MsgInvalid addr)
         end) toFund.
End RoundSpec.

(** The shards with a flow in flight: a launch adds the shard of its
    flow, the end of a flow removes it. *)
Fixpoint remove_one (k : Z) (l : list Z) : list Z :=
  match l with
  | [] => []
  | k' :: l' => if Z.eqb k k' then l' else k' :: remove_one k l'
  end.

Definition step (e : event) (cur : list Z) : list Z :=
  match e with
  | ELaunch f => flow_shard f :: cur
  | EDone f => remove_one (flow_shard f) cur
  | _ => cur
  end.

(** The shards in flight after the events of [tr], starting from [cur]. *)
Fixpoint in_flight (tr : list event) (cur : list Z) : list Z :=
  match tr with
  | [] => cur
  | e :: tr' => in_flight tr' (step e cur)
  end.

(** At no point of [t], started with [cur] in flight, are two flows of
    one shard in flight. *)
Fixpoint distinct_throughout (cur : list Z) (t : list event) : Prop :=
  NoDup cur /\
  match t with
  | [] => True
  | e :: t' => distinct_throughout (step e cur) t'
  end.

(** [m] started with no flow in flight never has two flows of one shard
    in flight, and when it returns no flow is in flight and the value
    satisfies [Q]. *)
Definition calm {A : Type} (m : M A) (Q : A -> Prop) : Prop :=
  forall w, exists t,
    trace (snd (m w)) = (trace w ++ t)%list /\
    distinct_throughout [] t /\
    (forall a, fst (m w) = Done a -> in_flight t [] = [] /\ Q a).

Definition is_quiet (e : event) : Prop :=
  match e with
  | ELaunch _ | EDone _ => False
  | _ => True
  end.

(** ** A monitor for the polling loop

    [c] counts the empty receipts since the last submission. A receipt
    request is allowed while [c < 10]; a submission of [txHex] is allowed
    when [c = 10], and an answered one resets the count; a submission of
    anything else, or at another count, is a violation. *)
Definition poll_step (txHex : string) (c : Z) (e : event) : option Z :=
  match e with
  | ERequest _ (GetTransactionReceipt _) o =>
      if c <? 10 then
        Some (match o with
              | Returned resp => if truthy resp then c else c + 1
              | Raised _ => c
              end)
      else None
  | ERequest _ (SendRawTransaction h) o =>
      if (c =? 10) && String.eqb h txHex then
        Some (match o with
              | Returned _ => 0
              | Raised _ => c
              end)
      else None
  | _ => Some c
  end.

Fixpoint poll_monitor (txHex : string) (c : Z) (t : list event) : option Z :=
  match t with
  | [] => Some c
  | e :: t' =>
      match poll_step txHex c e with
      | Some c' => poll_monitor txHex c' t'
      | None => None
      end
  end.

(** Started at count [c], [m] only adds events that the monitor accepts,
    and when it returns [a] the count [c'] satisfies [Q a c']. *)
Definition tracks {A : Type} (txHex : string) (c : Z) (m : M A)
  (Q : A -> Z -> Prop) : Prop :=
  forall w, exists t c',
    trace (snd (m w)) = (trace w ++ t)%list /\
    poll_monitor txHex c t = Some c' /\
    (forall a, fst (m w) = Done a -> Q a c').

(** ** A run for the examples: two addresses of shard 0, amount 5 *)
Definition demo_addr1 : string :=
  "0x00000000000000000000000000000000000000a100000000".
Definition demo_addr2 : string :=
  "0x00000000000000000000000000000000000000a200000004".

Definition demo_info : json :=
  JDict [("networkId", JStr "0x3"); ("shardSize", JStr "0x4")].

Definition demo_receipt : json :=
  JDict [("blockHeight", JStr "0x10"); ("status", JStr "0x1")].

Definition demo_flow_world (f : flow) : world :=
  mkWorld [Returned (JStr "0x0"); Returned (JStr "0xid"); Returned demo_receipt]
          [] [].

Definition demo_run : outcome unit * world :=
  fund (L := demo_library) 5 demo_endpoint demo_genesis demo_flow_world
    [(5, [demo_addr1; demo_addr2])]
    (mkWorld [Returned demo_info; Returned demo_info] [] []).

(** ** Exceptions that can leave a computation *)

(** Whatever the world, an exception that [m] raises satisfies [P]. *)
Definition raises_only {A : Type} (P : exn -> Prop) (m : M A) : Prop :=
  forall w e, fst (m w) = Raise e -> P e.

(** The exceptions of the script's own conversions, of signing, and those
    that are not of class [Exception]: what can leave a flow. *)
Definition flow_failure (e : exn) : Prop :=
  e = ValueError \/ e = TypeError \/ e = KeyError \/ e = InvalidTransaction \/
  is_Exception e = false.

(** An event that leaves the polling loop waiting: anything but a receipt
    request answered with a receipt that is not empty, or a request cut
    short by something that is not an [Exception]. The answers to the
    submissions are free. *)
Definition unanswered (ev : event) : Prop :=
  match ev with
  | ERequest _ (GetTransactionReceipt _) (Returned resp) => truthy resp = false
  | ERequest _ _ (Raised e) => is_Exception e = true
  | _ => True
  end.

(** [m] only adds events to the trace, and when all of them are
    [unanswered] its outcome satisfies [Q]. *)
Definition while_unanswered {A : Type} (Q : outcome A -> Prop) (m : M A)
  : Prop :=
  forall w, exists t,
    trace (snd (m w)) = (trace w ++ t)%list /\
    (Forall unanswered t -> Q (fst (m w))).

(** What a request yields while its events are [unanswered]: never an
    exception, and if it asked for a receipt, an empty one. *)
Definition request_unanswered (args : request) (o : outcome json) : Prop :=
  match o with
  | Done resp =>
      match args with
      | GetTransactionReceipt _ => truthy resp = false
      | _ => True
      end
  | Raise _ => False
  | Pending => True
  end.

(** ** What a flow submits *)

(** [ev] is not a submission. *)
Definition no_submission (ev : event) : Prop :=
  forall url txHex o, ev <> ERequest url (SendRawTransaction txHex) o.

(** If [ev] is a submission, it submits [txHex]. *)
Definition submits_only (txHex : string) (ev : event) : Prop :=
  forall url h o, ev = ERequest url (SendRawTransaction h) o -> h = txHex.

(** ** Specification-side description of a complete run *)

(** The batches of the successive rounds, at most [n] of them. *)
Fixpoint batches (n : nat) (byShard : list (Z * list string))
  : list (list string) :=
  match n with
  | O => []
  | S n' =>
      let (toFund, byShard') := pop_round byShard in
      match toFund with
      | [] => []
      | _ :: _ => toFund :: batches n' byShard'
      end
  end.

(** The flows launched, and the flows ended, in a trace, in order. *)
Definition launched (t : list event) : list flow :=
  flat_map (fun ev => match ev with ELaunch f => [f] | _ => [] end) t.

Definition finished (t : list event) : list flow :=
  flat_map (fun ev => match ev with EDone f => [f] | _ => [] end) t.

(** The result lines printed in a trace. *)
Definition printed_results (t : list event) : list (nat * Z * json) :=
  flat_map (fun ev =>
              match ev with
              | EPrint (MsgResult idx height txId) => [(idx, height, txId)]
              | _ => []
              end) t.

(** The result lines of a batch, numbered from [idx]. *)
Fixpoint result_lines (idx : nat) (results : list (json * Z)) : list event :=
  match results with
  | [] => []
  | (txId, height) :: rest =>
      EPrint (MsgResult idx height txId) :: result_lines (S idx) rest
  end.



(** The flows of a whole grouping: those of each group with its amount. *)
Definition flows_of_groups {L : Library} (net shardSize : Z)
  (g : list (Z * list string)) : list flow :=
  flat_map (fun group => valid_flows net shardSize (fst group) (snd group)) g.

(** The flows of shard [k] in a list of flows, in order. *)
Definition of_shard (k : Z) (fs : list flow) : list flow :=
  filter (fun f => Z.eqb (flow_shard f) k) fs.

(** ** Result lines and flows in flight *)

Definition is_result (ev : event) : Prop :=
  exists idx height txId, ev = EPrint (MsgResult idx height txId).

(** Every result line of [t], started with [cur] in flight, is printed
    when no flow is in flight. *)
Fixpoint settled_throughout (cur : list Z) (t : list event) : Prop :=
  match t with
  | [] => True
  | ev :: t' => (is_result ev -> cur = []) /\ settled_throughout (step ev cur) t'
  end.

(** [m] started with no flow in flight prints its result lines when no
    flow is in flight, and leaves none in flight when it returns. *)
Definition settled {A : Type} (m : M A) : Prop :=
  forall w, exists t,
    trace (snd (m w)) = (trace w ++ t)%list /\
    settled_throughout [] t /\
    (forall a, fst (m w) = Done a -> in_flight t [] = []).

(** The blank lines of a trace: [fund] prints one after every batch. *)
Definition is_blank (ev : event) : bool :=
  match ev with
  | EPrint MsgBlank => true
  | _ => false
  end.

Definition blank_lines (t : list event) : nat :=
  List.length (filter is_blank t).

(** The length of the longest queue of [byShard]. *)
Fixpoint longest (byShard : list (Z * list string)) : nat :=
  match byShard with
  | [] => 0
  | (_, addrs) :: rest => Nat.max (List.length addrs) (longest rest)
  end.

(** The distinct elements of [l], each at the place of its first
    occurrence. *)
Definition first_seen {A : Type} (dec : forall x y : A, {x = y} + {x <> y})
  (l : list A) : list A :=
  rev (nodup dec (rev l)).

(** The amount that the loader keeps for an address of the file. *)
Definition amount_of (content : string) (addr : string) : option Z :=
  match last_amount (entries content) addr with
  | Some amt => Py.int 10 amt
  | None => None
  end.

(** A key is added to the keys of a dictionary behind the others, unless
    it is there. *)
Definition push {A : Type} (dec : forall x y : A, {x = y} + {x <> y})
  (seen : list A) (k : A) : list A :=
  if in_dec dec k seen then seen else (seen ++ [k])%list.

Definition parsed (item : string * string) : list Z :=
  match Py.int 10 (snd item) with
  | Some n => [n]
  | None => []
  end.

Definition has_amount (n : Z) (item : string * string) : bool :=
  match Py.int 10 (snd item) with
  | Some m => Z.eqb m n
  | None => false
  end.

(** The last eight characters of [addr] are a hexadecimal literal for
    [int(addr[-8:], 16)]. *)
Definition hex_tail (addr : string) : bool :=
  match Py.int 16 (Py.suffix 8 addr) with
  | Some _ => true
  | None => false
  end.

(** Every address of every group has such a tail. *)
Definition well_tailed (g : list (Z * list string)) : bool :=
  forallb (fun group => forallb hex_tail (snd group)) g.

(** The groups before the first one that holds an address without such a
    tail. *)
Fixpoint reached (g : list (Z * list string)) : list (Z * list string) :=
  match g with
  | [] => []
  | (amount, addrs) :: rest =>
      if forallb hex_tail addrs then (amount, addrs) :: reached rest else []
  end.

(** * Theorems *)

(** ** The transaction builder *)

(** C5: whatever the inputs, a transaction that [create_transaction]
    returns has value [amount * 10^18], gas price 1, gas limit 1000000,
    an empty payload, the sender's and the recipient's full shard ids,
    and the nonce, recipient and network id it was given. *)
Theorem create_transaction_fields {L : Library}
  (address : Address) (key : bytes) (n : Z) (dest : Address)
  (net amount : Z) (tx : EvmTransaction) :
  create_transaction address key n dest net amount = Ok tx ->
  value tx = amount * 10 ^ 18 /\
  gasprice tx = 1 /\
  startgas tx = 1000000 /\
  data tx = [] /\
  fromFullShardId tx = fullShardId address /\
  toFullShardId tx = fullShardId dest /\
  to tx = recipient dest /\
  nonce tx = n /\
  networkId tx = net.
Proof.
  unfold create_transaction, sign.
  destruct (valid_key key); [|discriminate].
  destruct (ecsign key _) as [[sv sr] ss].
  intros H; injection H as <-.
  repeat split; reflexivity.
Qed.

Lemma create_transaction_fields_witness :
  let sender := mkAddress [] 2 in
  let dest := mkAddress [Byte.xab] 7 in
  exists tx,
    create_transaction (L := demo_library) sender [Byte.x01] 4 dest 3 5 = Ok tx /\
    value tx = 5 * 10 ^ 18 /\ gasprice tx = 1.
Proof.
  intros sender dest. eexists. split; [reflexivity|].
  pose proof (create_transaction_fields (L := demo_library)
                sender [Byte.x01] 4 dest 3 5 _ eq_refl) as H.
  split; [exact (proj1 H) | exact (proj1 (proj2 H))].
Defined.

(** ** The RPC client *)

Lemma sendRequest_step_raised (fuel : nat) (self : Endpoint.t) (args : request)
  (e : exn) (rest : list rpc_outcome) (z : Z) (ent : list Z) (tr : list event) :
  is_Exception e = true ->
  Endpoint.sendRequest (S fuel) self args (mkWorld (Raised e :: rest) (z :: ent) tr)
  = Endpoint.sendRequest fuel self args
      (mkWorld rest ent (tr ++ retry_events self args e z)).
Proof.
  intros He. cbn [Endpoint.sendRequest].
  unfold bind at 1. cbn. rewrite He.
  unfold bind, print, sleep, emit, randint; cbn.
  rewrite <- !app_assoc. reflexivity.
Qed.

(** C2 (amended): every exception of class [Exception] that the request
    raises, whatever its kind, makes [__sendRequest] send the identical
    request again, for any number of failures in a row; before each retry
    it sleeps [1 + random.randint(0, 5)] seconds, an integer from 1 to 6,
    both included; a result that the request returns is handed to the
    caller at once, and an exception that is not an [Exception] is raised
    to the caller. *)
Theorem sendRequest_retries_every_Exception
  (self : Endpoint.t) (args : request) (es : list exn) (zs : list Z)
  (resp : json) (rest : list rpc_outcome) (ent : list Z) (tr : list event)
  (extra : nat) :
  Forall (fun e => is_Exception e = true) es ->
  List.length zs = List.length es ->
  Endpoint.sendRequest (S (List.length es) + extra) self args
    (mkWorld (map Raised es ++ Returned resp :: rest) (zs ++ ent) tr)
  = (Done resp,
     mkWorld rest ent
       (tr ++ retries self args es zs
           ++ [ERequest (Endpoint.url self) args (Returned resp)])) /\
  Forall (fun z => 1 <= 1 + z mod 6 <= 6) zs /\
  (forall e, is_Exception e = false ->
     Endpoint.sendRequest (S extra) self args (mkWorld (Raised e :: rest) ent tr)
     = (Raise e,
        mkWorld rest ent (tr ++ [ERequest (Endpoint.url self) args (Raised e)]))).
Proof.
  intros Hes Hlen. split; [|split].
  - revert zs tr Hlen. induction Hes as [|e es He Hes IH]; intros zs tr Hlen.
    + destruct zs; [|discriminate]. reflexivity.
    + destruct zs as [|z zs]; [discriminate|].
      injection Hlen as Hlen.
      change (S (List.length (e :: es)) + extra)%nat
        with (S (S (List.length es) + extra)).
      cbn [map app].
      rewrite sendRequest_step_raised by exact He.
      rewrite (IH zs _ Hlen). cbn [retries].
      rewrite <- !app_assoc. reflexivity.
  - clear. induction zs as [|z zs IH]; constructor; [|exact IH].
    pose proof (Z.mod_pos_bound z 6 ltac:(lia)). lia.
  - intros e He. cbn [Endpoint.sendRequest]. unfold bind. cbn. rewrite He.
    reflexivity.
Qed.

Lemma sendRequest_retries_every_Exception_witness :
  Endpoint.sendRequest 3 demo_endpoint NetworkInfo
    (mkWorld [Raised TransportError; Raised ReceivedErrorResponse;
              Returned (JStr "0x1")] [5; 6] [])
  = (Done (JStr "0x1"),
     mkWorld [] []
       ([] ++ retries demo_endpoint NetworkInfo
                [TransportError; ReceivedErrorResponse] [5; 6]
           ++ [ERequest (Endpoint.url demo_endpoint) NetworkInfo
                 (Returned (JStr "0x1"))])).
Proof.
  refine (proj1 (sendRequest_retries_every_Exception demo_endpoint NetworkInfo
            [TransportError; ReceivedErrorResponse] [5; 6] (JStr "0x1") [] [] []
            0 _ eq_refl)).
  repeat constructor.
Defined.

(** C2, as stated, fails twice on one run: the error response that the
    client raises as [ReceivedErrorResponse] is retried and does not reach
    the caller, and the delay before the retry is 6, outside [1, 6). *)
Lemma sendRequest_retries_error_response :
  let w := mkWorld [Raised ReceivedErrorResponse; Returned (JStr "0x1")] [5] [] in
  fst (Endpoint.sendRequest 2 demo_endpoint NetworkInfo w) = Done (JStr "0x1") /\
  trace (snd (Endpoint.sendRequest 2 demo_endpoint NetworkInfo w))
  = [ERequest "http://localhost:38391" NetworkInfo (Raised ReceivedErrorResponse);
     EPrint (MsgTimeout "http://localhost:38391" ReceivedErrorResponse);
     ESleep (inject_Z 6);
     ERequest "http://localhost:38391" NetworkInfo (Returned (JStr "0x1"))] /\
  ~ (6 < 6).
Proof.
  cbv zeta. split; [reflexivity|]. split; [reflexivity|]. lia.
Qed.

(** ** Dictionaries *)

Lemma get_set (d : list (string * string)) (k v k' : string) :
  Dict.get String.eqb (Dict.set String.eqb d k v) k'
  = if String.eqb k' k then Some v else Dict.get String.eqb d k'.
Proof.
  induction d as [|[k0 v0] d IH]; cbn.
  - reflexivity.
  - destruct (String.eqb k k0) eqn:E; cbn.
    + apply String.eqb_eq in E. subst k0.
      destruct (String.eqb k' k); reflexivity.
    + rewrite IH. destruct (String.eqb k' k0) eqn:E0; [|reflexivity].
      apply String.eqb_eq in E0. subst k0.
      rewrite String.eqb_sym, E. reflexivity.
Qed.

Lemma keys_set (d : list (string * string)) (k v k' : string) :
  In k' (map fst (Dict.set String.eqb d k v)) <-> k' = k \/ In k' (map fst d).
Proof.
  induction d as [|[k0 v0] d IH]; cbn.
  - intuition.
  - destruct (String.eqb k k0) eqn:E; cbn.
    + apply String.eqb_eq in E. subst k0. intuition.
    + rewrite IH. intuition.
Qed.

Lemma NoDup_keys_set (d : list (string * string)) (k v : string) :
  NoDup (map fst d) -> NoDup (map fst (Dict.set String.eqb d k v)).
Proof.
  induction d as [|[k0 v0] d IH]; cbn; intros H.
  - constructor; [intros []|constructor].
  - destruct (String.eqb k k0) eqn:E; cbn.
    + exact H.
    + inversion H as [|? ? Hn Hd]; subst. constructor; [|auto].
      rewrite keys_set. intros [->|Hin]; [|contradiction].
      rewrite String.eqb_refl in E. discriminate.
Qed.

Lemma get_In (d : list (string * string)) (k v : string) :
  Dict.get String.eqb d k = Some v -> In (k, v) d.
Proof.
  induction d as [|[k0 v0] d IH]; cbn; [discriminate|].
  destruct (String.eqb k k0) eqn:E; intros H.
  - apply String.eqb_eq in E. injection H as ->. subst. now left.
  - right. auto.
Qed.

Lemma In_get (d : list (string * string)) (k v : string) :
  NoDup (map fst d) -> In (k, v) d -> Dict.get String.eqb d k = Some v.
Proof.
  induction d as [|[k0 v0] d IH]; cbn; [intros _ []|].
  intros H [Heq|Hin].
  - injection Heq as -> ->. rewrite String.eqb_refl. reflexivity.
  - inversion H as [|? ? Hn Hd]; subst.
    destruct (String.eqb k k0) eqn:E.
    + apply String.eqb_eq in E. subst k0. exfalso. apply Hn.
      change k with (fst (k, v)). now apply in_map.
    + auto.
Qed.

Lemma get_app (d1 d2 : list (string * string)) (k : string) :
  Dict.get String.eqb (d1 ++ d2) k
  = match Dict.get String.eqb d1 k with
    | Some v => Some v
    | None => Dict.get String.eqb d2 k
    end.
Proof.
  induction d1 as [|[k0 v0] d1 IH]; cbn; [reflexivity|].
  destruct (String.eqb k k0); [reflexivity|exact IH].
Qed.

Lemma get_None_keys (d : list (string * string)) (k : string) :
  Dict.get String.eqb d k = None <-> ~ In k (map fst d).
Proof.
  induction d as [|[k0 v0] d IH]; cbn; [intuition|].
  destruct (String.eqb k k0) eqn:E.
  - apply String.eqb_eq in E. subst. split; [discriminate|intuition].
  - apply String.eqb_neq in E. rewrite IH. intuition congruence.
Qed.

Lemma get_store (ps d : list (string * string)) (k : string) :
  Dict.get String.eqb (store d ps) k
  = match last_amount ps k with
    | Some v => Some v
    | None => Dict.get String.eqb d k
    end.
Proof.
  unfold last_amount, store. revert d.
  induction ps as [|[k0 v0] ps IH]; intros d; cbn; [reflexivity|].
  rewrite IH, get_app, get_set. cbn.
  destruct (Dict.get String.eqb (rev ps) k); [reflexivity|].
  destruct (String.eqb k k0); reflexivity.
Qed.

Lemma keys_store (ps d : list (string * string)) (k : string) :
  In k (map fst (store d ps)) <-> In k (map fst ps) \/ In k (map fst d).
Proof.
  unfold store. revert d.
  induction ps as [|[k0 v0] ps IH]; intros d; cbn; [intuition|].
  rewrite IH, keys_set. cbn. intuition.
Qed.

Lemma NoDup_keys_store (ps d : list (string * string)) :
  NoDup (map fst d) -> NoDup (map fst (store d ps)).
Proof.
  unfold store. revert d.
  induction ps as [|[k0 v0] ps IH]; intros d H; cbn; [exact H|].
  apply IH, NoDup_keys_set, H.
Qed.

Lemma of_rows_inv (rows : list (list string)) (d m : list (string * string)) :
  Dict.of_rows rows d = Ok m ->
  Forall (fun row => List.length row = 2%nat) rows /\
  m = store d (pairs_of_rows rows).
Proof.
  revert d. induction rows as [|row rows IH]; intros d; cbn.
  - intros H. injection H as <-. split; [constructor|reflexivity].
  - destruct row as [|a [|b [|c row]]]; try discriminate.
    intros H. apply IH in H as [HF ->]. split; [|reflexivity].
    constructor; [reflexivity|exact HF].
Qed.

Lemma of_rows_ok (rows : list (list string)) (d : list (string * string)) :
  Forall (fun row => List.length row = 2%nat) rows ->
  Dict.of_rows rows d = Ok (store d (pairs_of_rows rows)).
Proof.
  intros H. revert d. induction H as [|row rows Hrow _ IH]; intros d.
  - reflexivity.
  - destruct row as [|a [|b [|c row]]]; try discriminate. cbn. apply IH.
Qed.

Lemma of_rows_err (rows : list (list string)) (d : list (string * string))
  (row : list string) :
  In row rows -> List.length row <> 2%nat ->
  Dict.of_rows rows d = Err ValueError.
Proof.
  intros Hin Hlen. revert d.
  induction rows as [|row0 rows IH]; intros d; [destruct Hin|].
  destruct Hin as [->|Hin].
  - destruct row as [|a [|b [|c row]]]; try reflexivity. now destruct Hlen.
  - destruct row0 as [|a [|b [|c row0]]]; try reflexivity. cbn. now apply IH.
Qed.

Section AppendTo.
Context {A : Type}.

Lemma append_to_concat (d : list (Z * list A)) (k : Z) (x : A) :
  Permutation (List.concat (map snd (Dict.append_to Z.eqb d k x)))
              (x :: List.concat (map snd d)).
Proof.
  induction d as [|[k0 l] d IH]; cbn.
  - reflexivity.
  - destruct (Z.eqb k k0); cbn.
    + rewrite <- app_assoc. cbn. symmetry. apply Permutation_middle.
    + rewrite IH. symmetry. apply Permutation_middle.
Qed.

Lemma append_to_get (d : list (Z * list A)) (k n : Z) (x : A) :
  Dict.get Z.eqb (Dict.append_to Z.eqb d k x) n
  = if Z.eqb n k
    then Some (match Dict.get Z.eqb d n with
               | Some l => l ++ [x]
               | None => [x]
               end)%list
    else Dict.get Z.eqb d n.
Proof.
  induction d as [|[k0 l] d IH]; cbn.
  - destruct (Z.eqb n k); reflexivity.
  - destruct (Z.eqb k k0) eqn:E; cbn.
    + apply Z.eqb_eq in E. subst k0. destruct (Z.eqb n k); reflexivity.
    + rewrite IH. destruct (Z.eqb n k0) eqn:E0; [|reflexivity].
      apply Z.eqb_eq in E0. subst k0. rewrite Z.eqb_sym, E. reflexivity.
Qed.

Lemma append_to_keys (d : list (Z * list A)) (k n : Z) (x : A) :
  In n (map fst (Dict.append_to Z.eqb d k x)) <-> n = k \/ In n (map fst d).
Proof.
  induction d as [|[k0 l] d IH]; cbn.
  - intuition.
  - destruct (Z.eqb k k0) eqn:E; cbn.
    + apply Z.eqb_eq in E. subst k0. intuition.
    + rewrite IH. intuition.
Qed.

Lemma append_to_NoDup (d : list (Z * list A)) (k : Z) (x : A) :
  NoDup (map fst d) -> NoDup (map fst (Dict.append_to Z.eqb d k x)).
Proof.
  induction d as [|[k0 l] d IH]; cbn; intros H.
  - constructor; [intros []|constructor].
  - destruct (Z.eqb k k0) eqn:E; cbn; [exact H|].
    inversion H as [|? ? Hn Hd]; subst. constructor; [|auto].
    rewrite append_to_keys. intros [->|Hin]; [|contradiction].
    rewrite Z.eqb_refl in E. discriminate.
Qed.
End AppendTo.

Lemma lookup_append_to (d : list (Z * list string)) (k n : Z) (x a : string) :
  In a (lookup (Dict.append_to Z.eqb d k x) n)
  <-> In a (lookup d n) \/ (n = k /\ a = x).
Proof.
  unfold lookup. rewrite append_to_get.
  destruct (Z.eqb n k) eqn:E.
  - apply Z.eqb_eq in E. subst n.
    destruct (Dict.get Z.eqb d k); [rewrite in_app_iff|]; cbn; intuition.
  - apply Z.eqb_neq in E. intuition.
Qed.

(** ** The input loader *)

Lemma group_by_amount_inv (items : list (string * string))
  (g0 g : list (Z * list string)) :
  group_by_amount items g0 = Ok g ->
  Permutation (all_addresses g) (all_addresses g0 ++ map fst items) /\
  (forall a n, In a (lookup g n) <->
               In a (lookup g0 n) \/
               exists amt, In (a, amt) items /\ Py.int 10 amt = Some n) /\
  (NoDup (map fst g0) -> NoDup (map fst g)).
Proof.
  revert g0. induction items as [|[addr amount] items IH]; intros g0; cbn.
  - intros H. injection H as <-. rewrite app_nil_r.
    split; [reflexivity|]. split; [|auto].
    intros a n. split; [auto|]. intros [H|[amt [[] _]]]. exact H.
  - destruct (Py.int 10 amount) as [m|] eqn:E; [|discriminate].
    intros H. apply IH in H as (HP & HL & HN). split; [|split].
    + rewrite HP. unfold all_addresses. rewrite append_to_concat.
      cbn. apply Permutation_middle.
    + intros a n. rewrite HL, lookup_append_to. split.
      * intros [[H|[-> ->]]|[amt [H1 H2]]].
        -- now left.
        -- right. exists amount. split; [now left|exact E].
        -- right. exists amt. split; [now right|exact H2].
      * intros [H|[amt [[H1|H1] H2]]].
        -- left. now left.
        -- injection H1 as -> ->. left. right. split; congruence.
        -- right. exists amt. split; assumption.
    + intros H. apply HN, append_to_NoDup, H.
Qed.

Lemma group_by_amount_total (items : list (string * string))
  (g0 : list (Z * list string)) :
  (forall a amt, In (a, amt) items -> Py.int 10 amt <> None) ->
  exists g, group_by_amount items g0 = Ok g.
Proof.
  revert g0. induction items as [|[addr amount] items IH]; intros g0 H; cbn.
  - eexists; reflexivity.
  - destruct (Py.int 10 amount) as [m|] eqn:E.
    + apply IH. intros a amt Hin. apply (H a amt). now right.
    + exfalso. apply (H addr amount); [now left|exact E].
Qed.

Lemma store_items (ps : list (string * string)) (a amt : string) :
  In (a, amt) (store [] ps) <-> last_amount ps a = Some amt.
Proof.
  pose proof (NoDup_keys_store ps [] (NoDup_nil _)) as HN.
  split; intros H.
  - apply (In_get _ _ _ HN) in H. rewrite get_store in H.
    destruct (last_amount ps a); [exact H|discriminate].
  - apply get_In. rewrite get_store, H. reflexivity.
Qed.

Lemma read_addr_inv (content : string) (g : list (Z * list string)) :
  read_addr content = Ok g ->
  Forall (fun line => List.length (Py.split line) = 2%nat)
         (Py.readlines content) /\
  group_by_amount (store [] (entries content)) [] = Ok g.
Proof.
  unfold read_addr, entries.
  destruct (Dict.of_rows _ _) as [m|e] eqn:E; [|discriminate].
  apply of_rows_inv in E as [HF ->]. intros H. split; [|exact H].
  apply Forall_map in HF. exact HF.
Qed.

Lemma read_addr_members (content : string) (g : list (Z * list string)) :
  group_by_amount (store [] (entries content)) [] = Ok g ->
  forall addr n,
    In addr (lookup g n) <->
    exists amt, last_amount (entries content) addr = Some amt /\
                Py.int 10 amt = Some n.
Proof.
  intros H addr n. apply group_by_amount_inv in H as (_ & HL & _).
  rewrite HL. split.
  - intros [[]|[amt [H1 H2]]]. exists amt. now rewrite <- store_items.
  - intros [amt [H1 H2]]. right. exists amt. now rewrite store_items.
Qed.

(** C6 (amended): a file whose lines all have two tokens is grouped by
    amount; any line that does not split into exactly two tokens makes the
    loader raise; an address that repeats, with the same or another
    amount, is not an error: the loader keeps one entry for it, under the
    amount of its last line. *)
Theorem read_addr_groups_or_raises :
  read_addr ("0xabc 5" ++ nl ++ "0xdef 10" ++ nl)
  = Ok [(5, ["0xabc"]); (10, ["0xdef"])] /\
  (forall content line,
      In line (Py.readlines content) ->
      List.length (Py.split line) <> 2%nat ->
      read_addr content = Err ValueError) /\
  (forall content,
      Forall (fun line => List.length (Py.split line) = 2%nat)
             (Py.readlines content) ->
      (forall addr amt,
          last_amount (entries content) addr = Some amt ->
          Py.int 10 amt <> None) ->
      exists g,
        read_addr content = Ok g /\
        forall addr n,
          In addr (lookup g n) <->
          exists amt, last_amount (entries content) addr = Some amt /\
                      Py.int 10 amt = Some n).
Proof.
  split; [reflexivity|]. split.
  - intros content line Hin Hlen. unfold read_addr.
    rewrite (of_rows_err _ [] (Py.split line)); [reflexivity| |exact Hlen].
    now apply in_map.
  - intros content HF Hint. unfold read_addr.
    rewrite of_rows_ok by (apply Forall_map; exact HF).
    fold (entries content).
    destruct (group_by_amount_total (store [] (entries content)) []) as [g Hg].
    { intros a amt Hin. apply (Hint a amt). now apply store_items. }
    exists g. split; [exact Hg|]. now apply read_addr_members.
Qed.

(** C6, as stated, fails where it says that a repeated address with
    conflicting amounts is fatal: the loader returns, with the address
    under its last amount. *)
Lemma read_addr_accepts_conflicting_amounts :
  read_addr ("0xabc 5" ++ nl ++ "0xabc 10" ++ nl) = Ok [(10, ["0xabc"])].
Proof. reflexivity. Qed.

Lemma group_by_shard_perm (shardSize : Z) (addrs : list string)
  (b0 b : list (Z * list string)) :
  group_by_shard shardSize addrs b0 = Ok b ->
  Permutation (all_addresses b) (all_addresses b0 ++ addrs).
Proof.
  revert b0. induction addrs as [|addr addrs IH]; intros b0; cbn.
  - intros H. injection H as <-. now rewrite app_nil_r.
  - destruct (shard_of shardSize addr) as [shard|e]; [|discriminate].
    intros H. apply IH in H. rewrite H. unfold all_addresses.
    rewrite append_to_concat. cbn. apply Permutation_middle.
Qed.

Lemma pop_round_perm (byShard byShard' : list (Z * list string))
  (toFund : list string) :
  pop_round byShard = (toFund, byShard') ->
  Permutation (all_addresses byShard) (toFund ++ all_addresses byShard').
Proof.
  revert toFund byShard'.
  induction byShard as [|[shard addrs] rest IH]; intros toFund byShard'; cbn.
  - intros H. injection H as <- <-. reflexivity.
  - destruct (pop_round rest) as [toFund0 rest'].
    specialize (IH _ _ eq_refl). unfold all_addresses in *.
    destruct addrs as [|a addrs].
    + intros H. injection H as <- <-. cbn. exact IH.
    + intros H. injection H as <- <-. cbn [map snd List.concat].
      rewrite (app_removelast_last EmptyString (l := a :: addrs)) at 1
        by discriminate.
      rewrite IH. rewrite <- app_assoc. cbn [app].
      rewrite <- Permutation_middle.
      apply perm_skip. rewrite !app_assoc. apply Permutation_app_tail.
      apply Permutation_app_comm.
Qed.

(** C10: when the loader returns, every address of the file is listed
    exactly once over all the amount groups, under the amount of its last
    line, however often it appears in the file; the queues that [fund]
    builds for a group hold the addresses of the group once each, and a
    round only moves addresses from the queues to its batch. *)
Theorem read_addr_lists_each_address_once
  (content : string) (g : list (Z * list string)) :
  read_addr content = Ok g ->
  NoDup (all_addresses g) /\
  NoDup (map fst g) /\
  (forall addr,
      In addr (all_addresses g) <-> In addr (map fst (entries content))) /\
  (forall addr n,
      In addr (lookup g n) <->
      exists amt, last_amount (entries content) addr = Some amt /\
                  Py.int 10 amt = Some n) /\
  (forall shardSize addrs byShard,
      group_by_shard shardSize addrs [] = Ok byShard ->
      Permutation (all_addresses byShard) addrs) /\
  (forall byShard toFund byShard',
      pop_round byShard = (toFund, byShard') ->
      Permutation (all_addresses byShard) (toFund ++ all_addresses byShard')).
Proof.
  intros H. apply read_addr_inv in H as [_ H].
  pose proof (group_by_amount_inv _ _ _ H) as (HP & _ & HN).
  pose proof (NoDup_keys_store (entries content) [] (NoDup_nil _)) as HK.
  cbn in HP. repeat split.
  - eapply Permutation_NoDup; [symmetry; exact HP|exact HK].
  - apply HN. constructor.
  - intros Hin. apply (Permutation_in _ HP) in Hin.
    apply keys_store in Hin as [Hin|[]]. exact Hin.
  - intros Hin. apply (Permutation_in _ (Permutation_sym HP)).
    apply keys_store. now left.
  - now apply read_addr_members.
  - now apply read_addr_members.
  - intros shardSize addrs byShard Hg.
    apply group_by_shard_perm in Hg. exact Hg.
  - intros byShard toFund byShard'. apply pop_round_perm.
Qed.

Lemma read_addr_lists_each_address_once_witness :
  NoDup (all_addresses [(10, ["0xabc"]); (5, ["0xdef"])]).
Proof.
  exact (proj1 (read_addr_lists_each_address_once
                  ("0xabc 5" ++ nl ++ "0xdef 5" ++ nl ++ "0xabc 10" ++ nl)
                  [(10, ["0xabc"]); (5, ["0xdef"])] eq_refl)).
Defined.

(** ** Hexadecimal literals *)

Lemma is_hex_plain (c : ascii) :
  is_hex c = true ->
  Py.int_space c = false /\
  Ascii.eqb c "_" = false /\
  Ascii.eqb c "+" = false /\
  Ascii.eqb c "-" = false /\
  Ascii.eqb c "x" = false /\
  Ascii.eqb c "X" = false.
Proof.
  destruct c as [b0 b1 b2 b3 b4 b5 b6 b7].
  destruct b0, b1, b2, b3, b4, b5, b6, b7;
    vm_compute; intros H; try discriminate H; repeat split.
Qed.

Lemma is_hex_digit (c : ascii) :
  is_hex c = true ->
  Py.digit_value c = Some (hex_digit c) /\ 0 <= hex_digit c < 16.
Proof.
  unfold is_hex, hex_digit.
  destruct (Py.digit_value c) as [d|] eqn:E; [|discriminate].
  intros H. apply Z.ltb_lt in H. split; [reflexivity|].
  split; [|exact H].
  unfold Py.digit_value in E.
  repeat match type of E with
         | (if ?b then _ else _) = _ => destruct b eqn:?
         end; inversion E; lia.
Qed.

Lemma parse_digits_hex (s : string) (acc : Z) :
  all_hex s = true ->
  Py.parse_digits 16 s acc false = Some (hex_value_from s acc).
Proof.
  revert acc. induction s as [|c s IH]; intros acc; cbn; [reflexivity|].
  intros H. apply andb_prop in H as [Hc Hs].
  destruct (is_hex_plain c Hc) as (_ & -> & _).
  destruct (is_hex_digit c Hc) as [-> Hd].
  destruct (Z.ltb_spec (hex_digit c) 16); [|lia]. now apply IH.
Qed.

Lemma rstrip_hex (s : string) :
  all_hex s = true -> Py.rstrip Py.int_space s = s.
Proof.
  induction s as [|c s IH]; cbn; [reflexivity|].
  intros H. apply andb_prop in H as [Hc Hs].
  destruct (is_hex_plain c Hc) as (-> & _). cbn. now rewrite IH.
Qed.

Lemma int_hex (s : string) :
  all_hex s = true -> s <> EmptyString ->
  Py.int 16 s = Some (hex_value s).
Proof.
  intros H Hne. destruct s as [|c s]; [now destruct Hne|].
  pose proof H as H0. cbn in H0. apply andb_prop in H0 as [Hc Hs].
  destruct (is_hex_plain c Hc) as (Hsp & Hus & Hplus & Hminus & _).
  unfold Py.int, Py.strip. cbn [Py.lstrip]. rewrite Hsp, (rstrip_hex _ H).
  assert (Hsign : Py.split_sign (String c s) = (false, String c s)).
  { unfold Py.split_sign.
    destruct c as [b0 b1 b2 b3 b4 b5 b6 b7].
    destruct b0, b1, b2, b3, b4, b5, b6, b7; try reflexivity;
      discriminate. }
  rewrite Hsign.
  assert (Hpre : Py.skip_prefix 16 (String c s) = String c s).
  { unfold Py.skip_prefix. cbn [Z.eqb Pos.eqb].
    destruct s as [|x s]; [destruct c as [[] [] [] [] [] [] [] []]; reflexivity|].
    cbn in Hs. apply andb_prop in Hs as [Hx _].
    destruct (is_hex_plain x Hx) as (_ & _ & _ & _ & -> & ->).
    cbn. destruct c as [[] [] [] [] [] [] [] []]; reflexivity. }
  rewrite Hpre, Hus, parse_digits_hex by exact H. reflexivity.
Qed.

Lemma hex_value_from_acc (s : string) (acc : Z) :
  hex_value_from s acc = acc * 16 ^ Z.of_nat (String.length s) + hex_value s.
Proof.
  unfold hex_value. revert acc.
  induction s as [|c s IH]; intros acc; cbn [hex_value_from String.length].
  - cbn. lia.
  - rewrite IH, (IH (0 * 16 + hex_digit c)), Nat2Z.inj_succ, Z.pow_succ_r by lia.
    ring.
Qed.

Lemma hex_value_from_app (p t : string) (acc : Z) :
  hex_value_from (p ++ t) acc = hex_value_from t (hex_value_from p acc).
Proof.
  revert acc. induction p as [|c p IH]; intros acc; cbn; [reflexivity|].
  apply IH.
Qed.

Lemma hex_value_app (p t : string) :
  hex_value (p ++ t) = hex_value p * 16 ^ Z.of_nat (String.length t) + hex_value t.
Proof.
  unfold hex_value at 1. rewrite hex_value_from_app, hex_value_from_acc.
  reflexivity.
Qed.

Lemma hex_value_bound (s : string) :
  all_hex s = true -> 0 <= hex_value s < 16 ^ Z.of_nat (String.length s).
Proof.
  induction s as [|c s IH]; intros H.
  - cbn. lia.
  - cbn in H. apply andb_prop in H as [Hc Hs]. specialize (IH Hs).
    destruct (is_hex_digit c Hc) as [_ Hd].
    change (String c s) with (String c EmptyString ++ s).
    rewrite hex_value_app.
    change (hex_value (String c EmptyString)) with (0 * 16 + hex_digit c).
    cbn [String.length append]. rewrite Nat2Z.inj_succ, Z.pow_succ_r by lia.
    nia.
Qed.

Lemma drop_split (n : nat) (s : string) :
  exists p, s = p ++ Py.drop n s /\
            String.length p = Nat.min n (String.length s).
Proof.
  revert s. induction n as [|n IH]; intros s.
  - exists EmptyString. split; reflexivity.
  - destruct s as [|c s]; cbn.
    + exists EmptyString. split; reflexivity.
    + destruct (IH s) as [p [Hp Hl]]. exists (String c p). cbn.
      split; [now rewrite <- Hp|now rewrite Hl].
Qed.

Lemma length_app (p t : string) :
  String.length (p ++ t) = (String.length p + String.length t)%nat.
Proof. induction p as [|c p IH]; cbn; [reflexivity|now rewrite IH]. Qed.

Lemma all_hex_app (p t : string) :
  all_hex (p ++ t) = all_hex p && all_hex t.
Proof.
  induction p as [|c p IH]; cbn; [reflexivity|].
  now rewrite IH, andb_assoc.
Qed.

Lemma drop_app (pre s : string) (m : nat) :
  Py.drop (String.length pre + m) (pre ++ s) = Py.drop m s.
Proof. induction pre as [|c pre IH]; cbn; [reflexivity|exact IH]. Qed.

(** The last eight digits of a hexadecimal address, with or without a
    prefix such as "0x", are the low 32 bits of the integer it writes. *)
Lemma suffix_low32 (pre digits : string) :
  all_hex digits = true ->
  (8 <= String.length digits)%nat ->
  Py.int 16 (Py.suffix 8 (pre ++ digits)) = Some (hex_value digits mod 2 ^ 32).
Proof.
  intros H Hlen.
  assert (Hs : Py.suffix 8 (pre ++ digits)
               = Py.drop (String.length digits - 8) digits).
  { unfold Py.suffix. rewrite length_app.
    replace (String.length pre + String.length digits - 8)%nat
      with (String.length pre + (String.length digits - 8))%nat by lia.
    apply drop_app. }
  rewrite Hs.
  destruct (drop_split (String.length digits - 8) digits) as [p [Hp Hl]].
  set (t := Py.drop (String.length digits - 8) digits) in *.
  assert (Ht : String.length t = 8%nat).
  { apply (f_equal String.length) in Hp. rewrite length_app in Hp. lia. }
  rewrite Hp in H. rewrite all_hex_app in H. apply andb_prop in H as [_ Hhex].
  rewrite int_hex; [|exact Hhex|intros E; rewrite E in Ht; discriminate].
  f_equal. rewrite Hp at 1. rewrite hex_value_app, Ht.
  pose proof (hex_value_bound t Hhex) as Hb. rewrite Ht in Hb.
  change (16 ^ Z.of_nat 8) with (2 ^ 32) in *.
  rewrite Z.add_comm, Z.mod_add by lia. symmetry. apply Z.mod_small. exact Hb.
Qed.

(** ** Shard assignment *)

Lemma append_to_In (d : list (Z * list string)) (k : Z) (x : string)
  (key : Z) (queue : list string) :
  In (key, queue) (Dict.append_to Z.eqb d k x) ->
  In (key, queue) d \/
  (key = k /\
   (queue = [x] \/ exists q0, In (k, q0) d /\ queue = (q0 ++ [x])%list)).
Proof.
  induction d as [|[k0 l] d IH]; cbn.
  - intros [H|[]]. injection H as <- <-. right. split; [reflexivity|now left].
  - destruct (Z.eqb k k0) eqn:E; cbn.
    + apply Z.eqb_eq in E. subst k0. intros [H|H].
      * injection H as <- <-. right. split; [reflexivity|].
        right. exists l. split; [now left|reflexivity].
      * left. now right.
    + intros [H|H]; [left; now left|].
      apply IH in H as [H|[-> [->|[q0 [H ->]]]]].
      * left. now right.
      * right. split; [reflexivity|now left].
      * right. split; [reflexivity|]. right. exists q0. split; [now right|reflexivity].
Qed.

Lemma queues_ok_append_to (shardSize : Z) (d : list (Z * list string))
  (k : Z) (x : string) :
  queues_ok shardSize d -> shard_of shardSize x = Ok k ->
  queues_ok shardSize (Dict.append_to Z.eqb d k x).
Proof.
  intros Hd Hx key queue Hin addr Haddr.
  apply append_to_In in Hin as [Hin|[-> [->|[q0 [Hin ->]]]]].
  - exact (Hd _ _ Hin _ Haddr).
  - destruct Haddr as [<-|[]]. exact Hx.
  - apply in_app_iff in Haddr as [Haddr|[<-|[]]]; [|exact Hx].
    exact (Hd _ _ Hin _ Haddr).
Qed.

Lemma group_by_shard_ok (shardSize : Z) (addrs : list string)
  (b0 b : list (Z * list string)) :
  group_by_shard shardSize addrs b0 = Ok b ->
  queues_ok shardSize b0 -> NoDup (map fst b0) ->
  queues_ok shardSize b /\ NoDup (map fst b).
Proof.
  revert b0. induction addrs as [|addr addrs IH]; intros b0; cbn.
  - intros H. injection H as <-. auto.
  - destruct (shard_of shardSize addr) as [shard|e] eqn:E; [|discriminate].
    intros H Hok Hnd. apply (IH _ H).
    + now apply queues_ok_append_to.
    + now apply append_to_NoDup.
Qed.

Lemma queues_ok_nil (shardSize : Z) : queues_ok shardSize [].
Proof. intros key queue []. Qed.

(** C1: with a shard count that is a power of two, the shard that [fund]
    assigns to an address is the integer read from the last eight
    characters of the address string, masked with [shardSize - 1]; for
    an address that ends in at least eight hexadecimal digits (after
    "0x", say) this is the low 32 bits of the integer they write, masked;
    the shard lies in [0, shardSize); and the address is queued under
    this very shard, so the shard computed again at launch is the same. *)
Theorem shard_of_masks_low_bits (k : nat) (addr : string) (shard : Z) :
  shard_of (2 ^ Z.of_nat k) addr = Ok shard ->
  (exists n, Py.int 16 (Py.suffix 8 addr) = Some n /\
             shard = Z.land n (2 ^ Z.of_nat k - 1) /\
             shard = n mod 2 ^ Z.of_nat k) /\
  0 <= shard < 2 ^ Z.of_nat k /\
  (forall pre digits,
      addr = pre ++ digits -> all_hex digits = true ->
      (8 <= String.length digits)%nat ->
      shard = Z.land (hex_value digits mod 2 ^ 32) (2 ^ Z.of_nat k - 1)) /\
  (forall addrs byShard key queue,
      group_by_shard (2 ^ Z.of_nat k) addrs [] = Ok byShard ->
      In (key, queue) byShard -> In addr queue -> key = shard).
Proof.
  intros H. pose proof H as H0. unfold shard_of in H0.
  destruct (Py.int 16 (Py.suffix 8 addr)) as [n|] eqn:E; [|discriminate].
  injection H0 as <-.
  assert (Hmod : Z.land n (2 ^ Z.of_nat k - 1) = n mod 2 ^ Z.of_nat k).
  { rewrite <- Z.land_ones by lia. f_equal. rewrite Z.ones_equiv. lia. }
  split; [|split; [|split]].
  - exists n. auto.
  - rewrite Hmod. apply Z.mod_pos_bound. apply Z.pow_pos_nonneg; lia.
  - intros pre digits -> Hhex Hlen.
    rewrite (suffix_low32 pre _ Hhex Hlen) in E. injection E as <-.
    reflexivity.
  - intros addrs byShard key queue Hg Hin Haddr.
    destruct (group_by_shard_ok _ _ _ _ Hg (queues_ok_nil _) (NoDup_nil _))
      as [Hok _].
    specialize (Hok _ _ Hin _ Haddr). congruence.
Qed.

Lemma shard_of_masks_low_bits_witness :
  0 <= 2 < 2 ^ Z.of_nat 3.
Proof.
  exact (proj1 (proj2 (shard_of_masks_low_bits 3
    "0x3a1c9f00d2e4b6a8c0e2f4a6b8cadcee00000000abcdef12" 2 eq_refl))).
Defined.

(** ** The funding flow *)

Ltac run_step :=
  cbn [poll Endpoint.getTransactionReceipt Endpoint.sendTransaction
       Endpoint.sendRequest];
  unfold bind, ret, print, sleep, emit, client_request; cbn.

Section FundShardTrace.
Context {L : Library}.
Variables (endpoint : Endpoint.t) (tx : EvmTransaction) (txId : json)
          (shard : Z) (dest : Address).

Lemma poll_step_empty (fuel : nat) (cnt : Z) (empty : json)
  (rest : list rpc_outcome) (ent : list Z) (tr : list event) :
  truthy empty = false -> cnt + 1 <> 10 ->
  poll (S fuel) endpoint tx txId shard dest cnt
    (mkWorld (Returned empty :: rest) ent tr)
  = poll fuel endpoint tx txId shard dest (cnt + 1)
      (mkWorld rest ent (tr ++ one_poll endpoint txId shard dest empty)).
Proof.
  intros He Hc. run_step. rewrite He.
  destruct (Z.eqb_spec (cnt + 1) 10); [contradiction|].
  rewrite <- !app_assoc. reflexivity.
Qed.

Lemma poll_step_retry (fuel : nat) (cnt : Z) (empty x : json)
  (rest : list rpc_outcome) (ent : list Z) (tr : list event) :
  truthy empty = false -> cnt + 1 = 10 ->
  poll (S fuel) endpoint tx txId shard dest cnt
    (mkWorld (Returned empty :: Returned x :: rest) ent tr)
  = poll fuel endpoint tx txId shard dest 0
      (mkWorld rest ent
         (tr ++ one_poll endpoint txId shard dest empty
             ++ [EPrint (MsgRetry txId); submission endpoint tx x])).
Proof.
  intros He Hc. run_step. rewrite He, Hc. cbn.
  rewrite <- !app_assoc. reflexivity.
Qed.

Lemma poll_step_receipt (fuel : nat) (cnt : Z) (receipt : json)
  (rest : list rpc_outcome) (ent : list Z) (tr : list event) :
  truthy receipt = true ->
  poll (S fuel) endpoint tx txId shard dest cnt
    (mkWorld (Returned receipt :: rest) ent tr)
  = (Done receipt,
     mkWorld rest ent (tr ++ one_poll endpoint txId shard dest receipt)).
Proof.
  intros He. run_step. rewrite He. rewrite <- !app_assoc. reflexivity.
Qed.
End FundShardTrace.

Section FundShardRun.
Context {L : Library}.
Variables (endpoint : Endpoint.t) (tx : EvmTransaction) (txId : json)
          (shard : Z) (dest : Address) (empty : json).
Hypothesis empty_falsy : truthy empty = false.

Lemma poll_empties (m : nat) (fuel : nat) (cnt : Z)
  (rest : list rpc_outcome) (ent : list Z) (tr : list event) :
  0 <= cnt -> cnt + Z.of_nat m <= 9 ->
  poll (m + fuel) endpoint tx txId shard dest cnt
    (mkWorld (repeat (Returned empty) m ++ rest) ent tr)
  = poll fuel endpoint tx txId shard dest (cnt + Z.of_nat m)
      (mkWorld rest ent
         (tr ++ List.concat (repeat (one_poll endpoint txId shard dest empty) m))).
Proof.
  revert cnt tr. induction m as [|m IH]; intros cnt tr H0 H9.
  - cbn [repeat List.concat app Nat.add]. rewrite app_nil_r.
    f_equal. cbn. lia.
  - cbn [repeat app Nat.add List.concat].
    rewrite poll_step_empty by (auto; lia).
    rewrite IH by lia. rewrite <- app_assoc. f_equal. lia.
Qed.

Lemma poll_retry_block (fuel : nat) (x : json)
  (rest : list rpc_outcome) (ent : list Z) (tr : list event) :
  poll (10 + fuel) endpoint tx txId shard dest 0
    (mkWorld (repeat (Returned empty) 10 ++ Returned x :: rest) ent tr)
  = poll fuel endpoint tx txId shard dest 0
      (mkWorld rest ent (tr ++ retry_block endpoint tx txId shard dest empty x)).
Proof.
  change (repeat (Returned empty) 10)
    with (repeat (Returned empty) 9 ++ [Returned empty])%list.
  rewrite <- app_assoc. cbn [app].
  change (10 + fuel)%nat with (9 + S fuel)%nat.
  rewrite poll_empties by lia.
  rewrite poll_step_retry by (auto; lia).
  unfold retry_block.
  change (repeat (one_poll endpoint txId shard dest empty) 10)
    with (repeat (one_poll endpoint txId shard dest empty) 9
            ++ [one_poll endpoint txId shard dest empty])%list.
  rewrite concat_app. cbn [List.concat]. rewrite app_nil_r.
  rewrite <- !app_assoc. reflexivity.
Qed.

Lemma poll_run (xs : list json) (k extra : nat) (receipt : json)
  (rest : list rpc_outcome) (ent : list Z) (tr : list event) :
  truthy receipt = true -> (k < 10)%nat ->
  poll (10 * List.length xs + k + 1 + extra) endpoint tx txId shard dest 0
    (mkWorld (poll_script empty xs k receipt ++ rest) ent tr)
  = (Done receipt,
     mkWorld rest ent
       (tr ++ poll_trace endpoint tx txId shard dest empty xs k receipt)).
Proof.
  intros Hr Hk. unfold poll_script, poll_trace.
  rewrite <- !app_assoc. cbn [app]. revert tr.
  induction xs as [|x xs IH]; intros tr.
  - cbn [flat_map app List.length Nat.mul Nat.add].
    replace (k + 1 + extra)%nat with (k + S extra)%nat by lia.
    rewrite poll_empties by lia.
    rewrite poll_step_receipt by exact Hr.
    rewrite <- app_assoc. reflexivity.
  - cbn [flat_map List.length].
    replace (10 * S (List.length xs) + k + 1 + extra)%nat
      with (10 + (10 * List.length xs + k + 1 + extra))%nat by lia.
    rewrite <- !app_assoc. cbn [app].
    rewrite poll_retry_block, IH.
    rewrite <- !app_assoc. reflexivity.
Qed.
End FundShardRun.

Section FundShardWhole.
Context {L : Library}.

Lemma sendRequest_returned (fuel : nat) (self : Endpoint.t) (args : request)
  (resp : json) (rest : list rpc_outcome) (ent : list Z) (tr : list event) :
  fuel <> O ->
  Endpoint.sendRequest fuel self args (mkWorld (Returned resp :: rest) ent tr)
  = (Done resp,
     mkWorld rest ent (tr ++ [ERequest (Endpoint.url self) args (Returned resp)])).
Proof. destruct fuel; [contradiction|]. reflexivity. Qed.

Lemma getNonce_returned (fuel : nat) (self : Endpoint.t) (account : Address)
  (resp : json) (n : Z) (rest : list rpc_outcome) (ent : list Z)
  (tr : list event) :
  fuel <> O -> int16 resp = Ok n ->
  Endpoint.getNonce fuel self account (mkWorld (Returned resp :: rest) ent tr)
  = (Done n,
     mkWorld rest ent
       (tr ++ [ERequest (Endpoint.url self)
                 (GetTransactionCount ("0x" ++ serialize_hex account))
                 (Returned resp)])).
Proof.
  intros Hf Hn. unfold Endpoint.getNonce, bind.
  rewrite sendRequest_returned by exact Hf. rewrite Hn. reflexivity.
Qed.

Lemma sendTransaction_returned (fuel : nat) (self : Endpoint.t)
  (tx : EvmTransaction) (resp : json) (rest : list rpc_outcome)
  (ent : list Z) (tr : list event) :
  fuel <> O ->
  Endpoint.sendTransaction fuel self tx (mkWorld (Returned resp :: rest) ent tr)
  = (Done resp, mkWorld rest ent (tr ++ [submission self tx resp])).
Proof.
  intros Hf. unfold Endpoint.sendTransaction, bind.
  rewrite sendRequest_returned by exact Hf. reflexivity.
Qed.

End FundShardWhole.



(** ** What a computation adds to the trace *)

Section Emits.
Variable P : event -> Prop.

Lemma emits_ret {A : Type} (a : A) : emits P (ret a).
Proof. intros w. exists []. rewrite app_nil_r. split; [reflexivity|constructor]. Qed.

Lemma emits_raise {A : Type} (e : exn) : emits P (@raise A e).
Proof. intros w. exists []. rewrite app_nil_r. split; [reflexivity|constructor]. Qed.

Lemma emits_pending {A : Type} : emits P (@pending A).
Proof. intros w. exists []. rewrite app_nil_r. split; [reflexivity|constructor]. Qed.

Lemma emits_lift {A : Type} (x : result A) : emits P (lift x).
Proof. destruct x; [apply emits_ret|apply emits_raise]. Qed.

Lemma emits_emit (e : event) : P e -> emits P (emit e).
Proof.
  intros He w. exists [e]. split; [reflexivity|]. constructor; [exact He|constructor].
Qed.

Lemma emits_bind {A B : Type} (m : M A) (k : A -> M B) :
  emits P m -> (forall a, emits P (k a)) -> emits P (bind m k).
Proof.
  intros Hm Hk w. unfold bind.
  destruct (Hm w) as [t1 [E1 F1]].
  destruct (m w) as [[a| |] w1]; cbn in E1.
  - destruct (Hk a w1) as [t2 [E2 F2]]. exists (t1 ++ t2)%list.
    rewrite E2, E1, app_assoc. split; [reflexivity|].
    apply Forall_app. now split.
  - exists t1. now split.
  - exists t1. now split.
Qed.

Lemma emits_randint (a b : Z) : emits P (randint a b).
Proof.
  intros w. unfold randint. exists []. rewrite app_nil_r.
  destruct (entropy w); (split; [reflexivity|constructor]).
Qed.

Lemma emits_client_request (url : string) (args : request) :
  (forall o, P (ERequest url args o)) -> emits P (client_request url args).
Proof.
  intros H w. unfold client_request. destruct (script w) as [|o rest].
  - exists []. rewrite app_nil_r. split; [reflexivity|constructor].
  - exists [ERequest url args o]. split; [reflexivity|].
    constructor; [apply H|constructor].
Qed.

Lemma emits_sendRequest (fuel : nat) (self : Endpoint.t) (args : request) :
  (forall o, P (ERequest (Endpoint.url self) args o)) ->
  (forall e, P (EPrint (MsgTimeout (Endpoint.url self) e))) ->
  (forall d, P (ESleep d)) ->
  emits P (Endpoint.sendRequest fuel self args).
Proof.
  intros Hreq Hmsg Hsleep. induction fuel as [|fuel IH]; cbn.
  - apply emits_pending.
  - apply emits_bind; [now apply emits_client_request|].
    intros [resp|e]; [apply emits_ret|].
    destruct (is_Exception e); [|apply emits_raise].
    apply emits_bind; [apply emits_emit, Hmsg|intros _].
    apply emits_bind; [apply emits_randint|intros d].
    apply emits_bind; [apply emits_emit, Hsleep|intros _]. exact IH.
Qed.
End Emits.

Lemma emits_run {A : Type} (P : event -> Prop) (m : M A) (w w' : world)
  (o : outcome A) :
  emits P m -> m w = (o, w') ->
  exists t, trace w' = (trace w ++ t)%list /\ Forall P t.
Proof. intros H E. specialize (H w). rewrite E in H. exact H. Qed.

(** A request that returns leaves the failed attempts, none of them
    answered, and then the answered request. *)
Lemma sendRequest_done (fuel : nat) (self : Endpoint.t) (args : request)
  (w w' : world) (resp : json) :
  Endpoint.sendRequest fuel self args w = (Done resp, w') ->
  exists pre,
    trace w' = (trace w ++ pre
                  ++ [ERequest (Endpoint.url self) args (Returned resp)])%list /\
    Forall (fun e => ~ is_answered_submission e) pre /\
    Forall (fun e => forall u a o, e = ERequest u a o -> a = args) pre.
Proof.
  revert w. induction fuel as [|fuel IH]; intros w; [discriminate|].
  destruct w as [[|[r|e] rest] ent tr]; [discriminate| |].
  - cbn. intros H. injection H as <- <-. exists []. cbn.
    split; [reflexivity|]. split; constructor.
  - destruct (is_Exception e) eqn:He;
      [|cbn; unfold bind; cbn; rewrite He; discriminate].
    destruct ent as [|z ent];
      [cbn; unfold bind; cbn; rewrite He; discriminate|].
    rewrite sendRequest_step_raised by exact He.
    intros H. apply IH in H as [pre [E [F1 F2]]]. cbn [trace] in *.
    exists (retry_events self args e z ++ pre)%list.
    split; [rewrite E, <- !app_assoc; reflexivity|].
    split.
    + repeat constructor; try exact F1;
        intros (u & h & x & Hx); discriminate.
    + repeat constructor; try exact F2; intros u a o Hx; try discriminate.
      now injection Hx as _ <- _.
Qed.

Section FundShardIds.
Context {L : Library}.
Variables (endpoint : Endpoint.t) (tx : EvmTransaction) (txId : json)
          (shard : Z) (dest : Address).

Lemma polls_only_other (e : event) :
  (forall u id o, e <> ERequest u (GetTransactionReceipt id) o) ->
  polls_only txId e.
Proof. intros H u id o E. now destruct (H u id o). Qed.

Lemma emits_getTransactionReceipt (fuel : nat) :
  emits (polls_only txId) (Endpoint.getTransactionReceipt fuel endpoint txId).
Proof.
  unfold Endpoint.getTransactionReceipt.
  apply emits_bind; [|intros; apply emits_ret].
  apply emits_sendRequest.
  - intros o u id o' E. now injection E as _ <- _.
  - intros e. apply polls_only_other. discriminate.
  - intros d. apply polls_only_other. discriminate.
Qed.

Lemma emits_sendTransaction (fuel : nat) :
  emits (polls_only txId) (Endpoint.sendTransaction fuel endpoint tx).
Proof.
  unfold Endpoint.sendTransaction.
  apply emits_bind; [|intros; apply emits_ret].
  apply emits_sendRequest; intros; apply polls_only_other; discriminate.
Qed.

Lemma emits_poll (fuel : nat) (cnt : Z) :
  emits (polls_only txId) (poll fuel endpoint tx txId shard dest cnt).
Proof.
  revert cnt. induction fuel as [|fuel IH]; intros cnt.
  - apply emits_pending.
  - cbn [poll].
    apply emits_bind;
      [apply emits_emit, polls_only_other; discriminate|intros _].
    apply emits_bind;
      [apply emits_emit, polls_only_other; discriminate|intros _].
    apply emits_bind; [apply emits_getTransactionReceipt|intros resp].
    destruct (truthy resp); [apply emits_ret|].
    destruct (cnt + 1 =? 10); [|apply IH].
    apply emits_bind;
      [apply emits_emit, polls_only_other; discriminate|intros _].
    apply emits_bind; [apply emits_sendTransaction|intros _]. apply IH.
Qed.
End FundShardIds.

Lemma emits_getNonce {L : Library} (fuel : nat) (endpoint : Endpoint.t)
  (account : Address) (txId : json) :
  emits (fun e => polls_only txId e /\ ~ is_answered_submission e)
        (Endpoint.getNonce fuel endpoint account).
Proof.
  unfold Endpoint.getNonce.
  apply emits_bind; [|intros; apply emits_lift].
  apply emits_sendRequest; intros; (split;
    [apply polls_only_other; discriminate
    |intros (u & h & x & Hx); discriminate]).
Qed.

(** C9: when a funding flow returns, the transaction id it returns is the
    answer to the first submission that the node answered; every receipt
    request of the flow, before and after any resubmission, asks for that
    id, whatever the node answered to the resubmissions. *)
Theorem fund_shard_keeps_first_transaction_id {L : Library}
  (fuel : nat) (endpoint : Endpoint.t) (genesisId : Identity) (dest : Address)
  (net shard amount : Z) (w w' : world) (txId : json) (height : Z) :
  fund_shard fuel endpoint genesisId dest net shard amount w
  = (Done (txId, height), w') ->
  exists pre txHex post,
    trace w'
    = (trace w ++ pre
         ++ ERequest (Endpoint.url endpoint) (SendRawTransaction txHex)
              (Returned txId) :: post)%list /\
    Forall (fun e => ~ is_answered_submission e) pre /\
    Forall (polls_only txId) (pre ++ post).
Proof.
  unfold fund_shard. unfold bind at 1.
  destruct (Endpoint.getNonce _ _ _ w) as [[n| |] w1] eqn:E1; try discriminate.
  destruct (emits_run _ _ _ _ _ (emits_getNonce fuel endpoint _ txId) E1)
    as [t1 [T1 F1]].
  unfold bind at 1.
  destruct (create_transaction _ _ n dest net amount) as [tx|e];
    [|discriminate].
  cbn [lift ret]. unfold bind at 1.
  destruct (Endpoint.sendTransaction fuel endpoint tx w1) as [[id| |] w2] eqn:E2;
    try discriminate.
  unfold bind at 1.
  destruct (poll fuel endpoint tx id shard dest 0 w2) as [[resp| |] w3] eqn:E3;
    try discriminate.
  destruct (emits_run _ _ _ _ _ (emits_poll endpoint tx id shard dest fuel 0) E3)
    as [t3 [T3 F3]].
  unfold bind, print, emit.
  destruct (subscript resp "blockHeight") as [bh|]; [|discriminate].
  cbn [lift ret]. destruct (int16 bh) as [h|]; [|discriminate].
  cbn [lift ret]. destruct (subscript resp "status") as [st|]; [|discriminate].
  cbn [lift ret]. destruct (int16 st) as [status|]; [|discriminate].
  cbn. intros H. injection H as -> -> <-.
  unfold Endpoint.sendTransaction, bind in E2.
  destruct (Endpoint.sendRequest fuel endpoint _ w1) as [[id'| |] w2'] eqn:E2';
    try discriminate.
  injection E2 as -> ->.
  apply sendRequest_done in E2' as [pre [T2 [F2 G2]]].
  exists (t1 ++ pre)%list, ("0x" ++ rlp_hex tx),
         (t3 ++ [EPrint (MsgFunded shard txId height status amount)])%list.
  cbn [trace]. split; [|split].
  - rewrite T3, T2, T1, <- !app_assoc. reflexivity.
  - apply Forall_app. split; [|exact F2].
    eapply Forall_impl; [|exact F1]. now intros e [_ He].
  - rewrite !Forall_app. repeat split.
    + eapply Forall_impl; [|exact F1]. now intros e [He _].
    + eapply Forall_impl; [|exact G2]. intros e He u i o Hx.
      specialize (He _ _ _ Hx). discriminate.
    + exact F3.
    + constructor; [|constructor]. apply polls_only_other. discriminate.
Qed.

Lemma fund_shard_keeps_first_transaction_id_witness :
  let w := mkWorld [Returned (JStr "0x4"); Raised TransportError;
                    Returned (JStr "0xid");
                    Returned JNull; Returned JNull; Returned JNull;
                    Returned JNull; Returned JNull; Returned JNull;
                    Returned JNull; Returned JNull; Returned JNull;
                    Returned JNull; Returned (JStr "0xother");
                    Returned (JDict [("blockHeight", JStr "0x10");
                                     ("status", JStr "0x1")])]
                   [3] [] in
  let run := fund_shard (L := demo_library) 12 demo_endpoint demo_genesis
               (mkAddress [] 7) 3 7 5 w in
  fst run = Done (JStr "0xid", 16) /\
  exists pre txHex post,
    trace (snd run)
    = (trace w ++ pre
         ++ ERequest (Endpoint.url demo_endpoint) (SendRawTransaction txHex)
              (Returned (JStr "0xid")) :: post)%list /\
    Forall (fun e => ~ is_answered_submission e) pre /\
    Forall (polls_only (JStr "0xid")) (pre ++ post).
Proof.
  intros w run. split; [vm_compute; reflexivity|].
  apply (fund_shard_keeps_first_transaction_id (L := demo_library) 12
           demo_endpoint demo_genesis (mkAddress [] 7) 3 7 5 w (snd run)
           (JStr "0xid") 16).
  vm_compute. reflexivity.
Defined.

(** ** Rounds *)

Lemma in_all_addresses (d : list (Z * list string)) (a : string) :
  In a (all_addresses d) <-> exists key queue, In (key, queue) d /\ In a queue.
Proof.
  unfold all_addresses. rewrite in_concat. split.
  - intros [q [Hq Ha]]. apply in_map_iff in Hq as [[key queue] [<- Hin]].
    exists key, queue. now split.
  - intros (key & queue & Hin & Ha). exists queue. split; [|exact Ha].
    apply in_map_iff. exists (key, queue). now split.
Qed.

Lemma pop_round_popped (shardSize : Z) (byShard byShard' : list (Z * list string))
  (toFund : list string) :
  queues_ok shardSize byShard ->
  pop_round byShard = (toFund, byShard') ->
  forall addr, In addr toFund -> exists shard, shard_of shardSize addr = Ok shard.
Proof.
  intros Hok Hpop addr Hin. apply pop_round_perm in Hpop.
  assert (Hall : In addr (all_addresses byShard)).
  { apply (Permutation_in _ (Permutation_sym Hpop)).
    apply in_app_iff. now left. }
  apply in_all_addresses in Hall as (key & queue & Hq & Ha).
  exists key. exact (Hok _ _ Hq _ Ha).
Qed.

Section MakeFutures.
Context {L : Library}.
Variables (net shardSize amount : Z).

Lemma make_futures_spec (toFund : list string) (futures : list flow)
  (w : world) :
  (forall addr, In addr toFund ->
                exists shard, shard_of shardSize addr = Ok shard) ->
  make_futures net shardSize amount toFund futures w
  = (Done (futures ++ valid_flows net shardSize amount toFund)%list,
     mkWorld (script w) (entropy w) (trace w ++ prep_events toFund)).
Proof.
  revert futures w. induction toFund as [|addr rest IH]; intros futures w H.
  - cbn. rewrite !app_nil_r. now destruct w.
  - destruct (H addr (or_introl eq_refl)) as [shard Hs].
    cbn [make_futures valid_flows prep_events flat_map map].
    unfold bind at 1. rewrite Hs. cbn [lift ret].
    destruct (createFrom (Py.drop 2 addr)) as [dest|e].
    + unfold bind at 1. cbn [sleep emit].
      rewrite IH by (intros a Ha; apply H; now right).
      cbn [script entropy trace]. rewrite <- !app_assoc. reflexivity.
    + unfold bind at 1. cbn [print emit].
      rewrite IH by (intros a Ha; apply H; now right).
      cbn [script entropy trace]. rewrite <- !app_assoc. reflexivity.
Qed.

Lemma valid_flows_app (l1 l2 : list string) :
  valid_flows net shardSize amount (l1 ++ l2)
  = (valid_flows net shardSize amount l1
       ++ valid_flows net shardSize amount l2)%list.
Proof. apply flat_map_app. Qed.
End MakeFutures.

Lemma collect_length {A : Type} (os : list (outcome A)) (l : list A) :
  collect os = Done l -> List.length l = List.length os.
Proof.
  revert l. induction os as [|o os IH]; intros l; cbn.
  - intros H. now injection H as <-.
  - destruct o as [a|e|]; destruct (collect os) as [l0|e0|]; try discriminate.
    intros H. injection H as <-. cbn. now rewrite (IH l0).
Qed.

Lemma emit_all_run (es : list event) (w : world) :
  emit_all es w = (Done tt, mkWorld (script w) (entropy w) (trace w ++ es)).
Proof.
  revert w. induction es as [|e es IH]; intros w; cbn.
  - rewrite app_nil_r. now destruct w.
  - unfold bind. cbn. rewrite IH. cbn. now rewrite <- app_assoc.
Qed.

Section Gather.
Context {L : Library}.
Variables (fuel : nat) (endpoint : Endpoint.t) (genesisId : Identity)
          (flow_world : flow -> world).

Lemma gather_run (futures : list flow) (w : world) :
  gather fuel endpoint genesisId flow_world futures w
  = match collect (map (run_flow fuel endpoint genesisId flow_world) futures) with
    | Done results =>
        (Done results,
         mkWorld (script w) (entropy w)
           (trace w ++ map ELaunch futures ++ map EDone futures))
    | Raise e =>
        (Raise e,
         mkWorld (script w) (entropy w) (trace w ++ map ELaunch futures))
    | Pending =>
        (Pending,
         mkWorld (script w) (entropy w) (trace w ++ map ELaunch futures))
    end.
Proof.
  unfold gather, bind. rewrite emit_all_run.
  destruct (collect _) as [results|e|]; try reflexivity.
  rewrite emit_all_run. cbn. now rewrite <- app_assoc.
Qed.
End Gather.

(** C7: an address of a batch that fails [Address.createFrom] is
    reported and left out: no exception escapes, the flows built are those
    of the other addresses of the batch, unchanged and in order, the
    results of the batch are one per flow built, and the address, popped
    from its queue, is in no queue of the rounds that follow. *)
Theorem make_futures_drops_invalid_address {L : Library}
  (net shardSize amount : Z) (byShard byShard' : list (Z * list string))
  (toFund : list string) (w : world) :
  queues_ok shardSize byShard ->
  pop_round byShard = (toFund, byShard') ->
  make_futures net shardSize amount toFund [] w
  = (Done (valid_flows net shardSize amount toFund),
     mkWorld (script w) (entropy w) (trace w ++ prep_events toFund)) /\
  (forall l1 bad l2,
      toFund = (l1 ++ bad :: l2)%list ->
      (forall dest, createFrom (Py.drop 2 bad) <> Ok dest) ->
      valid_flows net shardSize amount toFund
      = valid_flows net shardSize amount (l1 ++ l2) /\
      prep_events toFund
      = (prep_events l1 ++ EPrint (MsgInvalid bad) :: prep_events l2)%list /\
      (NoDup (all_addresses byShard) -> ~ In bad (all_addresses byShard'))) /\
  (forall fuel endpoint genesisId flow_world w1 results w2,
      gather fuel endpoint genesisId flow_world
        (valid_flows net shardSize amount toFund) w1 = (Done results, w2) ->
      List.length results
      = List.length (valid_flows net shardSize amount toFund) /\
      trace w2 = (trace w1
                    ++ map ELaunch (valid_flows net shardSize amount toFund)
                    ++ map EDone (valid_flows net shardSize amount toFund))%list).
Proof.
  intros Hok Hpop. split; [|split].
  - rewrite make_futures_spec; [reflexivity|].
    exact (pop_round_popped _ _ _ _ Hok Hpop).
  - intros l1 bad l2 -> Hbad. split; [|split].
    + rewrite !valid_flows_app. f_equal.
      unfold valid_flows. cbn [flat_map].
      destruct (shard_of shardSize bad); [|reflexivity].
      destruct (createFrom (Py.drop 2 bad)) as [dest|e]; [|reflexivity].
      now destruct (Hbad dest).
    + unfold prep_events. rewrite map_app. cbn [map].
      destruct (createFrom (Py.drop 2 bad)) as [dest|e]; [|reflexivity].
      now destruct (Hbad dest).
    + intros Hnd Hin. apply pop_round_perm in Hpop.
      apply (Permutation_NoDup Hpop) in Hnd.
      rewrite <- app_assoc in Hnd. apply NoDup_remove_2 in Hnd.
      apply Hnd. rewrite app_assoc. apply in_app_iff. now right.
  - intros fuel endpoint genesisId flow_world w1 results w2.
    rewrite gather_run.
    destruct (collect _) as [rs|e|] eqn:E; try discriminate.
    intros H. injection H as <- <-. split; [|reflexivity].
    apply collect_length in E. now rewrite E, length_map.
Qed.

Lemma make_futures_drops_invalid_address_witness :
  let good := "0x00000000000000000000000000000000000000aa00000004" in
  let bad := "0x00000001" in
  make_futures (L := demo_library) 3 4 5 [good; bad] []
    (mkWorld [] [] [])
  = (Done (valid_flows (L := demo_library) 3 4 5 [good; bad]),
     mkWorld [] []
       ([] ++ prep_events (L := demo_library) [good; bad])).
Proof.
  intros good bad.
  refine (proj1 (make_futures_drops_invalid_address (L := demo_library) 3 4 5
                   [(0, [good]); (1, [bad])] [(0, []); (1, [])] [good; bad]
                   (mkWorld [] [] []) _ eq_refl)).
  intros key queue [H|[H|[]]] addr Hin; injection H as <- <-;
    destruct Hin as [<-|[]]; reflexivity.
Defined.

(** ** Flows in flight *)

Lemma in_flight_app (t1 t2 : list event) (cur : list Z) :
  in_flight (t1 ++ t2) cur = in_flight t2 (in_flight t1 cur).
Proof.
  revert cur. induction t1 as [|e t1 IH]; intros cur; cbn; [reflexivity|].
  apply IH.
Qed.

Lemma distinct_throughout_NoDup (cur : list Z) (t : list event) :
  distinct_throughout cur t -> NoDup cur.
Proof. destruct t; cbn; tauto. Qed.

Lemma distinct_throughout_app (t1 t2 : list event) (cur : list Z) :
  distinct_throughout cur (t1 ++ t2) <->
  distinct_throughout cur t1 /\ distinct_throughout (in_flight t1 cur) t2.
Proof.
  revert cur. induction t1 as [|e t1 IH]; intros cur; cbn.
  - pose proof (distinct_throughout_NoDup cur t2). tauto.
  - rewrite IH. tauto.
Qed.

(** [distinct_throughout] says that after every prefix of the trace the
    shards in flight are pairwise distinct. *)
Lemma distinct_throughout_prefixes (t : list event) (cur : list Z) :
  distinct_throughout cur t <->
  forall p s, t = (p ++ s)%list -> NoDup (in_flight p cur).
Proof.
  revert cur. induction t as [|e t IH]; intros cur; cbn.
  - split.
    + intros [H _] p s E. symmetry in E. apply app_eq_nil in E as [-> _].
      exact H.
    + intros H. split; [exact (H [] [] eq_refl)|exact I].
  - rewrite IH. split.
    + intros [H0 H] [|e' p] s E; cbn; [exact H0|].
      injection E as <- E. now apply (H p s).
    + intros H. split; [exact (H [] (e :: t) eq_refl)|].
      intros p s E. apply (H (e :: p) s). cbn. now rewrite E.
Qed.

Lemma quiet_in_flight (t : list event) (cur : list Z) :
  Forall is_quiet t -> in_flight t cur = cur.
Proof.
  induction 1 as [|e t He _ IH]; cbn; [reflexivity|].
  destruct e; cbn in *; try contradiction; exact IH.
Qed.

Lemma quiet_distinct (t : list event) (cur : list Z) :
  Forall is_quiet t -> NoDup cur -> distinct_throughout cur t.
Proof.
  induction 1 as [|e t He _ IH]; cbn; intros Hnd; [tauto|].
  split; [exact Hnd|].
  destruct e; cbn in *; try contradiction; exact (IH Hnd).
Qed.

Lemma launches_in_flight (fs : list flow) (cur : list Z) :
  in_flight (map ELaunch fs) cur = (rev (map flow_shard fs) ++ cur)%list.
Proof.
  revert cur. induction fs as [|f fs IH]; intros cur; cbn; [reflexivity|].
  rewrite IH, <- app_assoc. reflexivity.
Qed.

Lemma launches_distinct (fs : list flow) (cur : list Z) :
  NoDup (rev (map flow_shard fs) ++ cur) ->
  distinct_throughout cur (map ELaunch fs).
Proof.
  revert cur. induction fs as [|f fs IH]; intros cur; cbn.
  - tauto.
  - rewrite <- app_assoc. cbn. intros H. split.
    + apply NoDup_app_remove_l in H. now apply NoDup_cons_iff in H.
    + apply IH. exact H.
Qed.

Lemma remove_one_incl (k : Z) (l : list Z) : incl (remove_one k l) l.
Proof.
  induction l as [|k' l IH]; cbn; [easy|].
  destruct (Z.eqb k k'); [apply incl_tl, incl_refl|].
  intros x [<-|H]; [now left|right; now apply IH].
Qed.

Lemma remove_one_NoDup (k : Z) (l : list Z) :
  NoDup l -> NoDup (remove_one k l).
Proof.
  induction 1 as [|k' l Hn Hd IH]; cbn; [constructor|].
  destruct (Z.eqb k k'); [exact Hd|].
  constructor; [|exact IH]. intros H. apply Hn. now apply (remove_one_incl k).
Qed.

Lemma remove_one_perm (k : Z) (l : list Z) :
  In k l -> Permutation l (k :: remove_one k l).
Proof.
  induction l as [|k' l IH]; cbn; [intros []|].
  destruct (Z.eqb_spec k k') as [->|Hne]; [reflexivity|].
  intros [H|H]; [congruence|]. rewrite perm_swap. apply perm_skip, IH, H.
Qed.

Lemma dones_distinct (fs : list flow) (cur : list Z) :
  NoDup cur -> distinct_throughout cur (map EDone fs).
Proof.
  revert cur. induction fs as [|f fs IH]; intros cur H; cbn; [tauto|].
  split; [exact H|]. apply IH, remove_one_NoDup, H.
Qed.

Lemma dones_in_flight (fs : list flow) (cur : list Z) :
  Permutation cur (map flow_shard fs) -> in_flight (map EDone fs) cur = [].
Proof.
  revert cur. induction fs as [|f fs IH]; intros cur H; cbn.
  - cbn in H. apply Permutation_sym, Permutation_nil in H. exact H.
  - apply IH. apply Permutation_cons_inv with (a := flow_shard f).
    rewrite <- H. symmetry. apply remove_one_perm.
    apply (Permutation_in _ (Permutation_sym H)). now left.
Qed.

Lemma calm_bind {A B : Type} (m : M A) (k : A -> M B)
  (Q : A -> Prop) (R : B -> Prop) :
  calm m Q -> (forall a, Q a -> calm (k a) R) -> calm (bind m k) R.
Proof.
  intros Hm Hk w. unfold bind.
  destruct (Hm w) as [t1 [E1 [S1 D1]]].
  destruct (m w) as [[a| |] w1]; cbn in E1, D1.
  - destruct (D1 a eq_refl) as [I1 Qa].
    destruct (Hk a Qa w1) as [t2 [E2 [S2 D2]]].
    exists (t1 ++ t2)%list. split; [now rewrite E2, E1, app_assoc|]. split.
    + apply distinct_throughout_app. split; [exact S1|now rewrite I1].
    + intros b Hb. destruct (D2 b Hb) as [I2 Rb].
      split; [now rewrite in_flight_app, I1|exact Rb].
  - exists t1. cbn. repeat split; try assumption; discriminate.
  - exists t1. cbn. repeat split; try assumption; discriminate.
Qed.

Lemma calm_of_emits {A : Type} (m : M A) (Q : A -> Prop) :
  emits is_quiet m -> (forall w a, fst (m w) = Done a -> Q a) -> calm m Q.
Proof.
  intros Hm HQ w. destruct (Hm w) as [t [E F]]. exists t.
  split; [exact E|]. split; [apply quiet_distinct; [exact F|constructor]|].
  intros a Ha. split; [now apply quiet_in_flight|exact (HQ w a Ha)].
Qed.

Lemma calm_quiet {A : Type} (m : M A) :
  emits is_quiet m -> calm m (fun _ => True).
Proof. intros H. apply calm_of_emits; [exact H|trivial]. Qed.

Section CalmRounds.
Context {L : Library}.
Variables (fuel : nat) (endpoint : Endpoint.t) (genesisId : Identity)
          (flow_world : flow -> world).

Lemma calm_gather (futures : list flow) :
  NoDup (map flow_shard futures) ->
  calm (gather fuel endpoint genesisId flow_world futures) (fun _ => True).
Proof.
  intros Hnd w. rewrite gather_run.
  assert (HL : distinct_throughout [] (map ELaunch futures)).
  { apply launches_distinct. rewrite app_nil_r.
    apply (Permutation_NoDup (Permutation_rev _)), Hnd. }
  destruct (collect _) as [results|e|]; cbn [fst snd trace].
  - exists (map ELaunch futures ++ map EDone futures)%list.
    split; [reflexivity|]. split.
    + apply distinct_throughout_app. split; [exact HL|].
      apply dones_distinct. rewrite launches_in_flight, app_nil_r.
      apply (Permutation_NoDup (Permutation_rev _)), Hnd.
    + intros a _. split; [|exact I].
      rewrite in_flight_app, launches_in_flight, app_nil_r.
      apply dones_in_flight. symmetry. apply Permutation_rev.
  - exists (map ELaunch futures). repeat split; try assumption; discriminate.
  - exists (map ELaunch futures). repeat split; try assumption; discriminate.
Qed.

Variables (net shardSize amount : Z).

Lemma emits_make_futures (toFund : list string) (futures : list flow) :
  emits is_quiet (make_futures net shardSize amount toFund futures).
Proof.
  revert futures. induction toFund as [|addr rest IH]; intros futures.
  - apply emits_ret.
  - cbn [make_futures]. apply emits_bind; [apply emits_lift|intros shard].
    destruct (createFrom (Py.drop 2 addr)) as [dest|e].
    + apply emits_bind; [now apply emits_emit|intros _]. apply IH.
    + apply emits_bind; [now apply emits_emit|intros _]. apply IH.
Qed.

Lemma make_futures_done (toFund : list string) (futures fs : list flow)
  (w : world) :
  fst (make_futures net shardSize amount toFund futures w) = Done fs ->
  fs = (futures ++ valid_flows net shardSize amount toFund)%list.
Proof.
  revert futures w. induction toFund as [|addr rest IH]; intros futures w.
  - cbn. intros H. injection H as <-. now rewrite app_nil_r.
  - cbn [make_futures]. unfold valid_flows. cbn [flat_map].
    fold (valid_flows net shardSize amount rest).
    unfold bind at 1.
    destruct (shard_of shardSize addr) as [shard|e]; [|discriminate].
    cbn [lift ret].
    destruct (createFrom (Py.drop 2 addr)) as [dest|e].
    + unfold bind at 1. cbn [sleep emit]. intros H. apply IH in H.
      rewrite H, <- app_assoc. reflexivity.
    + unfold bind at 1. cbn [print emit]. intros H. apply IH in H.
      exact H.
Qed.

Lemma emits_print_results (results : list (json * Z)) (idx : nat) :
  emits is_quiet (print_results idx results).
Proof.
  revert idx. induction results as [|[txId height] rest IH]; intros idx.
  - apply emits_ret.
  - cbn [print_results]. apply emits_bind; [now apply emits_emit|intros _].
    apply IH.
Qed.

Lemma valid_flows_shards (toFund : list string) (ks : list Z) :
  map (shard_of shardSize) toFund = map Ok ks -> NoDup ks ->
  NoDup (map flow_shard (valid_flows net shardSize amount toFund)) /\
  incl (map flow_shard (valid_flows net shardSize amount toFund)) ks.
Proof.
  revert ks. induction toFund as [|addr rest IH]; intros ks E Hnd.
  - cbn. split; [constructor|easy].
  - destruct ks as [|k ks]; [discriminate|]. cbn [map] in E.
    injection E as Ek E. apply NoDup_cons_iff in Hnd as [Hk Hnd].
    destruct (IH ks E Hnd) as [IH1 IH2].
    unfold valid_flows. cbn [flat_map].
    fold (valid_flows net shardSize amount rest). rewrite Ek.
    destruct (createFrom (Py.drop 2 addr)) as [dest|e]; cbn.
    + split.
      * constructor; [|exact IH1]. intros H. apply Hk, IH2, H.
      * intros x [<-|H]; [now left|right; now apply IH2].
    + split; [exact IH1|]. intros x H. right. now apply IH2.
Qed.
End CalmRounds.

Lemma pop_round_keys (byShard byShard' : list (Z * list string))
  (toFund : list string) :
  pop_round byShard = (toFund, byShard') ->
  map fst byShard' = map fst byShard.
Proof.
  revert toFund byShard'.
  induction byShard as [|[shard addrs] rest IH]; intros toFund byShard'; cbn.
  - intros H. now injection H as <- <-.
  - destruct (pop_round rest) as [toFund0 rest'].
    specialize (IH _ _ eq_refl).
    destruct addrs; intros H; injection H as <- <-; cbn; now rewrite IH.
Qed.

Lemma pop_round_queues (byShard byShard' : list (Z * list string))
  (toFund : list string) :
  pop_round byShard = (toFund, byShard') ->
  Forall2 (fun old new =>
             fst new = fst old /\
             (snd new = snd old \/ exists a, snd old = (snd new ++ [a])%list))
          byShard byShard' /\
  (List.length toFund <= List.length byShard)%nat.
Proof.
  revert toFund byShard'.
  induction byShard as [|[shard addrs] rest IH]; intros toFund byShard'; cbn.
  - intros H. injection H as <- <-. split; [constructor|cbn; lia].
  - destruct (pop_round rest) as [toFund0 rest'].
    destruct (IH _ _ eq_refl) as [IH1 IH2].
    destruct addrs as [|a addrs]; intros H; injection H as <- <-.
    + split; [|lia]. constructor; [|exact IH1]. cbn. auto.
    + split; [|cbn [List.length]; lia]. constructor; [|exact IH1].
      cbn [fst snd]. split; [reflexivity|]. right.
      exists (List.last (a :: addrs) EmptyString).
      apply app_removelast_last. discriminate.
Qed.

Lemma pop_round_ok (shardSize : Z) (byShard byShard' : list (Z * list string))
  (toFund : list string) :
  queues_ok shardSize byShard ->
  pop_round byShard = (toFund, byShard') ->
  queues_ok shardSize byShard'.
Proof.
  intros Hok Hpop. apply pop_round_queues in Hpop as [HF _].
  intros key queue Hin addr Ha.
  assert (Hold : exists q0, In (key, q0) byShard /\
                            (queue = q0 \/ exists a, q0 = (queue ++ [a])%list)).
  { clear Hok. induction HF as [|[k0 q0] [k1 q1] l l' [Hk Hq] _ IH].
    - destruct Hin.
    - destruct Hin as [E|Hin].
      + injection E as -> ->. cbn in Hk, Hq. subst k0.
        exists q0. split; [now left|exact Hq].
      + destruct (IH Hin) as [q [Hq0 Hq1]]. exists q. split; [now right|exact Hq1]. }
  destruct Hold as [q0 [Hin0 Hq]]. apply (Hok key q0 Hin0).
  destruct Hq as [->|[a ->]]; [exact Ha|]. apply in_app_iff. now left.
Qed.

Lemma last_In (l : list string) (d : string) :
  l <> [] -> In (List.last l d) l.
Proof.
  induction l as [|a l IH]; [now intros []|]. intros _.
  destruct l as [|b l]; [now left|]. right. apply IH. discriminate.
Qed.

Lemma pop_round_shards (shardSize : Z) (byShard byShard' : list (Z * list string))
  (toFund : list string) :
  queues_ok shardSize byShard -> NoDup (map fst byShard) ->
  pop_round byShard = (toFund, byShard') ->
  exists ks, map (shard_of shardSize) toFund = map Ok ks /\
             NoDup ks /\ incl ks (map fst byShard).
Proof.
  revert toFund byShard'.
  induction byShard as [|[shard addrs] rest IH]; intros toFund byShard' Hok Hnd;
    cbn.
  - intros H. injection H as <- <-. exists []. repeat split; [constructor|easy].
  - destruct (pop_round rest) as [toFund0 rest'].
    cbn in Hnd. apply NoDup_cons_iff in Hnd as [Hk Hnd].
    destruct (IH _ _ (fun k q H => Hok k q (or_intror H)) Hnd eq_refl)
      as [ks [E [Hks Hincl]]].
    destruct addrs as [|a addrs]; intros H; injection H as <- <-.
    + exists ks. repeat split; [exact E|exact Hks|now apply incl_tl].
    + exists (shard :: ks). cbn [map]. split; [|split].
      * f_equal; [|exact E].
        apply (Hok shard (a :: addrs) (or_introl eq_refl)).
        apply (last_In (a :: addrs) EmptyString). discriminate.
      * constructor; [|exact Hks]. intros Hin. now apply Hk, Hincl.
      * intros x [<-|Hx]; [now left|right; now apply Hincl].
Qed.

Section CalmFund.
Context {L : Library}.
Variables (fuel : nat) (endpoint : Endpoint.t) (genesisId : Identity)
          (flow_world : flow -> world).

Lemma calm_rounds (n : nat) (net shardSize amount : Z)
  (byShard : list (Z * list string)) :
  queues_ok shardSize byShard -> NoDup (map fst byShard) ->
  calm (rounds fuel endpoint genesisId flow_world n net shardSize amount byShard)
       (fun _ => True).
Proof.
  revert byShard. induction n as [|n IH]; intros byShard Hok Hnd.
  - apply calm_quiet, emits_pending.
  - cbn [rounds]. destruct (pop_round byShard) as [toFund byShard'] eqn:Hpop.
    destruct toFund as [|a toFund]; [apply calm_quiet, emits_ret|].
    apply calm_bind
      with (Q := fun fs => fs = valid_flows net shardSize amount (a :: toFund)).
    { apply calm_of_emits; [apply emits_make_futures|].
      intros w fs H. now apply make_futures_done in H. }
    intros fs ->.
    apply calm_bind with (Q := fun _ => True).
    { apply calm_gather.
      destruct (pop_round_shards _ _ _ _ Hok Hnd Hpop) as [ks [E [Hks _]]].
      now destruct (valid_flows_shards net shardSize amount _ _ E Hks). }
    intros results _.
    apply calm_bind with (Q := fun _ => True);
      [apply calm_quiet; now apply emits_emit|intros _ _].
    apply calm_bind with (Q := fun _ => True);
      [apply calm_quiet, emits_print_results|intros _ _].
    apply IH.
    + exact (pop_round_ok _ _ _ _ Hok Hpop).
    + now rewrite (pop_round_keys _ _ _ Hpop).
Qed.

Lemma calm_for_amounts (net shardSize : Z) (items : list (Z * list string)) :
  calm (for_amounts fuel endpoint genesisId flow_world net shardSize items)
       (fun _ => True).
Proof.
  induction items as [|[amount addrs] rest IH].
  - apply calm_quiet, emits_ret.
  - cbn [for_amounts].
    apply calm_bind with (Q := fun _ => True);
      [apply calm_quiet; now apply emits_emit|intros _ _].
    apply calm_bind
      with (Q := fun b => group_by_shard shardSize addrs [] = Ok b).
    { apply calm_of_emits; [apply emits_lift|].
      intros w b. destruct (group_by_shard shardSize addrs []); cbn;
        [|discriminate].
      intros H. now injection H as <-. }
    intros byShard Hg.
    destruct (group_by_shard_ok _ _ _ _ Hg (queues_ok_nil _) (NoDup_nil _))
      as [Hok Hnd].
    apply calm_bind with (Q := fun _ => True);
      [now apply calm_rounds|intros _ _]. exact IH.
Qed.

Lemma emits_networkInfo (field : string) :
  emits is_quiet
    (resp <- Endpoint.sendRequest fuel endpoint NetworkInfo ;;
     value <- lift (subscript resp field) ;;
     lift (int16 value)).
Proof.
  apply emits_bind; [now apply emits_sendRequest|intros resp].
  apply emits_bind; [apply emits_lift|intros value]. apply emits_lift.
Qed.

Lemma calm_fund (addrByAmount : list (Z * list string)) :
  calm (fund fuel endpoint genesisId flow_world addrByAmount) (fun _ => True).
Proof.
  unfold fund.
  apply calm_bind with (Q := fun _ => True);
    [apply calm_quiet, emits_networkInfo|intros net _].
  apply calm_bind with (Q := fun _ => True);
    [apply calm_quiet, emits_networkInfo|intros shardSize _].
  apply calm_for_amounts.
Qed.
End CalmFund.

(** C4: a round pops at most one address, the last, from each queue, so
    the addresses of one batch belong to pairwise distinct shards; and in
    every run of [fund], at every point of the trace, the flows in flight
    belong to pairwise distinct shards: two flows of one shard are never
    in flight together, the second one is launched in a later round, after
    the first has ended. *)
Theorem fund_one_flow_per_shard_in_flight {L : Library}
  (fuel : nat) (endpoint : Endpoint.t) (genesisId : Identity)
  (flow_world : flow -> world) :
  (forall shardSize byShard toFund byShard',
      queues_ok shardSize byShard -> NoDup (map fst byShard) ->
      pop_round byShard = (toFund, byShard') ->
      Forall2 (fun old new =>
                 fst new = fst old /\
                 (snd new = snd old \/
                  exists a, snd old = (snd new ++ [a])%list))
              byShard byShard' /\
      (List.length toFund <= List.length byShard)%nat /\
      exists ks, map (shard_of shardSize) toFund = map Ok ks /\ NoDup ks) /\
  (forall addrByAmount w p s,
      trace w = [] ->
      trace (snd (fund fuel endpoint genesisId flow_world addrByAmount w))
      = (p ++ s)%list ->
      NoDup (in_flight p [])).
Proof.
  split.
  - intros shardSize byShard toFund byShard' Hok Hnd Hpop.
    destruct (pop_round_queues _ _ _ Hpop) as [HF Hlen].
    destruct (pop_round_shards _ _ _ _ Hok Hnd Hpop) as [ks [E [Hks _]]].
    split; [exact HF|]. split; [exact Hlen|]. now exists ks.
  - intros addrByAmount w p s Hw E.
    destruct (calm_fund fuel endpoint genesisId flow_world addrByAmount w)
      as [t [Et [Ht _]]].
    rewrite Hw in Et. cbn in Et. rewrite Et in E.
    exact (proj1 (distinct_throughout_prefixes t []) Ht p s E).
Qed.

(** ** The polling loop under the monitor *)

Lemma poll_monitor_app (txHex : string) (c : Z) (t1 t2 : list event) :
  poll_monitor txHex c (t1 ++ t2)
  = match poll_monitor txHex c t1 with
    | Some c' => poll_monitor txHex c' t2
    | None => None
    end.
Proof.
  revert c. induction t1 as [|e t1 IH]; intros c; cbn; [reflexivity|].
  destruct (poll_step txHex c e); [apply IH|reflexivity].
Qed.

Section Tracks.
Variable txHex : string.

Lemma tracks_bind {A B : Type} (c : Z) (m : M A) (k : A -> M B)
  (Q : A -> Z -> Prop) (R : B -> Z -> Prop) :
  tracks txHex c m Q ->
  (forall a c', Q a c' -> tracks txHex c' (k a) R) ->
  tracks txHex c (bind m k) R.
Proof.
  intros Hm Hk w. unfold bind.
  destruct (Hm w) as (t1 & c1 & E1 & M1 & D1).
  destruct (m w) as [[a| |] w1]; cbn in E1, D1.
  - destruct (Hk a c1 (D1 a eq_refl) w1) as (t2 & c2 & E2 & M2 & D2).
    exists (t1 ++ t2)%list, c2. split; [now rewrite E2, E1, app_assoc|].
    split; [now rewrite poll_monitor_app, M1|exact D2].
  - exists t1, c1. cbn. repeat split; try assumption; discriminate.
  - exists t1, c1. cbn. repeat split; try assumption; discriminate.
Qed.

Lemma tracks_still {A : Type} (c : Z) (m : M A) :
  emits (fun e => forall u a o, e <> ERequest u a o) m ->
  tracks txHex c m (fun _ c' => c' = c).
Proof.
  intros Hm w. destruct (Hm w) as [t [E F]]. exists t, c.
  split; [exact E|]. split; [|reflexivity].
  clear E. induction F as [|e t He _ IH]; cbn; [reflexivity|].
  destruct e; try exact IH. now destruct (He url args o).
Qed.

Lemma tracks_weaken {A : Type} (c : Z) (m : M A) (Q R : A -> Z -> Prop) :
  tracks txHex c m Q -> (forall a c', Q a c' -> R a c') ->
  tracks txHex c m R.
Proof.
  intros Hm HQ w. destruct (Hm w) as (t & c' & E & Mt & D).
  exists t, c'. repeat split; try assumption. intros a Ha. apply HQ, D, Ha.
Qed.

Lemma tracks_print (c : Z) (msg : message) :
  tracks txHex c (print msg) (fun _ c' => c' = c).
Proof. apply tracks_still, emits_emit. discriminate. Qed.

Lemma tracks_sleep (c : Z) (d : Q) :
  tracks txHex c (sleep d) (fun _ c' => c' = c).
Proof. apply tracks_still, emits_emit. discriminate. Qed.

Lemma tracks_randint (c : Z) (a b : Z) :
  tracks txHex c (randint a b) (fun _ c' => c' = c).
Proof. apply tracks_still, emits_randint. Qed.

(** A request whose failed attempts leave the count where it is. *)
Lemma tracks_sendRequest (fuel : nat) (self : Endpoint.t) (args : request)
  (c : Z) (after : json -> Z) :
  (forall u e, poll_step txHex c (ERequest u args (Raised e)) = Some c) ->
  (forall u resp,
      poll_step txHex c (ERequest u args (Returned resp)) = Some (after resp)) ->
  tracks txHex c (Endpoint.sendRequest fuel self args)
         (fun resp c' => c' = after resp).
Proof.
  intros Hraised Hreturned. induction fuel as [|fuel IH].
  - intros w. exists [], c. cbn. rewrite app_nil_r.
    repeat split; discriminate.
  - cbn [Endpoint.sendRequest].
    apply tracks_bind
      with (Q := fun o c' =>
                   c' = match o with
                        | Returned resp => after resp
                        | Raised _ => c
                        end).
    { intros w. unfold client_request.
      destruct (script w) as [|o rest].
      - exists [], c. cbn. rewrite app_nil_r. repeat split; discriminate.
      - exists [ERequest (Endpoint.url self) args o],
               (match o with Returned resp => after resp | Raised _ => c end).
        cbn [fst snd trace poll_monitor]. split; [reflexivity|]. split.
        + destruct o; [now rewrite Hreturned|now rewrite Hraised].
        + intros a Ha. now injection Ha as <-. }
    intros [resp|e] c' ->.
    + intros w. exists [], (after resp). cbn. rewrite app_nil_r.
      repeat split. intros a Ha. now injection Ha as <-.
    + destruct (is_Exception e).
      * apply tracks_bind with (Q := fun _ c' => c' = c);
          [apply tracks_print|intros _ ? ->].
        apply tracks_bind with (Q := fun _ c' => c' = c);
          [apply tracks_randint|intros d ? ->].
        apply tracks_bind with (Q := fun _ c' => c' = c);
          [apply tracks_sleep|intros _ ? ->].
        exact IH.
      * intros w. exists [], c. cbn. rewrite app_nil_r.
        repeat split; discriminate.
Qed.
End Tracks.

Section PollTracks.
Context {L : Library}.
Variables (endpoint : Endpoint.t) (tx : EvmTransaction) (txId : json)
          (shard : Z) (dest : Address).

Lemma tracks_poll (fuel : nat) (cnt : Z) :
  0 <= cnt < 10 ->
  tracks ("0x" ++ rlp_hex tx) cnt
         (poll fuel endpoint tx txId shard dest cnt) (fun _ _ => True).
Proof.
  revert cnt. induction fuel as [|fuel IH]; intros cnt Hc.
  - intros w. exists [], cnt. cbn. rewrite app_nil_r.
    repeat split; discriminate.
  - cbn [poll].
    apply tracks_bind with (Q := fun _ c' => c' = cnt);
      [apply tracks_print|intros _ ? ->].
    apply tracks_bind with (Q := fun _ c' => c' = cnt);
      [apply tracks_sleep|intros _ ? ->].
    apply tracks_bind
      with (Q := fun resp c' => c' = if truthy resp then cnt else cnt + 1).
    { unfold Endpoint.getTransactionReceipt.
      apply tracks_bind
        with (Q := fun resp c' => c' = if truthy resp then cnt else cnt + 1).
      - apply tracks_sendRequest; intros; cbn;
          destruct (Z.ltb_spec cnt 10); try lia; reflexivity.
      - intros resp c' ->. intros w. exists [], (if truthy resp then cnt else cnt + 1).
        cbn. rewrite app_nil_r. repeat split.
        intros a Ha. now injection Ha as <-. }
    intros resp c' ->.
    destruct (truthy resp).
    { intros w. exists [], cnt. cbn. rewrite app_nil_r. repeat split. }
    destruct (Z.eqb_spec (cnt + 1) 10) as [E|E].
    + rewrite E.
      apply tracks_bind with (Q := fun _ c' => c' = 10);
        [apply tracks_print|intros _ ? ->].
      apply tracks_bind with (Q := fun _ c' => c' = 0).
      { unfold Endpoint.sendTransaction.
        apply tracks_bind with (Q := fun _ c' => c' = 0).
        - apply tracks_sendRequest with (after := fun _ => 0);
            intros; cbn; now rewrite String.eqb_refl.
        - intros r ? ->. intros w. exists [], 0. cbn. rewrite app_nil_r.
          repeat split. }
      intros _ ? ->. apply IH. lia.
    + apply IH. lia.
Qed.
End PollTracks.

(** C3: a flow whose requests all get through sleeps 5 seconds before
    every poll; after every tenth empty receipt in a row, and only then,
    it prints the retry line and sends again the very request of the
    first submission (the same signed transaction), then counts from 0
    again; the ten polls of such a stretch sleep 50 seconds. And whatever
    the node answers, failures included, the loop never submits but at a
    count of ten empty receipts since the last submission, never
    anything but that transaction, and never polls while a resubmission
    is due. *)
Theorem fund_shard_resubmits_after_ten_polls {L : Library}
  (endpoint : Endpoint.t) (genesisId : Identity) (dest : Address)
  (net shard amount : Z) (nonce_resp : json) (n : Z) (tx : EvmTransaction)
  (txId empty : json) (xs : list json) (k : nat) (receipt bh st : json)
  (height status : Z) (rest : list rpc_outcome) (ent : list Z)
  (tr : list event) (extra : nat) :
  int16 nonce_resp = Ok n ->
  create_transaction (createFromIdentity genesisId shard) (getKey genesisId)
    n dest net amount = Ok tx ->
  truthy empty = false ->
  truthy receipt = true ->
  (k < 10)%nat ->
  subscript receipt "blockHeight" = Ok bh -> int16 bh = Ok height ->
  subscript receipt "status" = Ok st -> int16 st = Ok status ->
  fund_shard (10 * List.length xs + k + 1 + extra) endpoint genesisId dest
    net shard amount
    (mkWorld (Returned nonce_resp :: Returned txId
                :: poll_script empty xs k receipt ++ rest) ent tr)
  = (Done (txId, height),
     mkWorld rest ent
       (tr ++ [ERequest (Endpoint.url endpoint)
                 (GetTransactionCount
                    ("0x" ++ serialize_hex (createFromIdentity genesisId shard)))
                 (Returned nonce_resp);
               submission endpoint tx txId]
           ++ poll_trace endpoint tx txId shard dest empty xs k receipt
           ++ [EPrint (MsgFunded shard txId height status amount)])) /\
  (forall x,
      slept (retry_block endpoint tx txId shard dest empty x) = inject_Z 50) /\
  (forall fuel cnt w,
      0 <= cnt < 10 ->
      exists t c,
        trace (snd (poll fuel endpoint tx txId shard dest cnt w))
        = (trace w ++ t)%list /\
        poll_monitor ("0x" ++ rlp_hex tx) cnt t = Some c).
Proof.
  intros Hn Htx He Hr Hk Hbh Hh Hst Hs. split; [|split; [reflexivity|]].
  - assert (Hf : (10 * List.length xs + k + 1 + extra)%nat <> O) by lia.
    unfold fund_shard. unfold bind at 1.
    rewrite getNonce_returned with (n := n) by assumption.
    unfold bind at 1. rewrite Htx. cbn [lift ret].
    unfold bind at 1. rewrite sendTransaction_returned by assumption.
    unfold bind at 1. rewrite (poll_run _ _ _ _ _ _ He) by assumption.
    unfold bind, print, emit. rewrite Hbh. cbn [lift ret]. rewrite Hh.
    cbn [lift ret]. rewrite Hst. cbn [lift ret]. rewrite Hs. cbn.
    rewrite <- !app_assoc. reflexivity.
  - intros fuel cnt w Hc.
    destruct (tracks_poll endpoint tx txId shard dest fuel cnt Hc w)
      as (t & c & E & Mt & _).
    now exists t, c.
Qed.

Lemma fund_shard_resubmits_after_ten_polls_witness :
  fst (fund_shard (L := demo_library)
         (10 * List.length [JStr "0xdup"] + 1 + 1 + 0) demo_endpoint
         demo_genesis (mkAddress [] 7) 3 7 5
         (mkWorld (Returned (JStr "0x4") :: Returned (JStr "0xid")
                     :: poll_script JNull [JStr "0xdup"] 1
                          (JDict [("blockHeight", JStr "0x10");
                                  ("status", JStr "0x1")]) ++ [])
            [] []))
  = Done (JStr "0xid", 16).
Proof.
  rewrite (proj1 (fund_shard_resubmits_after_ten_polls (L := demo_library)
    demo_endpoint demo_genesis (mkAddress [] 7) 3 7 5 (JStr "0x4") 4 _
    (JStr "0xid") JNull [JStr "0xdup"] 1
    (JDict [("blockHeight", JStr "0x10"); ("status", JStr "0x1")])
    (JStr "0x10") (JStr "0x1") 16 1
    [] [] [] 0 eq_refl eq_refl eq_refl eq_refl ltac:(lia) eq_refl eq_refl
    eq_refl eq_refl)).
  reflexivity.
Defined.

(** The monitor is not vacuous: it rejects a resubmission after nine
    empty receipts and a poll made while a resubmission is due. *)
Example poll_monitor_rejects :
  poll_monitor "0xc1" 9
    [ERequest "u" (SendRawTransaction "0xc1") (Returned (JStr "0xid"))] = None /\
  poll_monitor "0xc1" 9
    [ERequest "u" (GetTransactionReceipt (JStr "0xid")) (Returned JNull);
     ERequest "u" (GetTransactionReceipt (JStr "0xid")) (Returned JNull)] = None /\
  poll_monitor "0xc1" 9
    [ERequest "u" (GetTransactionReceipt (JStr "0xid")) (Returned JNull);
     ERequest "u" (SendRawTransaction "0xc0") (Returned (JStr "0xid"))] = None /\
  poll_monitor "0xc1" 9
    [ERequest "u" (GetTransactionReceipt (JStr "0xid")) (Returned JNull);
     ERequest "u" (SendRawTransaction "0xc1") (Returned (JStr "0xid"))] = Some 0.
Proof. repeat split. Qed.

(** ** Examples *)

Example split_examples :
  Py.split ("0xabc 5" ++ nl) = ["0xabc"; "5"] /\
  Py.split ("  0xabc" ++ nl) = ["0xabc"] /\
  Py.split nl = [] /\
  Py.readlines ("a 1" ++ nl ++ "b 2") = ["a 1" ++ nl; "b 2"].
Proof. repeat split. Qed.

Example int_examples :
  Py.int 16 "ff" = Some 255 /\ Py.int 16 "0xFF" = Some 255 /\
  Py.int 16 "-1" = Some (-1) /\ Py.int 16 "xyz" = None /\
  Py.int 16 "0x" = None /\ Py.int 16 "1_0" = Some 16 /\
  Py.int 16 "_10" = None /\ Py.int 10 " 42 " = Some 42 /\
  Py.int 10 "0x1" = None /\ Py.int 10 "" = None.
Proof. repeat split. Qed.

(** A negative literal still lands in [0, shardSize). *)
Example shard_of_examples :
  shard_of 8 "0x3a1c9f00abcdef12" = Ok 2 /\
  shard_of 8 "-1" = Ok 7 /\
  shard_of 8 "0xnothex" = Err ValueError.
Proof. repeat split. Qed.

(** Two addresses of shard 0 and amount 5: the second flow is launched
    in the round after the one of the first, once the first has ended. *)
Example fund_two_addresses_same_shard :
  fst demo_run = Done tt /\
  filter (fun e => match e with ELaunch _ | EDone _ => true | _ => false end)
         (trace (snd demo_run))
  = [ELaunch (mkFlow (mkAddress (repeat Byte.x00 19 ++ [Byte.xa2])%list 4) 3 0 5);
     EDone (mkFlow (mkAddress (repeat Byte.x00 19 ++ [Byte.xa2])%list 4) 3 0 5);
     ELaunch (mkFlow (mkAddress (repeat Byte.x00 19 ++ [Byte.xa1])%list 0) 3 0 5);
     EDone (mkFlow (mkAddress (repeat Byte.x00 19 ++ [Byte.xa1])%list 0) 3 0 5)].
Proof. split; vm_compute; reflexivity. Qed.

(** * Further properties of the script *)

(** ** Exceptions that leave the RPC client and the flows *)

Lemma raises_only_ret {A : Type} (P : exn -> Prop) (a : A) :
  raises_only P (ret a).
Proof. intros w e H. discriminate. Qed.

Lemma raises_only_pending {A : Type} (P : exn -> Prop) :
  raises_only P (@pending A).
Proof. intros w e H. discriminate. Qed.

Lemma raises_only_raise {A : Type} (P : exn -> Prop) (e : exn) :
  P e -> raises_only P (@raise A e).
Proof. intros He w e' H. cbn in H. now injection H as <-. Qed.

Lemma raises_only_lift {A : Type} (P : exn -> Prop) (x : result A) :
  (forall e, x = Err e -> P e) -> raises_only P (lift x).
Proof.
  intros H. destruct x as [a|e]; [apply raises_only_ret|].
  apply raises_only_raise, H. reflexivity.
Qed.

Lemma raises_only_bind {A B : Type} (P : exn -> Prop) (m : M A) (k : A -> M B) :
  raises_only P m -> (forall a, raises_only P (k a)) ->
  raises_only P (bind m k).
Proof.
  intros Hm Hk w e. unfold bind. specialize (Hm w).
  destruct (m w) as [[a| |] w1]; cbn in *.
  - apply Hk.
  - intros H. injection H as <-. now apply Hm.
  - discriminate.
Qed.

Lemma raises_only_emit (P : exn -> Prop) (ev : event) : raises_only P (emit ev).
Proof. intros w e H. discriminate. Qed.

Lemma raises_only_randint (P : exn -> Prop) (a b : Z) :
  raises_only P (randint a b).
Proof. intros w e. unfold randint. destruct (entropy w); discriminate. Qed.

Lemma raises_only_client_request (P : exn -> Prop) (url : string)
  (args : request) :
  raises_only P (client_request url args).
Proof. intros w e. unfold client_request. destruct (script w); discriminate. Qed.

Lemma raises_only_sendRequest (fuel : nat) (self : Endpoint.t) (args : request) :
  raises_only (fun e => is_Exception e = false)
              (Endpoint.sendRequest fuel self args).
Proof.
  induction fuel as [|fuel IH]; [apply raises_only_pending|].
  cbn [Endpoint.sendRequest].
  apply raises_only_bind; [apply raises_only_client_request|].
  intros [resp|e]; [apply raises_only_ret|].
  destruct (is_Exception e) eqn:He; [|now apply raises_only_raise].
  apply raises_only_bind; [apply raises_only_emit|intros _].
  apply raises_only_bind; [apply raises_only_randint|intros d].
  apply raises_only_bind; [apply raises_only_emit|intros _]. exact IH.
Qed.

(** X1: no exception of class [Exception] ever leaves [__sendRequest]: a
    timeout, a connection error or an error response is never seen by the
    caller, whatever the node does and however long the loop runs. *)
Theorem sendRequest_never_raises_Exception (fuel : nat) (self : Endpoint.t)
  (args : request) (w : world) (e : exn) :
  fst (Endpoint.sendRequest fuel self args w) = Raise e ->
  is_Exception e = false.
Proof. apply raises_only_sendRequest. Qed.

Lemma sendRequest_never_raises_Exception_witness :
  is_Exception KeyboardInterrupt = false.
Proof.
  exact (sendRequest_never_raises_Exception 3 demo_endpoint NetworkInfo
           (mkWorld [Raised TransportError; Raised KeyboardInterrupt] [2] [])
           KeyboardInterrupt eq_refl).
Defined.

Lemma raises_only_weaken {A : Type} (P Q : exn -> Prop) (m : M A) :
  raises_only P m -> (forall e, P e -> Q e) -> raises_only Q m.
Proof. intros H HPQ w e He. apply HPQ, (H w e He). Qed.

Lemma flow_failure_sendRequest (fuel : nat) (self : Endpoint.t) (args : request) :
  raises_only flow_failure (Endpoint.sendRequest fuel self args).
Proof.
  apply (raises_only_weaken _ _ _ (raises_only_sendRequest fuel self args)).
  unfold flow_failure. tauto.
Qed.

Lemma flow_failure_int16 (j : json) (e : exn) : int16 j = Err e -> flow_failure e.
Proof.
  unfold flow_failure. destruct j; cbn; try (intros H; injection H as <-; tauto).
  destruct (Py.int 16 s0); cbn; [discriminate|].
  intros H; injection H as <-; tauto.
Qed.

Lemma flow_failure_subscript (j : json) (key : string) (e : exn) :
  subscript j key = Err e -> flow_failure e.
Proof.
  unfold flow_failure. destruct j; cbn; try (intros H; injection H as <-; tauto).
  destruct (assoc key d); cbn; [discriminate|].
  intros H; injection H as <-; tauto.
Qed.

Lemma flow_failure_create_transaction {L : Library} (address : Address)
  (key : bytes) (n : Z) (dest : Address) (net amount : Z) (e : exn) :
  create_transaction address key n dest net amount = Err e -> flow_failure e.
Proof.
  unfold create_transaction, sign, flow_failure.
  destruct (valid_key key); [destruct (ecsign key _) as [[? ?] ?]; discriminate|].
  intros H; injection H as <-; tauto.
Qed.

Lemma flow_failure_poll {L : Library} (fuel : nat) (endpoint : Endpoint.t)
  (tx : EvmTransaction) (txId : json) (shard : Z) (dest : Address) (cnt : Z) :
  raises_only flow_failure (poll fuel endpoint tx txId shard dest cnt).
Proof.
  revert cnt. induction fuel as [|fuel IH]; intros cnt;
    [apply raises_only_pending|].
  cbn [poll].
  apply raises_only_bind; [apply raises_only_emit|intros _].
  apply raises_only_bind; [apply raises_only_emit|intros _].
  apply raises_only_bind.
  { unfold Endpoint.getTransactionReceipt.
    apply raises_only_bind; [apply flow_failure_sendRequest|].
    intros; apply raises_only_ret. }
  intros resp. destruct (truthy resp); [apply raises_only_ret|].
  destruct (cnt + 1 =? 10); [|apply IH].
  apply raises_only_bind; [apply raises_only_emit|intros _].
  apply raises_only_bind; [|intros _; apply IH].
  unfold Endpoint.sendTransaction.
  apply raises_only_bind; [apply flow_failure_sendRequest|].
  intros; apply raises_only_ret.
Qed.

Lemma flow_failure_fund_shard {L : Library} (fuel : nat) (endpoint : Endpoint.t)
  (genesisId : Identity) (dest : Address) (net shard amount : Z) :
  raises_only flow_failure
              (fund_shard fuel endpoint genesisId dest net shard amount).
Proof.
  unfold fund_shard.
  apply raises_only_bind.
  { unfold Endpoint.getNonce.
    apply raises_only_bind; [apply flow_failure_sendRequest|intros resp].
    apply raises_only_lift, flow_failure_int16. }
  intros n.
  apply raises_only_bind;
    [apply raises_only_lift, flow_failure_create_transaction|intros tx].
  apply raises_only_bind.
  { unfold Endpoint.sendTransaction.
    apply raises_only_bind; [apply flow_failure_sendRequest|].
    intros; apply raises_only_ret. }
  intros txId.
  apply raises_only_bind; [apply flow_failure_poll|intros resp].
  apply raises_only_bind;
    [apply raises_only_lift, flow_failure_subscript|intros bh].
  apply raises_only_bind; [apply raises_only_lift, flow_failure_int16|intros h].
  apply raises_only_bind;
    [apply raises_only_lift, flow_failure_subscript|intros st].
  apply raises_only_bind; [apply raises_only_lift, flow_failure_int16|intros s0].
  apply raises_only_bind; [apply raises_only_emit|intros _].
  apply raises_only_ret.
Qed.

Lemma collect_raise {A : Type} (os : list (outcome A)) (e : exn) :
  collect os = Raise e -> In (Raise e) os.
Proof.
  induction os as [|o os IH]; cbn; [discriminate|].
  destruct o as [a|e0|]; destruct (collect os) as [l|e1|]; try discriminate;
    intros H; injection H as <-; auto.
Qed.

Lemma flow_failure_shard_of (shardSize : Z) (addr : string) (e : exn) :
  shard_of shardSize addr = Err e -> flow_failure e.
Proof.
  unfold shard_of, flow_failure. destruct (Py.int 16 _); [discriminate|].
  intros H; injection H as <-; tauto.
Qed.

Lemma group_by_shard_error (shardSize : Z) (addrs : list string)
  (b0 : list (Z * list string)) (e : exn) :
  group_by_shard shardSize addrs b0 = Err e -> e = ValueError.
Proof.
  revert b0. induction addrs as [|addr addrs IH]; intros b0; cbn;
    [discriminate|].
  unfold shard_of at 1. destruct (Py.int 16 _); [apply IH|].
  intros H. now injection H as <-.
Qed.

Lemma flow_failure_gather {L : Library} (fuel : nat) (endpoint : Endpoint.t)
  (genesisId : Identity) (flow_world : flow -> world) (futures : list flow) :
  raises_only flow_failure
              (gather fuel endpoint genesisId flow_world futures).
Proof.
  intros w e. rewrite gather_run.
  destruct (collect _) as [results|e0|] eqn:E; try discriminate.
  cbn. intros H. injection H as <-.
  apply collect_raise, in_map_iff in E as [f [Hf _]].
  unfold run_flow in Hf.
  exact (flow_failure_fund_shard fuel endpoint genesisId _ _ _ _ _ _ Hf).
Qed.

Lemma flow_failure_make_futures {L : Library} (net shardSize amount : Z)
  (toFund : list string) (futures : list flow) :
  raises_only flow_failure (make_futures net shardSize amount toFund futures).
Proof.
  revert futures. induction toFund as [|addr rest IH]; intros futures;
    [apply raises_only_ret|].
  cbn [make_futures].
  apply raises_only_bind;
    [apply raises_only_lift, flow_failure_shard_of|intros shard].
  destruct (createFrom (Py.drop 2 addr));
    (apply raises_only_bind; [apply raises_only_emit|intros _; apply IH]).
Qed.

Lemma raises_only_print_results (P : exn -> Prop) (results : list (json * Z))
  (idx : nat) :
  raises_only P (print_results idx results).
Proof.
  revert idx. induction results as [|[txId height] rest IH]; intros idx;
    [apply raises_only_ret|].
  cbn [print_results].
  apply raises_only_bind; [apply raises_only_emit|intros _; apply IH].
Qed.

Lemma flow_failure_rounds {L : Library} (fuel : nat) (endpoint : Endpoint.t)
  (genesisId : Identity) (flow_world : flow -> world) (n : nat)
  (net shardSize amount : Z) (byShard : list (Z * list string)) :
  raises_only flow_failure
    (rounds fuel endpoint genesisId flow_world n net shardSize amount byShard).
Proof.
  revert byShard. induction n as [|n IH]; intros byShard;
    [apply raises_only_pending|].
  cbn [rounds]. destruct (pop_round byShard) as [toFund byShard'].
  destruct toFund as [|a toFund]; [apply raises_only_ret|].
  apply raises_only_bind; [apply flow_failure_make_futures|intros futures].
  apply raises_only_bind; [apply flow_failure_gather|intros results].
  apply raises_only_bind; [apply raises_only_emit|intros _].
  apply raises_only_bind; [apply raises_only_print_results|intros _].
  apply IH.
Qed.

Lemma flow_failure_networkInfo (fuel : nat) (endpoint : Endpoint.t)
  (field : string) :
  raises_only flow_failure
    (resp <- Endpoint.sendRequest fuel endpoint NetworkInfo ;;
     value <- lift (subscript resp field) ;;
     lift (int16 value)).
Proof.
  apply raises_only_bind; [apply flow_failure_sendRequest|intros resp].
  apply raises_only_bind;
    [apply raises_only_lift, flow_failure_subscript|intros value].
  apply raises_only_lift, flow_failure_int16.
Qed.

Lemma flow_failure_for_amounts {L : Library} (fuel : nat)
  (endpoint : Endpoint.t) (genesisId : Identity) (flow_world : flow -> world)
  (net shardSize : Z) (items : list (Z * list string)) :
  raises_only flow_failure
    (for_amounts fuel endpoint genesisId flow_world net shardSize items).
Proof.
  induction items as [|[amount addrs] rest IH]; [apply raises_only_ret|].
  cbn [for_amounts].
  apply raises_only_bind; [apply raises_only_emit|intros _].
  apply raises_only_bind.
  { apply raises_only_lift. intros e H.
    apply group_by_shard_error in H. subst e. unfold flow_failure. tauto. }
  intros byShard.
  apply raises_only_bind; [apply flow_failure_rounds|intros _]. exact IH.
Qed.

(** X2: an exception that ends a run of [fund] is a [ValueError],
    [TypeError] or [KeyError] of the script's own conversions, a signing
    failure, or not an [Exception] at all; a transport failure or an
    error response of the node never ends the run. *)
Theorem fund_never_raises_transport_errors {L : Library} (fuel : nat)
  (endpoint : Endpoint.t) (genesisId : Identity) (flow_world : flow -> world)
  (addrByAmount : list (Z * list string)) (w : world) (e : exn) :
  fst (fund fuel endpoint genesisId flow_world addrByAmount w) = Raise e ->
  flow_failure e /\ e <> TransportError /\ e <> ReceivedErrorResponse.
Proof.
  intros H.
  assert (Hf : flow_failure e).
  { revert w e H. unfold fund.
    apply raises_only_bind; [apply flow_failure_networkInfo|intros net].
    apply raises_only_bind; [apply flow_failure_networkInfo|intros shardSize].
    apply flow_failure_for_amounts. }
  split; [exact Hf|].
  unfold flow_failure in Hf.
  split; intros ->; destruct Hf as [H0|[H0|[H0|[H0|H0]]]]; discriminate.
Qed.

Lemma fund_never_raises_transport_errors_witness :
  flow_failure KeyError /\ KeyError <> TransportError /\
  KeyError <> ReceivedErrorResponse.
Proof.
  exact (fund_never_raises_transport_errors (L := demo_library) 3 demo_endpoint
           demo_genesis demo_flow_world [(5, [demo_addr1])]
           (mkWorld [Raised TransportError; Returned (JDict [])] [0] [])
           KeyError eq_refl).
Defined.

(** ** A node that never confirms *)

Lemma while_unanswered_weaken {A : Type} (Q Q' : outcome A -> Prop) (m : M A) :
  (forall o, Q o -> Q' o) -> while_unanswered Q m -> while_unanswered Q' m.
Proof.
  intros HQ Hm w. destruct (Hm w) as [t [E H]]. exists t. split; [exact E|].
  intros Ht. apply HQ, H, Ht.
Qed.

Lemma while_unanswered_bind {A B : Type} (Q : outcome A -> Prop)
  (Q' : outcome B -> Prop) (m : M A) (k : A -> M B) :
  while_unanswered Q m ->
  (forall a, while_unanswered (fun o => Q (Done a) -> Q' o) (k a)) ->
  (forall e, Q (Raise e) -> Q' (Raise e)) ->
  (Q Pending -> Q' Pending) ->
  while_unanswered Q' (bind m k).
Proof.
  intros Hm Hk Hr Hp w. unfold bind.
  destruct (Hm w) as [t1 [E1 H1]].
  destruct (m w) as [[a| |] w1]; cbn [fst snd] in *.
  - destruct (Hk a w1) as [t2 [E2 H2]]. exists (t1 ++ t2)%list.
    rewrite E2, E1, app_assoc. split; [reflexivity|].
    intros Ht. apply Forall_app in Ht as [Ht1 Ht2]. apply H2; auto.
  - exists t1. split; [exact E1|]. intros Ht. apply Hr, H1, Ht.
  - exists t1. split; [exact E1|]. intros Ht. apply Hp, H1, Ht.
Qed.

Lemma while_unanswered_emit {B : Type} (Q' : outcome B -> Prop) (ev : event)
  (k : M B) :
  while_unanswered Q' k -> while_unanswered Q' (emit ev ;;; k).
Proof.
  intros Hk.
  apply (while_unanswered_bind (fun o => o = Done tt) Q' (emit ev)
           (fun _ => k)).
  - intros w. exists [ev]. split; reflexivity.
  - intros a. revert Hk. apply while_unanswered_weaken. auto.
  - discriminate.
  - discriminate.
Qed.

Lemma while_unanswered_sendRequest (fuel : nat) (self : Endpoint.t)
  (args : request) :
  while_unanswered (request_unanswered args)
    (Endpoint.sendRequest fuel self args).
Proof.
  induction fuel as [|fuel IH]; intros w.
  - exists []. rewrite app_nil_r. split; [reflexivity|]. intros _. exact I.
  - destruct w as [[|[resp|e] rest] ent tr].
    + exists []. rewrite app_nil_r. split; [reflexivity|]. intros _. exact I.
    + exists [ERequest (Endpoint.url self) args (Returned resp)].
      split; [reflexivity|]. intros Ht. apply Forall_inv in Ht.
      destruct args; cbn in *; auto.
    + destruct (is_Exception e) eqn:He.
      * destruct ent as [|z ent].
        -- exists [ERequest (Endpoint.url self) args (Raised e);
                   EPrint (MsgTimeout (Endpoint.url self) e)].
           cbn. unfold bind. cbn. rewrite He. cbn.
           split; [now rewrite <- app_assoc|]. intros _. exact I.
        -- rewrite sendRequest_step_raised by exact He.
           destruct (IH (mkWorld rest ent
                           (tr ++ retry_events self args e z)))
             as [t [E H]].
           exists (retry_events self args e z ++ t)%list.
           cbn [trace] in *. rewrite E, app_assoc. split; [reflexivity|].
           intros Ht. apply Forall_app in Ht as [_ Ht]. apply H, Ht.
      * exists [ERequest (Endpoint.url self) args (Raised e)].
        cbn. unfold bind. cbn. rewrite He. cbn. split; [reflexivity|].
        intros Ht. apply Forall_inv in Ht.
        destruct args; cbn in Ht; congruence.
Qed.

Lemma while_unanswered_poll {L : Library} (fuel : nat) (endpoint : Endpoint.t)
  (tx : EvmTransaction) (txId : json) (shard : Z) (dest : Address) (cnt : Z) :
  while_unanswered (fun o => o = Pending)
    (poll fuel endpoint tx txId shard dest cnt).
Proof.
  revert cnt. induction fuel as [|fuel IH]; intros cnt.
  - intros w. exists []. rewrite app_nil_r. split; reflexivity.
  - cbn [poll]. unfold print, sleep.
    apply while_unanswered_emit, while_unanswered_emit.
    unfold Endpoint.getTransactionReceipt.
    apply (while_unanswered_bind
             (request_unanswered (GetTransactionReceipt txId))).
    + apply (while_unanswered_bind
               (request_unanswered (GetTransactionReceipt txId)));
        [apply while_unanswered_sendRequest| |auto|auto].
      intros resp w. exists []. rewrite app_nil_r. split; [reflexivity|auto].
    + intros resp. destruct (truthy resp) eqn:Hresp.
      * intros w. exists []. rewrite app_nil_r. split; [reflexivity|].
        intros _ H. cbn in H. congruence.
      * destruct (cnt + 1 =? 10).
        -- apply while_unanswered_emit. unfold Endpoint.sendTransaction.
           apply (while_unanswered_bind
                    (request_unanswered (SendRawTransaction ("0x" ++ rlp_hex tx)))).
           ++ apply (while_unanswered_bind
                       (request_unanswered
                          (SendRawTransaction ("0x" ++ rlp_hex tx))));
                [apply while_unanswered_sendRequest| |auto|auto].
              intros r w. exists []. rewrite app_nil_r.
              split; [reflexivity|auto].
           ++ intros r. generalize (IH 0).
              apply while_unanswered_weaken. auto.
           ++ intros e [].
           ++ reflexivity.
        -- generalize (IH (cnt + 1)). apply while_unanswered_weaken. auto.
    + intros e [].
    + reflexivity.
Qed.

(** X3: the polling loop of a flow ends only on a receipt. In a run where
    every receipt request was answered with an empty receipt or failed
    with an [Exception] (which is retried), and no request was cut short
    by something that is not an [Exception], the loop is still pending,
    whatever the number of turns allowed and whatever the node answered
    to the resubmissions: it neither returns nor raises. *)
Theorem poll_never_ends_without_receipt {L : Library} (fuel : nat)
  (endpoint : Endpoint.t) (tx : EvmTransaction) (txId : json) (shard : Z)
  (dest : Address) (cnt : Z) (w : world) (t : list event) :
  trace (snd (poll fuel endpoint tx txId shard dest cnt w))
  = (trace w ++ t)%list ->
  Forall unanswered t ->
  fst (poll fuel endpoint tx txId shard dest cnt w) = Pending.
Proof.
  intros E Ht.
  destruct (while_unanswered_poll fuel endpoint tx txId shard dest cnt w)
    as [t' [E' H]].
  rewrite E' in E. apply app_inv_head in E. subst t'. exact (H Ht).
Qed.

Lemma poll_never_ends_without_receipt_witness :
  let run :=
    poll (L := demo_library) 40 demo_endpoint
      (mkEvmTransaction 0 1 1000000 [] 5 [] 0 0 3 27 1 1) (JStr "0xid") 0
      (mkAddress [] 0) 0
      (mkWorld (repeat (Returned JNull) 10
                  ++ [Returned (JStr "0xother"); Raised TransportError;
                      Returned (JList []); Returned JNull])
               [4] []) in
  In (ERequest (Endpoint.url demo_endpoint)
        (SendRawTransaction
           ("0x" ++ @rlp_hex demo_library
                      (mkEvmTransaction 0 1 1000000 [] 5 [] 0 0 3 27 1 1)))
        (Returned (JStr "0xother")))
     (trace (snd run)) /\
  fst run = Pending.
Proof.
  intros run. split.
  - vm_compute. do 31 right. left. reflexivity.
  - apply (poll_never_ends_without_receipt (L := demo_library) 40
             demo_endpoint
             (mkEvmTransaction 0 1 1000000 [] 5 [] 0 0 3 27 1 1)
             (JStr "0xid") 0 (mkAddress [] 0) 0 _ (trace (snd run))).
    + reflexivity.
    + vm_compute. repeat constructor.
Defined.

(** ** What a flow submits *)

Lemma no_submission_submits_only (txHex : string) (ev : event) :
  no_submission ev -> submits_only txHex ev.
Proof. intros H u h o E. now destruct (H u h o). Qed.

Lemma emits_tail_submits_only {L : Library} (fuel : nat) (endpoint : Endpoint.t)
  (tx : EvmTransaction) (dest : Address) (shard amount : Z) :
  emits (submits_only ("0x" ++ rlp_hex tx))
    (txId <- Endpoint.sendTransaction fuel endpoint tx ;;
     resp <- poll fuel endpoint tx txId shard dest 0 ;;
     bh <- lift (subscript resp "blockHeight") ;;
     height <- lift (int16 bh) ;;
     st <- lift (subscript resp "status") ;;
     status <- lift (int16 st) ;;
     print (MsgFunded shard txId height status amount) ;;;
     ret (txId, height)).
Proof.
  assert (Hsend : emits (submits_only ("0x" ++ rlp_hex tx))
                        (Endpoint.sendTransaction fuel endpoint tx)).
  { unfold Endpoint.sendTransaction.
    apply emits_bind; [|intros; apply emits_ret].
    apply emits_sendRequest.
    - intros o u h o' E. now injection E as _ <- _.
    - intros e. apply no_submission_submits_only. intros u h o. discriminate.
    - intros d. apply no_submission_submits_only. intros u h o. discriminate. }
  assert (Hpoll : forall n txId cnt,
             emits (submits_only ("0x" ++ rlp_hex tx))
                   (poll n endpoint tx txId shard dest cnt)).
  { induction n as [|n IH]; intros txId cnt; [apply emits_pending|].
    cbn [poll].
    apply emits_bind; [apply emits_emit, no_submission_submits_only;
                       intros u h o; discriminate|intros _].
    apply emits_bind; [apply emits_emit, no_submission_submits_only;
                       intros u h o; discriminate|intros _].
    apply emits_bind.
    { unfold Endpoint.getTransactionReceipt.
      apply emits_bind; [|intros; apply emits_ret].
      apply emits_sendRequest; intros; apply no_submission_submits_only;
        intros u h o'; discriminate. }
    intros resp. destruct (truthy resp); [apply emits_ret|].
    destruct (cnt + 1 =? 10); [|apply IH].
    apply emits_bind; [apply emits_emit, no_submission_submits_only;
                       intros u h o; discriminate|intros _].
    apply emits_bind; [|intros _; apply IH].
    unfold Endpoint.sendTransaction.
    apply emits_bind; [|intros; apply emits_ret].
    apply emits_sendRequest.
    - intros o u h o' E. now injection E as _ <- _.
    - intros e. apply no_submission_submits_only. intros u h o. discriminate.
    - intros d. apply no_submission_submits_only. intros u h o. discriminate. }
  apply emits_bind; [exact Hsend|intros txId].
  apply emits_bind; [apply Hpoll|intros resp].
  apply emits_bind; [apply emits_lift|intros bh].
  apply emits_bind; [apply emits_lift|intros height].
  apply emits_bind; [apply emits_lift|intros st].
  apply emits_bind; [apply emits_lift|intros status].
  apply emits_bind; [|intros _; apply emits_ret].
  apply emits_emit, no_submission_submits_only. intros u h o. discriminate.
Qed.

Lemma getNonce_done {L : Library} (fuel : nat) (self : Endpoint.t)
  (account : Address) (w w1 : world) (n : Z) :
  Endpoint.getNonce fuel self account w = (Done n, w1) ->
  exists resp,
    int16 resp = Ok n /\
    Endpoint.sendRequest fuel self
      (GetTransactionCount ("0x" ++ serialize_hex account)) w
    = (Done resp, w1).
Proof.
  unfold Endpoint.getNonce, bind.
  destruct (Endpoint.sendRequest _ _ _ w) as [[resp| |] w0]; try discriminate.
  destruct (int16 resp) as [m|e] eqn:E; cbn; [|discriminate].
  intros H. injection H as <- <-. now exists resp.
Qed.

(** X4: the only transaction a flow ever submits, first submission and
    resubmissions alike, is the one that [create_transaction] built from
    the nonce the node returned for the shard's sender; a flow that could
    not read a nonce or build the transaction submits nothing. *)
Theorem fund_shard_submits_only_its_transaction {L : Library} (fuel : nat)
  (endpoint : Endpoint.t) (genesisId : Identity) (dest : Address)
  (net shard amount : Z) (w : world) :
  exists t,
    trace (snd (fund_shard fuel endpoint genesisId dest net shard amount w))
    = (trace w ++ t)%list /\
    (Forall no_submission t \/
     exists resp n tx,
       In (ERequest (Endpoint.url endpoint)
             (GetTransactionCount
                ("0x" ++ serialize_hex (createFromIdentity genesisId shard)))
             (Returned resp)) t /\
       int16 resp = Ok n /\
       create_transaction (createFromIdentity genesisId shard)
         (getKey genesisId) n dest net amount = Ok tx /\
       Forall (submits_only ("0x" ++ rlp_hex tx)) t).
Proof.
  unfold fund_shard. unfold bind at 1.
  destruct (Endpoint.getNonce fuel endpoint _ w) as [o1 w1] eqn:E1.
  assert (H1 : exists t1, trace w1 = (trace w ++ t1)%list /\
                          Forall no_submission t1).
  { assert (Hq : emits no_submission
                   (Endpoint.getNonce fuel endpoint
                      (createFromIdentity genesisId shard))).
    { unfold Endpoint.getNonce.
      apply emits_bind; [|intros; apply emits_lift].
      apply emits_sendRequest; intros; intros u h o'; discriminate. }
    exact (emits_run _ _ _ _ _ Hq E1). }
  destruct H1 as [t1 [T1 F1]].
  destruct o1 as [n| |]; cbn [fst snd];
    try (exists t1; split; [exact T1|now left]).
  unfold bind at 1.
  destruct (create_transaction _ _ n dest net amount) as [tx|e] eqn:Etx;
    cbn [lift ret raise];
    [|exists t1; split; [exact T1|now left]].
  destruct (emits_tail_submits_only fuel endpoint tx dest shard amount w1)
    as [t2 [T2 F2]].
  exists (t1 ++ t2)%list. split; [now rewrite T2, T1, app_assoc|].
  right. apply getNonce_done in E1 as [resp [Hn Hreq]].
  apply sendRequest_done in Hreq as [pre [Tpre _]].
  exists resp, n, tx. split; [|split; [exact Hn|split; [exact Etx|]]].
  - rewrite T1 in Tpre. apply app_inv_head in Tpre. rewrite Tpre.
    apply in_app_iff. left. apply in_app_iff. right. now left.
  - apply Forall_app. split; [|exact F2].
    eapply Forall_impl; [|exact F1]. apply no_submission_submits_only.
Qed.

(** ** Shard sizes that are not powers of two *)

Lemma land_le_mask (n m : Z) : 0 <= m -> 0 <= Z.land n m <= m.
Proof.
  intros Hm. split; [apply Z.land_nonneg; now right|].
  assert (H0 : Z.land (Z.ldiff m n) (Z.land m n) = 0).
  { apply Z.bits_inj'. intros i Hi.
    rewrite !Z.land_spec, Z.ldiff_spec, Z.bits_0.
    destruct (Z.testbit m i), (Z.testbit n i); reflexivity. }
  pose proof (Z.add_nocarry_lxor _ _ H0) as Hadd.
  rewrite (Z.lxor_lor _ _ H0), Z.lor_ldiff_and in Hadd.
  assert (Hd : 0 <= Z.ldiff m n) by (apply Z.ldiff_nonneg; now left).
  rewrite (Z.land_comm n m). lia.
Qed.

(** X5: for every shard size of at least 1, power of two or not, the
    shard of an address lies in [0, shardSize) and has no bit outside
    [shardSize - 1]; so with a size that is not a power of two some shards
    below the size are never assigned. With a shard size of 0 the mask is
    -1 and the shard is the whole integer read from the address. *)
Theorem shard_of_in_range_for_any_size (shardSize : Z) (addr : string)
  (shard : Z) :
  shard_of shardSize addr = Ok shard ->
  (1 <= shardSize ->
   0 <= shard < shardSize /\ Z.land shard (shardSize - 1) = shard) /\
  (shardSize = 0 -> Py.int 16 (Py.suffix 8 addr) = Some shard).
Proof.
  unfold shard_of. destruct (Py.int 16 (Py.suffix 8 addr)) as [n|];
    [|discriminate].
  intros H. injection H as <-. split.
  - intros Hs. pose proof (land_le_mask n (shardSize - 1) ltac:(lia)).
    split; [lia|]. now rewrite <- Z.land_assoc, Z.land_diag.
  - intros ->. cbn. now rewrite Z.land_m1_r.
Qed.

Lemma shard_of_in_range_for_any_size_witness :
  0 <= 5 < 6 /\ Z.land 5 (6 - 1) = 5.
Proof.
  exact (proj1 (shard_of_in_range_for_any_size 6 "0x3a1c9f00abcdef17" 5
                  eq_refl) ltac:(lia)).
Defined.

(** ** When the loader raises *)





(** An unreadable amount that a later line of the same address replaces
    does not stop the loader. *)
Example read_addr_ignores_replaced_amount :
  read_addr ("0xabc five" ++ nl ++ "0xabc 5" ++ nl) = Ok [(5, ["0xabc"])] /\
  read_addr ("0xabc 5" ++ nl ++ "0xabc five" ++ nl) = Err ValueError.
Proof. split; reflexivity. Qed.

(** ** Failures that stop the orchestrator *)

Lemma group_by_shard_fails (shardSize : Z) (addrs : list string)
  (b0 : list (Z * list string)) (addr : string) :
  In addr addrs -> Py.int 16 (Py.suffix 8 addr) = None ->
  group_by_shard shardSize addrs b0 = Err ValueError.
Proof.
  intros Hin Hint. revert b0.
  induction addrs as [|a addrs IH]; intros b0; [destruct Hin|].
  cbn [group_by_shard]. destruct Hin as [->|Hin].
  - unfold shard_of. now rewrite Hint.
  - destruct (shard_of shardSize a) as [shard|e] eqn:E; [now apply IH|].
    apply flow_failure_shard_of in E as Hf. unfold shard_of in E.
    destruct (Py.int 16 (Py.suffix 8 a)); [discriminate|].
    now injection E as <-.
Qed.

(** X7: an address whose last eight characters are not a hexadecimal
    literal stops the run when its amount group is reached: [fund] raises
    [ValueError] right after the start line of the group, and no flow is
    launched for any address of that group or of the groups after it. *)
Theorem for_amounts_aborts_on_non_hex_address {L : Library} (fuel : nat)
  (endpoint : Endpoint.t) (genesisId : Identity) (flow_world : flow -> world)
  (net shardSize amount : Z) (addrs : list string)
  (rest : list (Z * list string)) (addr : string) (w : world) :
  In addr addrs ->
  Py.int 16 (Py.suffix 8 addr) = None ->
  for_amounts fuel endpoint genesisId flow_world net shardSize
    ((amount, addrs) :: rest) w
  = (Raise ValueError,
     mkWorld (script w) (entropy w)
       (trace w ++ [EPrint (MsgStart amount (List.length addrs))])).
Proof.
  intros Hin Hint. cbn [for_amounts]. unfold bind at 1. cbn [print emit].
  unfold bind at 1.
  rewrite (group_by_shard_fails shardSize addrs [] addr Hin Hint).
  reflexivity.
Qed.

Lemma for_amounts_aborts_on_non_hex_address_witness :
  for_amounts (L := demo_library) 5 demo_endpoint demo_genesis demo_flow_world
    3 4 [(5, [demo_addr1; "0xnothexatall"]); (7, [demo_addr2])]
    (mkWorld [] [] [])
  = (Raise ValueError, mkWorld [] [] ([] ++ [EPrint (MsgStart 5 2)])).
Proof.
  exact (for_amounts_aborts_on_non_hex_address (L := demo_library) 5
           demo_endpoint demo_genesis demo_flow_world 3 4 5
           [demo_addr1; "0xnothexatall"] [(7, [demo_addr2])] "0xnothexatall"
           (mkWorld [] [] []) (or_intror (or_introl eq_refl)) eq_refl).
Defined.

Lemma collect_raises {A : Type} (os : list (outcome A)) (e0 : exn) :
  In (Raise e0) os -> exists e, collect os = Raise e.
Proof.
  induction os as [|o os IH]; [intros []|]. intros [->|Hin].
  - cbn. now exists e0.
  - destruct (IH Hin) as [e He]. cbn. rewrite He.
    destruct o as [a|e1|]; [now exists e|now exists e1|now exists e].
Qed.

(** X8: when a flow of a batch raises, [fund] raises with an exception of
    one of the flows of the batch, right after the launches: the results
    of the other flows of the batch are never printed and the addresses
    still queued are never funded. *)
Theorem rounds_abort_when_a_flow_raises {L : Library} (fuel : nat)
  (endpoint : Endpoint.t) (genesisId : Identity) (flow_world : flow -> world)
  (n : nat) (net shardSize amount : Z) (byShard byShard' : list (Z * list string))
  (toFund : list string) (f : flow) (e0 : exn) (w : world) :
  queues_ok shardSize byShard ->
  pop_round byShard = (toFund, byShard') ->
  In f (valid_flows net shardSize amount toFund) ->
  run_flow fuel endpoint genesisId flow_world f = Raise e0 ->
  exists e,
    In (Raise e)
       (map (run_flow fuel endpoint genesisId flow_world)
            (valid_flows net shardSize amount toFund)) /\
    rounds fuel endpoint genesisId flow_world (S n) net shardSize amount byShard w
    = (Raise e,
       mkWorld (script w) (entropy w)
         (trace w ++ prep_events toFund
            ++ map ELaunch (valid_flows net shardSize amount toFund))).
Proof.
  intros Hok Hpop Hf Hrun.
  destruct (collect_raises
              (map (run_flow fuel endpoint genesisId flow_world)
                   (valid_flows net shardSize amount toFund)) e0) as [e He].
  { rewrite <- Hrun. now apply in_map. }
  exists e. split; [now apply collect_raise|].
  cbn [rounds]. rewrite Hpop.
  destruct toFund as [|a toFund]; [destruct Hf|].
  unfold bind at 1.
  rewrite make_futures_spec by exact (pop_round_popped _ _ _ _ Hok Hpop).
  cbn [app]. unfold bind at 1. rewrite gather_run, He.
  cbn [script entropy trace]. now rewrite <- app_assoc.
Qed.

Lemma rounds_abort_when_a_flow_raises_witness :
  let dest := mkAddress (repeat Byte.x00 19 ++ [Byte.xa1])%list 0 in
  let bad_world := fun _ : flow => mkWorld [Returned (JStr "zz")] [] [] in
  exists e,
    In (Raise e)
       (map (run_flow (L := demo_library) 5 demo_endpoint demo_genesis bad_world)
            (valid_flows (L := demo_library) 3 4 5 [demo_addr1])) /\
    rounds (L := demo_library) 5 demo_endpoint demo_genesis bad_world 3 3 4 5
      [(0, [demo_addr2; demo_addr1])] (mkWorld [] [] [])
    = (Raise e,
       mkWorld [] []
         ([] ++ prep_events (L := demo_library) [demo_addr1]
            ++ map ELaunch (valid_flows (L := demo_library) 3 4 5 [demo_addr1]))).
Proof.
  intros dest bad_world.
  refine (rounds_abort_when_a_flow_raises (L := demo_library) 5 demo_endpoint
            demo_genesis bad_world 2 3 4 5 [(0, [demo_addr2; demo_addr1])]
            [(0, [demo_addr2])] [demo_addr1] (mkFlow dest 3 0 5) ValueError
            (mkWorld [] [] []) _ eq_refl (or_introl eq_refl) eq_refl).
  intros key queue [H|[]] addr Hin. injection H as <- <-.
  destruct Hin as [<-|[<-|[]]]; reflexivity.
Defined.

(** ** A complete run *)

Lemma launched_app (t1 t2 : list event) :
  launched (t1 ++ t2) = (launched t1 ++ launched t2)%list.
Proof. apply flat_map_app. Qed.

Lemma finished_app (t1 t2 : list event) :
  finished (t1 ++ t2) = (finished t1 ++ finished t2)%list.
Proof. apply flat_map_app. Qed.

Lemma launched_quiet (t : list event) :
  Forall is_quiet t -> launched t = [] /\ finished t = [].
Proof.
  induction 1 as [|ev t Hev _ [IH1 IH2]]; [now split|].
  destruct ev; cbn in *; try contradiction; now split.
Qed.

Lemma launched_launches (fs : list flow) :
  launched (map ELaunch fs) = fs /\ finished (map ELaunch fs) = [].
Proof.
  induction fs as [|f fs [IH1 IH2]]; [now split|].
  cbn. fold (launched (map ELaunch fs)). fold (finished (map ELaunch fs)).
  now rewrite IH1, IH2.
Qed.

Lemma launched_dones (fs : list flow) :
  launched (map EDone fs) = [] /\ finished (map EDone fs) = fs.
Proof.
  induction fs as [|f fs [IH1 IH2]]; [now split|].
  cbn. fold (launched (map EDone fs)). fold (finished (map EDone fs)).
  now rewrite IH1, IH2.
Qed.

Lemma prep_events_quiet {L : Library} (toFund : list string) :
  Forall is_quiet (prep_events toFund).
Proof.
  induction toFund as [|a toFund IH]; [constructor|].
  unfold prep_events in *. cbn [map]. constructor; [|exact IH].
  now destruct (createFrom (Py.drop 2 a)).
Qed.

Lemma result_lines_quiet (results : list (json * Z)) (idx : nat) :
  Forall is_quiet (result_lines idx results).
Proof.
  revert idx. induction results as [|[txId height] rest IH]; intros idx;
    [constructor|].
  cbn. constructor; [exact I|apply IH].
Qed.

Lemma print_results_run {L : Library} (results : list (json * Z)) (idx : nat)
  (w : world) :
  print_results idx results w
  = (Done tt,
     mkWorld (script w) (entropy w) (trace w ++ result_lines idx results)).
Proof.
  revert idx w. induction results as [|[txId height] rest IH]; intros idx w.
  - cbn. rewrite app_nil_r. now destruct w.
  - cbn [print_results result_lines]. unfold bind. cbn [print emit].
    rewrite IH. cbn [script entropy trace]. now rewrite <- app_assoc.
Qed.

Lemma collect_all_done {A : Type} (os : list (outcome A)) :
  (forall o, In o os -> exists a, o = Done a) ->
  exists l, collect os = Done l.
Proof.
  induction os as [|o os IH]; intros H; [now exists []|].
  destruct (H o (or_introl eq_refl)) as [a ->].
  destruct IH as [l Hl]; [intros o' Ho'; apply H; now right|].
  exists (a :: l). cbn. now rewrite Hl.
Qed.

Lemma pop_round_nothing (byShard byShard' : list (Z * list string)) :
  pop_round byShard = ([], byShard') -> all_addresses byShard = [].
Proof.
  revert byShard'. induction byShard as [|[shard addrs] rest IH];
    intros byShard'; [reflexivity|].
  cbn. destruct (pop_round rest) as [toFund0 rest'].
  destruct addrs as [|a addrs]; [|discriminate].
  intros H. injection H as -> _. unfold all_addresses in *. cbn.
  exact (IH _ eq_refl).
Qed.

Lemma printed_results_app (t1 t2 : list event) :
  printed_results (t1 ++ t2)
  = (printed_results t1 ++ printed_results t2)%list.
Proof. apply flat_map_app. Qed.

Lemma printed_results_none (t : list event) :
  Forall (fun ev => forall idx height txId,
                      ev <> EPrint (MsgResult idx height txId)) t ->
  printed_results t = [].
Proof.
  induction 1 as [|ev t Hev _ IH]; [reflexivity|].
  destruct ev as [| |m| |]; try exact IH.
  destruct m; try exact IH. now destruct (Hev idx height txId).
Qed.

Lemma printed_results_prep {L : Library} (toFund : list string) :
  printed_results (prep_events toFund) = [].
Proof.
  apply printed_results_none. unfold prep_events. apply Forall_map.
  apply Forall_forall. intros a _.
  destruct (createFrom (Py.drop 2 a)); discriminate.
Qed.

Lemma printed_results_flows (fs : list flow) :
  printed_results (map ELaunch fs) = [] /\ printed_results (map EDone fs) = [].
Proof.
  split; apply printed_results_none, Forall_map, Forall_forall;
    intros f _; discriminate.
Qed.

Lemma printed_results_lines (results : list (json * Z)) (idx : nat) :
  List.length (printed_results (result_lines idx results))
  = List.length results.
Proof.
  revert idx. induction results as [|[txId height] rest IH]; intros idx;
    [reflexivity|].
  cbn. fold (printed_results (result_lines (S idx) rest)). now rewrite IH.
Qed.

Lemma rounds_complete {L : Library} (fuel : nat) (endpoint : Endpoint.t)
  (genesisId : Identity) (flow_world : flow -> world)
  (net shardSize amount : Z) :
  (forall f, exists r, run_flow fuel endpoint genesisId flow_world f = Done r) ->
  forall n byShard w,
    queues_ok shardSize byShard ->
    (List.length (all_addresses byShard) < n)%nat ->
    exists t,
      rounds fuel endpoint genesisId flow_world n net shardSize amount byShard w
      = (Done tt, mkWorld (script w) (entropy w) (trace w ++ t)) /\
      launched t
      = flat_map (valid_flows net shardSize amount) (batches n byShard) /\
      finished t = launched t /\
      List.length (printed_results t) = List.length (launched t) /\
      Permutation (List.concat (batches n byShard)) (all_addresses byShard).
Proof.
  intros Hflows. induction n as [|n IH]; intros byShard w Hok Hlen; [lia|].
  cbn [rounds batches].
  destruct (pop_round byShard) as [toFund byShard'] eqn:Hpop.
  destruct toFund as [|a toFund].
  - exists []. rewrite app_nil_r. split; [now destruct w|].
    split; [reflexivity|]. split; [reflexivity|]. split; [reflexivity|].
    rewrite (pop_round_nothing _ _ Hpop). reflexivity.
  - pose proof (pop_round_perm _ _ _ Hpop) as Hperm.
    assert (Hlen' : (List.length (all_addresses byShard') < n)%nat).
    { apply Permutation_length in Hperm. rewrite List.length_app in Hperm.
      cbn [List.length] in Hperm. lia. }
    set (fs := valid_flows net shardSize amount (a :: toFund)).
    destruct (collect_all_done
                (map (run_flow fuel endpoint genesisId flow_world) fs))
      as [results Hres].
    { intros o Ho. apply in_map_iff in Ho as [f [<- _]]. apply Hflows. }
    unfold bind at 1.
    rewrite make_futures_spec by exact (pop_round_popped _ _ _ _ Hok Hpop).
    cbn [app]. fold fs. unfold bind at 1. rewrite gather_run, Hres.
    unfold bind at 1. cbn [print emit]. unfold bind at 1.
    rewrite print_results_run. cbn [script entropy trace].
    match goal with
    | |- context [rounds _ _ _ _ n _ _ _ byShard' ?w0] =>
        destruct (IH byShard' w0 (pop_round_ok _ _ _ _ Hok Hpop) Hlen')
          as (t' & Hrun & Hl & Hf & Hc & Hp)
    end.
    rewrite Hrun. cbn [script entropy trace].
    exists (prep_events (a :: toFund) ++ map ELaunch fs ++ map EDone fs
              ++ [EPrint MsgBlank] ++ result_lines 0 results ++ t')%list.
    split; [now rewrite <- !app_assoc|].
    destruct (launched_quiet _ (prep_events_quiet (a :: toFund))) as [P1 P2].
    destruct (launched_launches fs) as [L1 L2].
    destruct (launched_dones fs) as [D1 D2].
    destruct (launched_quiet _ (result_lines_quiet results 0)) as [R1 R2].
    destruct (printed_results_flows fs) as [Q1 Q2].
    rewrite !launched_app, !finished_app, P1, P2, L1, L2, D1, D2, R1, R2.
    rewrite !printed_results_app, printed_results_prep, Q1, Q2.
    cbn [app launched finished printed_results flat_map].
    split; [now rewrite Hl|]. split; [now rewrite Hf|]. split.
    + rewrite !List.length_app, printed_results_lines, Hc.
      apply collect_length in Hres. rewrite Hres, length_map. reflexivity.
    + cbn [List.concat]. rewrite Hperm. apply Permutation_app_head, Hp.
Qed.

Lemma group_by_shard_total (shardSize : Z) (addrs : list string)
  (b0 : list (Z * list string)) :
  (forall a, In a addrs -> Py.int 16 (Py.suffix 8 a) <> None) ->
  exists b, group_by_shard shardSize addrs b0 = Ok b.
Proof.
  revert b0. induction addrs as [|addr addrs IH]; intros b0 H;
    [now exists b0|].
  cbn [group_by_shard]. unfold shard_of at 1.
  destruct (Py.int 16 (Py.suffix 8 addr)) as [n|] eqn:E.
  - apply IH. intros a Ha. apply H. now right.
  - now destruct (H addr (or_introl eq_refl)).
Qed.

Lemma flat_map_valid_flows {L : Library} (net shardSize amount : Z)
  (bs : list (list string)) :
  flat_map (valid_flows net shardSize amount) bs
  = valid_flows net shardSize amount (List.concat bs).
Proof.
  induction bs as [|b bs IH]; [reflexivity|].
  cbn [flat_map List.concat]. now rewrite valid_flows_app, IH.
Qed.

Lemma reached_all (g : list (Z * list string)) :
  well_tailed g = true -> reached g = g.
Proof.
  induction g as [|[amount addrs] g IH]; [reflexivity|].
  cbn [well_tailed forallb snd reached]. fold (well_tailed g).
  intros H. apply andb_true_iff in H as [Ha Hg]. rewrite Ha. now rewrite IH.
Qed.




Lemma forallb_false_In {A : Type} (f : A -> bool) (l : list A) :
  forallb f l = false -> exists x, In x l /\ f x = false.
Proof.
  induction l as [|a l IH]; [discriminate|]. cbn [forallb].
  destruct (f a) eqn:E.
  - intros H. destruct (IH H) as [x [Hin Hx]]. exists x. split; [now right|auto].
  - intros _. exists a. split; [now left|exact E].
Qed.

Lemma for_amounts_runs {L : Library} (fuel : nat) (endpoint : Endpoint.t)
  (genesisId : Identity) (flow_world : flow -> world) (net shardSize : Z) :
  (forall f, exists r, run_flow fuel endpoint genesisId flow_world f = Done r) ->
  forall items w,
    (forall amount addrs, In (amount, addrs) items ->
       (List.length addrs < fuel)%nat) ->
    exists t,
      for_amounts fuel endpoint genesisId flow_world net shardSize items w
      = (if well_tailed items then Done tt else Raise ValueError,
         mkWorld (script w) (entropy w) (trace w ++ t)) /\
      Permutation (launched t) (flows_of_groups net shardSize (reached items)) /\
      finished t = launched t /\
      List.length (printed_results t) = List.length (launched t).
Proof.
  intros Hflows. induction items as [|[amount addrs] items IH]; intros w H.
  - exists []. rewrite app_nil_r. split; [now destruct w|]. now repeat split.
  - pose proof (H amount addrs (or_introl eq_refl)) as Hlen.
    cbn [well_tailed forallb snd reached]. fold (well_tailed items).
    destruct (forallb hex_tail addrs) eqn:Htails; cbn [andb].
    + assert (Hhex : forall a, In a addrs ->
                       Py.int 16 (Py.suffix 8 a) <> None).
      { intros a Ha. apply (proj1 (forallb_forall _ _) Htails) in Ha.
        unfold hex_tail in Ha.
        destruct (Py.int 16 (Py.suffix 8 a)); [discriminate|discriminate]. }
      destruct (group_by_shard_total shardSize addrs [] Hhex) as [byShard Hg].
      destruct (group_by_shard_ok _ _ _ _ Hg (queues_ok_nil _) (NoDup_nil _))
        as [Hok _].
      pose proof (group_by_shard_perm _ _ _ _ Hg) as Hperm. cbn in Hperm.
      cbn [for_amounts]. unfold bind at 1. cbn [print emit].
      unfold bind at 1. rewrite Hg. cbn [lift ret]. unfold bind at 1.
      match goal with
      | |- context [rounds _ _ _ _ fuel net shardSize amount byShard ?w0] =>
          destruct (rounds_complete fuel endpoint genesisId flow_world net
                      shardSize amount Hflows fuel byShard w0 Hok)
            as (t1 & Hrun & Hl & Hf & Hc & Hp)
      end.
      { apply Permutation_length in Hperm. now rewrite Hperm. }
      rewrite Hrun. cbn [script entropy trace].
      match goal with
      | |- context [for_amounts _ _ _ _ net shardSize items ?w0] =>
          destruct (IH w0) as (t2 & Hrun2 & Hl2 & Hf2 & Hc2)
      end.
      { intros amount' addrs' Hin. apply (H amount' addrs'). now right. }
      rewrite Hrun2. cbn [script entropy trace].
      exists ([EPrint (MsgStart amount (List.length addrs))] ++ t1 ++ t2)%list.
      split; [now rewrite <- !app_assoc|].
      rewrite !launched_app, !finished_app, !printed_results_app.
      cbn [launched finished printed_results flat_map app].
      split; [|split; [now rewrite Hf, Hf2
                      |now rewrite !List.length_app, Hc, Hc2]].
      unfold flows_of_groups. cbn [flat_map fst snd].
      apply Permutation_app; [|exact Hl2].
      rewrite Hl, (flat_map_valid_flows net shardSize amount).
      unfold valid_flows. apply Permutation_flat_map. now rewrite Hp.
    + destruct (forallb_false_In _ _ Htails) as [addr [Hin Haddr]].
      assert (Hint : Py.int 16 (Py.suffix 8 addr) = None).
      { unfold hex_tail in Haddr.
        destruct (Py.int 16 (Py.suffix 8 addr)); [discriminate|reflexivity]. }
      exists [EPrint (MsgStart amount (List.length addrs))].
      cbn [for_amounts]. unfold bind at 1. cbn [print emit].
      unfold bind at 1.
      rewrite (group_by_shard_fails shardSize addrs [] addr Hin Hint).
      split; [reflexivity|]. now repeat split.
Qed.

Lemma networkInfo_returned (fuel : nat) (endpoint : Endpoint.t)
  (field : string) (info value : json) (n : Z) (rest : list rpc_outcome)
  (ent : list Z) (tr : list event) :
  fuel <> O -> subscript info field = Ok value -> int16 value = Ok n ->
  (resp <- Endpoint.sendRequest fuel endpoint NetworkInfo ;;
   value <- lift (subscript resp field) ;;
   lift (int16 value)) (mkWorld (Returned info :: rest) ent tr)
  = (Done n,
     mkWorld rest ent
       (tr ++ [ERequest (Endpoint.url endpoint) NetworkInfo (Returned info)])).
Proof.
  intros Hf Hs Hi. unfold bind at 1. destruct fuel; [contradiction|].
  cbn [Endpoint.sendRequest]. unfold bind at 1. cbn [client_request script].
  cbn [ret]. unfold bind. rewrite Hs. cbn [lift ret]. now rewrite Hi.
Qed.

Lemma fund_runs {L : Library} (fuel : nat) (endpoint : Endpoint.t)
  (genesisId : Identity) (flow_world : flow -> world)
  (addrByAmount : list (Z * list string)) (info1 info2 j1 j2 : json)
  (net shardSize : Z) (rest : list rpc_outcome) (ent : list Z)
  (tr : list event) :
  subscript info1 "networkId" = Ok j1 -> int16 j1 = Ok net ->
  subscript info2 "shardSize" = Ok j2 -> int16 j2 = Ok shardSize ->
  fuel <> O ->
  (forall f, exists r, run_flow fuel endpoint genesisId flow_world f = Done r) ->
  (forall amount addrs, In (amount, addrs) addrByAmount ->
     (List.length addrs < fuel)%nat) ->
  exists t,
    fund fuel endpoint genesisId flow_world addrByAmount
      (mkWorld (Returned info1 :: Returned info2 :: rest) ent tr)
    = (if well_tailed addrByAmount then Done tt else Raise ValueError,
       mkWorld rest ent
         (tr ++ [ERequest (Endpoint.url endpoint) NetworkInfo (Returned info1);
                 ERequest (Endpoint.url endpoint) NetworkInfo (Returned info2)]
             ++ t)) /\
    Permutation (launched t)
      (flows_of_groups net shardSize (reached addrByAmount)) /\
    finished t = launched t /\
    List.length (printed_results t) = List.length (launched t).
Proof.
  intros H1 H2 H3 H4 Hf Hflows Hitems. unfold fund.
  unfold Endpoint.getNetworkId, Endpoint.getShardSize.
  unfold bind at 1.
  rewrite (networkInfo_returned fuel endpoint "networkId" info1 j1 net)
    by assumption.
  unfold bind at 1.
  rewrite (networkInfo_returned fuel endpoint "shardSize" info2 j2 shardSize)
    by assumption.
  match goal with
  | |- context [for_amounts _ _ _ _ net shardSize addrByAmount ?w0] =>
      destruct (for_amounts_runs fuel endpoint genesisId flow_world net
                  shardSize Hflows addrByAmount w0 Hitems)
        as (t & Hrun & Hl & Hfin & Hc)
  end.
  exists t. rewrite Hrun. cbn [script entropy trace].
  split; [now rewrite <- !app_assoc|]. now repeat split.
Qed.

(** X9: when the two [networkInfo] requests are answered at the first
    attempt with a network id and a shard size, every flow returns and
    enough rounds are allowed, [fund] goes through the amount groups in
    order up to the first group that holds an address whose last eight
    characters are not a hexadecimal literal. For the groups before it,
    it launches one flow for each address that [Address.createFrom]
    accepts, with the amount of its group, and no other flow; every flow
    launched has ended and there are as many result lines as flows. It
    returns when there is no such group (every group was then gone
    through) and raises [ValueError] otherwise. *)
Theorem fund_launches_each_parsable_address_once {L : Library} (fuel : nat)
  (endpoint : Endpoint.t) (genesisId : Identity) (flow_world : flow -> world)
  (addrByAmount : list (Z * list string)) (info1 info2 j1 j2 : json)
  (net shardSize : Z) (rest : list rpc_outcome) (ent : list Z)
  (tr : list event) :
  subscript info1 "networkId" = Ok j1 -> int16 j1 = Ok net ->
  subscript info2 "shardSize" = Ok j2 -> int16 j2 = Ok shardSize ->
  fuel <> O ->
  (forall f, exists r, run_flow fuel endpoint genesisId flow_world f = Done r) ->
  (forall amount addrs, In (amount, addrs) addrByAmount ->
     (List.length addrs < fuel)%nat) ->
  exists t,
    fund fuel endpoint genesisId flow_world addrByAmount
      (mkWorld (Returned info1 :: Returned info2 :: rest) ent tr)
    = (if well_tailed addrByAmount then Done tt else Raise ValueError,
       mkWorld rest ent
         (tr ++ [ERequest (Endpoint.url endpoint) NetworkInfo (Returned info1);
                 ERequest (Endpoint.url endpoint) NetworkInfo (Returned info2)]
             ++ t)) /\
    Permutation (launched t)
      (flows_of_groups net shardSize (reached addrByAmount)) /\
    finished t = launched t /\
    List.length (printed_results t) = List.length (launched t) /\
    (well_tailed addrByAmount = true -> reached addrByAmount = addrByAmount).
Proof.
  intros H1 H2 H3 H4 Hf Hflows Hitems.
  destruct (fund_runs fuel endpoint genesisId flow_world addrByAmount info1
              info2 j1 j2 net shardSize rest ent tr H1 H2 H3 H4 Hf Hflows
              Hitems) as (t & Hrun & Hl & Hfin & Hc).
  exists t. repeat split; try assumption. apply reached_all.
Qed.

Lemma demo_flows_return (f : flow) :
  exists r,
    run_flow (L := demo_library) 5 demo_endpoint demo_genesis demo_flow_world f
    = Done r.
Proof. eexists. vm_compute. reflexivity. Qed.

Lemma fund_launches_each_parsable_address_once_witness :
  exists t,
    fund (L := demo_library) 5 demo_endpoint demo_genesis demo_flow_world
      [(5, [demo_addr1; "0x00000007"; demo_addr2]);
       (7, [demo_addr1; "0xnothexatall"]); (9, [demo_addr2])]
      (mkWorld [Returned demo_info; Returned demo_info] [] [])
    = (Raise ValueError,
       mkWorld [] []
         ([] ++ [ERequest (Endpoint.url demo_endpoint) NetworkInfo
                   (Returned demo_info);
                 ERequest (Endpoint.url demo_endpoint) NetworkInfo
                   (Returned demo_info)]
             ++ t)) /\
    Permutation (launched t)
      (flows_of_groups (L := demo_library) 3 4
         [(5, [demo_addr1; "0x00000007"; demo_addr2])]) /\
    finished t = launched t /\
    List.length (printed_results t) = List.length (launched t).
Proof.
  destruct (fund_launches_each_parsable_address_once (L := demo_library) 5
              demo_endpoint demo_genesis demo_flow_world
              [(5, [demo_addr1; "0x00000007"; demo_addr2]);
               (7, [demo_addr1; "0xnothexatall"]); (9, [demo_addr2])]
              demo_info demo_info (JStr "0x3") (JStr "0x4") 3 4 [] [] []
              eq_refl eq_refl eq_refl eq_refl ltac:(discriminate)
              demo_flows_return)
    as (t & Hrun & Hl & Hf & Hc & _).
  - intros amount addrs [H|[H|[H|[]]]]; injection H as <- <-; cbn; lia.
  - exists t. repeat split; assumption.
Defined.

(** ** From the file to the flows *)











(** ** The order of the flows of one shard *)

Lemma of_shard_app (k : Z) (fs1 fs2 : list flow) :
  of_shard k (fs1 ++ fs2) = (of_shard k fs1 ++ of_shard k fs2)%list.
Proof. apply filter_app. Qed.

Lemma of_shard_valid_flows {L : Library} (net shardSize amount : Z)
  (k : Z) (l : list string) :
  (forall a, In a l -> shard_of shardSize a = Ok k) ->
  of_shard k (valid_flows net shardSize amount l)
  = valid_flows net shardSize amount l.
Proof.
  induction l as [|a l IH]; intros H; [reflexivity|].
  change (a :: l) with ([a] ++ l)%list.
  rewrite valid_flows_app, of_shard_app, IH by (intros b Hb; apply H; now right).
  f_equal. unfold valid_flows. cbn [flat_map].
  rewrite (H a (or_introl eq_refl)).
  destruct (createFrom (Py.drop 2 a)) as [dest|e]; [|reflexivity].
  cbn. now rewrite Z.eqb_refl.
Qed.

Lemma of_shard_other {L : Library} (net shardSize amount : Z)
  (k : Z) (l : list string) :
  (forall a, In a l -> exists key, shard_of shardSize a = Ok key /\ key <> k) ->
  of_shard k (valid_flows net shardSize amount l) = [].
Proof.
  induction l as [|a l IH]; intros H; [reflexivity|].
  change (a :: l) with ([a] ++ l)%list.
  rewrite valid_flows_app, of_shard_app, IH by (intros b Hb; apply H; now right).
  rewrite app_nil_r. unfold valid_flows. cbn [flat_map].
  destruct (H a (or_introl eq_refl)) as [key [-> Hne]].
  destruct (createFrom (Py.drop 2 a)) as [dest|e]; [|reflexivity].
  cbn. now destruct (Z.eqb_spec key k).
Qed.

Lemma pop_round_other_shards (shardSize : Z)
  (byShard byShard' : list (Z * list string)) (toFund : list string) (k : Z) :
  queues_ok shardSize byShard -> NoDup (map fst byShard) ->
  ~ In k (map fst byShard) ->
  pop_round byShard = (toFund, byShard') ->
  forall a, In a toFund ->
            exists key, shard_of shardSize a = Ok key /\ key <> k.
Proof.
  intros Hok Hnd Hk Hpop a Ha.
  destruct (pop_round_shards _ _ _ _ Hok Hnd Hpop) as [ks [E [_ Hincl]]].
  apply (in_map (shard_of shardSize)) in Ha. rewrite E in Ha.
  apply in_map_iff in Ha as [key [Hkey Hin]].
  exists key. split; [now symmetry|]. intros ->. now apply Hk, Hincl.
Qed.

Lemma valid_flows_cons {L : Library} (net shardSize amount : Z)
  (a : string) (l : list string) :
  valid_flows net shardSize amount (a :: l)
  = (valid_flows net shardSize amount [a]
       ++ valid_flows net shardSize amount l)%list.
Proof. exact (valid_flows_app net shardSize amount [a] l). Qed.

Lemma pop_round_of_shard {L : Library} (net shardSize amount : Z)
  (byShard byShard' : list (Z * list string)) (toFund : list string)
  (k : Z) (q : list string) :
  queues_ok shardSize byShard -> NoDup (map fst byShard) ->
  In (k, q) byShard ->
  pop_round byShard = (toFund, byShard') ->
  of_shard k (valid_flows net shardSize amount toFund)
  = valid_flows net shardSize amount
      (match q with [] => [] | _ :: _ => [List.last q EmptyString] end) /\
  In (k, removelast q) byShard'.
Proof.
  revert toFund byShard'.
  induction byShard as [|[k0 q0] rest IH]; intros toFund byShard' Hok Hnd Hin;
    [destruct Hin|].
  cbn [pop_round]. destruct (pop_round rest) as [tf0 rest'] eqn:Hrest.
  cbn in Hnd. apply NoDup_cons_iff in Hnd as [Hk0 Hnd].
  assert (Hok' : queues_ok shardSize rest)
    by (intros key queue H; apply (Hok key queue); now right).
  assert (Hlast : forall key queue,
             In (key, queue) ((k0, q0) :: rest) -> queue <> [] ->
             shard_of shardSize (List.last queue EmptyString) = Ok key).
  { intros key queue H Hne. apply (Hok key queue H). now apply last_In. }
  destruct Hin as [E|Hin].
  - injection E as -> ->.
    pose proof (pop_round_other_shards _ _ _ _ k Hok' Hnd Hk0 Hrest) as Hoth.
    specialize (Hlast k q (or_introl eq_refl)).
    remember (List.last q EmptyString) as lq.
    destruct q as [|a q]; intros H; injection H as <- <-.
    + split; [now apply of_shard_other|now left].
    + split; [|now left].
      rewrite valid_flows_cons, of_shard_app, (of_shard_other _ _ _ _ tf0 Hoth).
      rewrite app_nil_r. apply of_shard_valid_flows.
      intros b [<-|[]]. apply Hlast. discriminate.
  - assert (Hne : k0 <> k).
    { intros ->. apply Hk0. change k with (fst (k, q)). now apply in_map. }
    destruct (IH _ _ Hok' Hnd Hin eq_refl) as [IH1 IH2].
    specialize (Hlast k0 q0 (or_introl eq_refl)).
    remember (List.last q0 EmptyString) as lq.
    destruct q0 as [|a0 q0]; intros H; injection H as <- <-.
    + split; [exact IH1|now right].
    + split; [|now right].
      rewrite valid_flows_cons, of_shard_app, IH1.
      rewrite of_shard_other; [reflexivity|].
      intros b [<-|[]]. exists k0. split; [|exact Hne].
      apply Hlast. discriminate.
Qed.

Lemma rev_last (q : list string) :
  q <> [] -> rev q = List.last q EmptyString :: rev (removelast q).
Proof.
  intros H. rewrite (app_removelast_last EmptyString H) at 1.
  now rewrite rev_app_distr.
Qed.

Lemma batches_of_shard {L : Library} (net shardSize amount : Z) (k : Z) :
  forall n byShard q,
    queues_ok shardSize byShard -> NoDup (map fst byShard) ->
    In (k, q) byShard ->
    (List.length (all_addresses byShard) < n)%nat ->
    of_shard k (flat_map (valid_flows net shardSize amount) (batches n byShard))
    = valid_flows net shardSize amount (rev q).
Proof.
  induction n as [|n IH]; intros byShard q Hok Hnd Hin Hlen; [lia|].
  cbn [batches]. destruct (pop_round byShard) as [toFund byShard'] eqn:Hpop.
  destruct (pop_round_of_shard net shardSize amount _ _ _ k q Hok Hnd Hin Hpop)
    as [Hround Hin'].
  destruct toFund as [|a toFund].
  - assert (Hq : q = []).
    { pose proof (pop_round_nothing _ _ Hpop) as Hall.
      destruct q as [|b q]; [reflexivity|].
      assert (Hb : In b (all_addresses byShard))
        by (apply in_all_addresses; exists k, (b :: q); split; [exact Hin|now left]).
      rewrite Hall in Hb. destruct Hb. }
    subst q. reflexivity.
  - pose proof (pop_round_perm _ _ _ Hpop) as Hperm.
    assert (Hlen' : (List.length (all_addresses byShard') < n)%nat).
    { apply Permutation_length in Hperm. rewrite List.length_app in Hperm.
      cbn [List.length] in Hperm. lia. }
    cbn [flat_map]. rewrite of_shard_app, Hround.
    rewrite (IH byShard' (removelast q) (pop_round_ok _ _ _ _ Hok Hpop)
               ltac:(now rewrite (pop_round_keys _ _ _ Hpop)) Hin' Hlen').
    destruct q as [|b q]; [reflexivity|].
    rewrite (rev_last (b :: q)) by discriminate.
    change (List.last (b :: q) EmptyString :: rev (removelast (b :: q)))
      with ([List.last (b :: q) EmptyString] ++ rev (removelast (b :: q)))%list.
    now rewrite valid_flows_app.
Qed.

(** X11: within a shard the addresses are funded last queued first: when
    every flow returns, the flows that the rounds of one amount launch for
    shard [k], taken in the order of the launches, are those of the queue
    of [k] read backwards. *)
Theorem rounds_fund_each_queue_backwards {L : Library} (fuel : nat)
  (endpoint : Endpoint.t) (genesisId : Identity) (flow_world : flow -> world)
  (n : nat) (net shardSize amount : Z) (byShard : list (Z * list string))
  (k : Z) (q : list string) (w : world) :
  (forall f, exists r, run_flow fuel endpoint genesisId flow_world f = Done r) ->
  queues_ok shardSize byShard -> NoDup (map fst byShard) ->
  In (k, q) byShard ->
  (List.length (all_addresses byShard) < n)%nat ->
  exists t,
    rounds fuel endpoint genesisId flow_world n net shardSize amount byShard w
    = (Done tt, mkWorld (script w) (entropy w) (trace w ++ t)) /\
    of_shard k (launched t) = valid_flows net shardSize amount (rev q).
Proof.
  intros Hflows Hok Hnd Hin Hlen.
  destruct (rounds_complete fuel endpoint genesisId flow_world net shardSize
              amount Hflows n byShard w Hok Hlen) as (t & Hrun & Hl & _).
  exists t. split; [exact Hrun|]. rewrite Hl.
  now apply batches_of_shard.
Qed.

Lemma rounds_fund_each_queue_backwards_witness :
  exists t,
    rounds (L := demo_library) 5 demo_endpoint demo_genesis demo_flow_world
      5 3 4 5 [(0, [demo_addr1; demo_addr2])] (mkWorld [] [] [])
    = (Done tt, mkWorld [] [] ([] ++ t)) /\
    of_shard 0 (launched t)
    = valid_flows (L := demo_library) 3 4 5 (rev [demo_addr1; demo_addr2]).
Proof.
  refine (rounds_fund_each_queue_backwards (L := demo_library) 5 demo_endpoint
            demo_genesis demo_flow_world 5 3 4 5
            [(0, [demo_addr1; demo_addr2])] 0 [demo_addr1; demo_addr2]
            (mkWorld [] [] []) demo_flows_return _ _ (or_introl eq_refl) _).
  - intros key queue [H|[]] addr Hin. injection H as <- <-.
    destruct Hin as [<-|[<-|[]]]; reflexivity.
  - repeat constructor. intros [].
  - cbn. lia.
Defined.

(** ** Result lines are printed after the batch *)

Lemma settled_throughout_app (t1 t2 : list event) (cur : list Z) :
  settled_throughout cur (t1 ++ t2) <->
  settled_throughout cur t1 /\ settled_throughout (in_flight t1 cur) t2.
Proof.
  revert cur. induction t1 as [|ev t1 IH]; intros cur; cbn; [tauto|].
  rewrite IH. tauto.
Qed.

Lemma settled_throughout_prefix (t : list event) (cur : list Z)
  (p s : list event) (ev : event) :
  settled_throughout cur t -> t = (p ++ ev :: s)%list -> is_result ev ->
  in_flight p cur = [].
Proof.
  intros H -> Hev. apply settled_throughout_app in H as [_ H].
  cbn in H. now apply H.
Qed.

Lemma settled_throughout_quiet (t : list event) :
  Forall is_quiet t -> settled_throughout [] t.
Proof.
  induction 1 as [|ev t Hev _ IH]; cbn; [exact I|]. split; [reflexivity|].
  destruct ev; cbn in *; try contradiction; exact IH.
Qed.

Lemma settled_throughout_flows (t : list event) (cur : list Z) :
  Forall (fun ev => ~ is_result ev) t -> settled_throughout cur t.
Proof.
  intros H. revert cur. induction H as [|ev t Hev _ IH]; intros cur; cbn;
    [exact I|].
  split; [intros Hr; now destruct (Hev Hr)|apply IH].
Qed.

Lemma settled_bind {A B : Type} (m : M A) (k : A -> M B) :
  settled m -> (forall a, settled (k a)) -> settled (bind m k).
Proof.
  intros Hm Hk w. unfold bind.
  destruct (Hm w) as [t1 [E1 [S1 D1]]].
  destruct (m w) as [[a| |] w1]; cbn in E1, D1.
  - specialize (D1 a eq_refl).
    destruct (Hk a w1) as [t2 [E2 [S2 D2]]].
    exists (t1 ++ t2)%list. split; [now rewrite E2, E1, app_assoc|]. split.
    + apply settled_throughout_app. split; [exact S1|now rewrite D1].
    + intros b Hb. now rewrite in_flight_app, D1, (D2 b Hb).
  - exists t1. cbn. repeat split; try assumption; discriminate.
  - exists t1. cbn. repeat split; try assumption; discriminate.
Qed.

Lemma settled_of_emits {A : Type} (m : M A) : emits is_quiet m -> settled m.
Proof.
  intros Hm w. destruct (Hm w) as [t [E F]]. exists t.
  split; [exact E|]. split; [now apply settled_throughout_quiet|].
  intros a _. now apply quiet_in_flight.
Qed.

Lemma settled_gather {L : Library} (fuel : nat) (endpoint : Endpoint.t)
  (genesisId : Identity) (flow_world : flow -> world) (futures : list flow) :
  settled (gather fuel endpoint genesisId flow_world futures).
Proof.
  intros w. rewrite gather_run.
  assert (HL : forall cur, settled_throughout cur (map ELaunch futures)).
  { intros cur. apply settled_throughout_flows, Forall_map, Forall_forall.
    intros f _ (idx & h & id & E). discriminate. }
  assert (HD : forall cur, settled_throughout cur (map EDone futures)).
  { intros cur. apply settled_throughout_flows, Forall_map, Forall_forall.
    intros f _ (idx & h & id & E). discriminate. }
  destruct (collect _) as [results|e|]; cbn [fst snd trace].
  - exists (map ELaunch futures ++ map EDone futures)%list.
    split; [reflexivity|]. split.
    + apply settled_throughout_app. split; [apply HL|apply HD].
    + intros a _. rewrite in_flight_app, launches_in_flight, app_nil_r.
      apply dones_in_flight. symmetry. apply Permutation_rev.
  - exists (map ELaunch futures). repeat split; [apply HL|discriminate].
  - exists (map ELaunch futures). repeat split; [apply HL|discriminate].
Qed.

Lemma settled_rounds {L : Library} (fuel : nat) (endpoint : Endpoint.t)
  (genesisId : Identity) (flow_world : flow -> world) (n : nat)
  (net shardSize amount : Z) (byShard : list (Z * list string)) :
  settled (rounds fuel endpoint genesisId flow_world n net shardSize amount
             byShard).
Proof.
  revert byShard. induction n as [|n IH]; intros byShard;
    [apply settled_of_emits, emits_pending|].
  cbn [rounds]. destruct (pop_round byShard) as [toFund byShard'].
  destruct toFund as [|a toFund]; [apply settled_of_emits, emits_ret|].
  apply settled_bind; [apply settled_of_emits, emits_make_futures|intros fs].
  apply settled_bind; [apply settled_gather|intros results].
  apply settled_bind; [apply settled_of_emits; now apply emits_emit|intros _].
  apply settled_bind; [apply settled_of_emits, emits_print_results|intros _].
  apply IH.
Qed.

Lemma settled_for_amounts {L : Library} (fuel : nat) (endpoint : Endpoint.t)
  (genesisId : Identity) (flow_world : flow -> world) (net shardSize : Z)
  (items : list (Z * list string)) :
  settled (for_amounts fuel endpoint genesisId flow_world net shardSize items).
Proof.
  induction items as [|[amount addrs] rest IH];
    [apply settled_of_emits, emits_ret|].
  cbn [for_amounts].
  apply settled_bind; [apply settled_of_emits; now apply emits_emit|intros _].
  apply settled_bind; [apply settled_of_emits, emits_lift|intros byShard].
  apply settled_bind; [apply settled_rounds|intros _]. exact IH.
Qed.

(** X12: in every run of [fund], whatever the node and the flows do, a
    result line is printed only when no flow is in flight: the lines of a
    batch come after all its flows have ended, never in between. *)
Theorem fund_prints_results_after_the_batch {L : Library} (fuel : nat)
  (endpoint : Endpoint.t) (genesisId : Identity) (flow_world : flow -> world)
  (addrByAmount : list (Z * list string)) (w : world)
  (p s : list event) (idx : nat) (height : Z) (txId : json) :
  trace w = [] ->
  trace (snd (fund fuel endpoint genesisId flow_world addrByAmount w))
  = (p ++ EPrint (MsgResult idx height txId) :: s)%list ->
  in_flight p [] = [].
Proof.
  intros Hw E.
  assert (H : settled (fund fuel endpoint genesisId flow_world addrByAmount)).
  { unfold fund.
    apply settled_bind; [apply settled_of_emits, emits_networkInfo|intros net].
    apply settled_bind;
      [apply settled_of_emits, emits_networkInfo|intros shardSize].
    apply settled_for_amounts. }
  destruct (H w) as [t [Et [Ht _]]]. rewrite Hw in Et. cbn in Et.
  rewrite Et in E.
  apply (settled_throughout_prefix t [] p s _ Ht E).
  now exists idx, height, txId.
Qed.

Lemma fund_prints_results_after_the_batch_witness :
  in_flight (firstn 7 (trace (snd demo_run))) [] = [].
Proof.
  apply (fund_prints_results_after_the_batch (L := demo_library) 5
           demo_endpoint demo_genesis demo_flow_world
           [(5, [demo_addr1; demo_addr2])]
           (mkWorld [Returned demo_info; Returned demo_info] [] [])
           (firstn 7 (trace (snd demo_run)))
           (skipn 8 (trace (snd demo_run))) 0 16 (JStr "0xid") eq_refl).
  vm_compute. reflexivity.
Defined.

(** ** The anatomy of a round *)

Lemma collect_done {A : Type} (os : list (outcome A)) (l : list A) :
  collect os = Done l -> Forall2 (fun o r => o = Done r) os l.
Proof.
  revert l. induction os as [|o os IH]; intros l; cbn.
  - intros H. injection H as <-. constructor.
  - destruct o as [a|e|]; destruct (collect os) as [l0|e0|]; try discriminate.
    intros H. injection H as <-. constructor; [reflexivity|now apply IH].
Qed.

Lemma collect_done_map {A B : Type} (g : A -> outcome B) (fs : list A)
  (l : list B) :
  collect (map g fs) = Done l -> Forall2 (fun f r => g f = Done r) fs l.
Proof.
  intros H. apply collect_done in H. revert l H.
  induction fs as [|f fs IH]; intros l H; inversion H; subst; constructor;
    [assumption|now apply IH].
Qed.

Lemma result_lines_indices (results : list (json * Z)) (idx : nat) :
  map (fun line => fst (fst line)) (printed_results (result_lines idx results))
  = seq idx (List.length results).
Proof.
  revert idx. induction results as [|[txId height] rest IH]; intros idx;
    [reflexivity|].
  cbn. fold (printed_results (result_lines (S idx) rest)). now rewrite IH.
Qed.

Lemma slept_prep_events {L : Library} (net shardSize amount : Z)
  (toFund : list string) :
  (forall a, In a toFund -> exists shard, shard_of shardSize a = Ok shard) ->
  (slept (prep_events toFund)
   == (1 # 10) * inject_Z (Z.of_nat (List.length
                                       (valid_flows net shardSize amount toFund))))%Q.
Proof.
  induction toFund as [|a toFund IH]; intros H; [reflexivity|].
  rewrite valid_flows_cons, List.length_app, Nat2Z.inj_add, inject_Z_plus.
  specialize (IH (fun b Hb => H b (or_intror Hb))).
  unfold prep_events in *. cbn [map]. unfold valid_flows at 1. cbn [flat_map].
  destruct (H a (or_introl eq_refl)) as [shard ->].
  destruct (createFrom (Py.drop 2 a)) as [dest|e]; cbn [slept app List.length].
  - rewrite IH. change (inject_Z (Z.of_nat 1)) with 1%Q. ring.
  - rewrite IH. change (inject_Z (Z.of_nat 0)) with 0%Q. ring.
Qed.

(** X13: a round first takes its pauses, 0.1 s for each address of the
    batch that parses, then launches all the flows of the batch together,
    no pause between two launches; when all of them return it prints a
    blank line and one result line per flow, numbered from 0 in the order
    of the launches, with the result of that flow, and goes on to the next
    round with the queues left. *)
Theorem rounds_step_of_a_batch {L : Library} (fuel : nat)
  (endpoint : Endpoint.t) (genesisId : Identity) (flow_world : flow -> world)
  (n : nat) (net shardSize amount : Z) (byShard byShard' : list (Z * list string))
  (a : string) (toFund : list string) (w : world) :
  queues_ok shardSize byShard ->
  pop_round byShard = (a :: toFund, byShard') ->
  (forall f, In f (valid_flows net shardSize amount (a :: toFund)) ->
             exists r, run_flow fuel endpoint genesisId flow_world f = Done r) ->
  exists results,
    rounds fuel endpoint genesisId flow_world (S n) net shardSize amount byShard w
    = rounds fuel endpoint genesisId flow_world n net shardSize amount byShard'
        (mkWorld (script w) (entropy w)
           (trace w ++ prep_events (a :: toFund)
              ++ map ELaunch (valid_flows net shardSize amount (a :: toFund))
              ++ map EDone (valid_flows net shardSize amount (a :: toFund))
              ++ [EPrint MsgBlank] ++ result_lines 0 results)) /\
    Forall2 (fun f r => run_flow fuel endpoint genesisId flow_world f = Done r)
            (valid_flows net shardSize amount (a :: toFund)) results /\
    map (fun line => fst (fst line)) (printed_results (result_lines 0 results))
    = seq 0 (List.length (valid_flows net shardSize amount (a :: toFund))) /\
    (slept (prep_events (a :: toFund))
     == (1 # 10) * inject_Z (Z.of_nat (List.length
           (valid_flows net shardSize amount (a :: toFund)))))%Q.
Proof.
  intros Hok Hpop Hflows.
  set (fs := valid_flows net shardSize amount (a :: toFund)) in *.
  destruct (collect_all_done
              (map (run_flow fuel endpoint genesisId flow_world) fs))
    as [results Hres].
  { intros o Ho. apply in_map_iff in Ho as [f [<- Hf]]. now apply Hflows. }
  exists results. split; [|split; [|split]].
  - cbn [rounds]. rewrite Hpop. unfold bind at 1.
    rewrite make_futures_spec by exact (pop_round_popped _ _ _ _ Hok Hpop).
    cbn [app]. fold fs. unfold bind at 1. rewrite gather_run, Hres.
    unfold bind at 1. cbn [print emit]. unfold bind at 1.
    rewrite print_results_run. cbn [script entropy trace].
    now rewrite <- !app_assoc.
  - now apply collect_done_map.
  - rewrite result_lines_indices. apply collect_length in Hres.
    now rewrite Hres, length_map.
  - apply slept_prep_events. exact (pop_round_popped _ _ _ _ Hok Hpop).
Qed.

Lemma rounds_step_of_a_batch_witness :
  exists results,
    rounds (L := demo_library) 5 demo_endpoint demo_genesis demo_flow_world
      (S 3) 3 4 5 [(0, [demo_addr1]); (1, ["0x00000001"])] (mkWorld [] [] [])
    = rounds (L := demo_library) 5 demo_endpoint demo_genesis demo_flow_world
        3 3 4 5 [(0, []); (1, [])]
        (mkWorld [] []
           ([] ++ prep_events (L := demo_library) [demo_addr1; "0x00000001"]
              ++ map ELaunch (valid_flows (L := demo_library) 3 4 5
                                [demo_addr1; "0x00000001"])
              ++ map EDone (valid_flows (L := demo_library) 3 4 5
                              [demo_addr1; "0x00000001"])
              ++ [EPrint MsgBlank] ++ result_lines 0 results)) /\
    Forall2 (fun f r => run_flow (L := demo_library) 5 demo_endpoint
                          demo_genesis demo_flow_world f = Done r)
            (valid_flows (L := demo_library) 3 4 5 [demo_addr1; "0x00000001"])
            results /\
    map (fun line => fst (fst line)) (printed_results (result_lines 0 results))
    = seq 0 (List.length (valid_flows (L := demo_library) 3 4 5
                            [demo_addr1; "0x00000001"])) /\
    (slept (prep_events (L := demo_library) [demo_addr1; "0x00000001"])
     == (1 # 10) * inject_Z (Z.of_nat (List.length
           (valid_flows (L := demo_library) 3 4 5
              [demo_addr1; "0x00000001"]))))%Q.
Proof.
  refine (rounds_step_of_a_batch (L := demo_library) 5 demo_endpoint
            demo_genesis demo_flow_world 3 3 4 5
            [(0, [demo_addr1]); (1, ["0x00000001"])] [(0, []); (1, [])]
            demo_addr1 ["0x00000001"] (mkWorld [] [] []) _ eq_refl
            (fun f _ => demo_flows_return f)).
  intros key queue [H|[H|[]]] addr Hin; injection H as <- <-;
    destruct Hin as [<-|[]]; reflexivity.
Defined.

(** ** How long the retries sleep *)

Lemma sendRequest_retries_run (self : Endpoint.t) (args : request)
  (es : list exn) (zs : list Z) (resp : json) (rest : list rpc_outcome)
  (ent : list Z) (tr : list event) (extra : nat) :
  Forall (fun e => is_Exception e = true) es ->
  List.length zs = List.length es ->
  Endpoint.sendRequest (S (List.length es) + extra) self args
    (mkWorld (map Raised es ++ Returned resp :: rest) (zs ++ ent) tr)
  = (Done resp,
     mkWorld rest ent
       (tr ++ retries self args es zs
           ++ [ERequest (Endpoint.url self) args (Returned resp)])).
Proof.
  intros Hes. revert zs tr.
  induction Hes as [|e es He Hes IH]; intros zs tr Hlen.
  - destruct zs; [|discriminate]. reflexivity.
  - destruct zs as [|z zs]; [discriminate|]. injection Hlen as Hlen.
    change (S (List.length (e :: es)) + extra)%nat
      with (S (S (List.length es) + extra)).
    cbn [map app]. rewrite sendRequest_step_raised by exact He.
    rewrite (IH zs _ Hlen). cbn [retries]. now rewrite <- !app_assoc.
Qed.

Lemma slept_retries (self : Endpoint.t) (args : request) (es : list exn)
  (zs : list Z) :
  List.length zs = List.length es ->
  exists d,
    (slept (retries self args es zs) == inject_Z d)%Q /\
    Z.of_nat (List.length es) <= d <= 6 * Z.of_nat (List.length es).
Proof.
  revert zs. induction es as [|e es IH]; intros zs Hlen.
  - exists 0. split; [reflexivity|cbn; lia].
  - destruct zs as [|z zs]; [discriminate|]. injection Hlen as Hlen.
    destruct (IH zs Hlen) as [d [Hd Hb]].
    exists (1 + z mod 6 + d). split.
    + cbn [retries retry_events app slept]. rewrite Hd, (inject_Z_plus (1 + z mod 6) d). reflexivity.
    + pose proof (Z.mod_pos_bound z 6 ltac:(lia)).
      cbn [List.length]. lia.
Qed.

(** X14: a request that gets through after [n] failures has slept, over
    its [n] retries, at least [n] and at most [6 n] seconds, and nothing
    else in the call sleeps. *)
Theorem sendRequest_sleeps_between_n_and_6n (self : Endpoint.t)
  (args : request) (es : list exn) (zs : list Z) (resp : json)
  (rest : list rpc_outcome) (ent : list Z) (extra : nat) :
  Forall (fun e => is_Exception e = true) es ->
  List.length zs = List.length es ->
  exists t,
    Endpoint.sendRequest (S (List.length es) + extra) self args
      (mkWorld (map Raised es ++ Returned resp :: rest) (zs ++ ent) [])
    = (Done resp, mkWorld rest ent t) /\
    (inject_Z (Z.of_nat (List.length es)) <= slept t)%Q /\
    (slept t <= inject_Z (6 * Z.of_nat (List.length es)))%Q.
Proof.
  intros Hes Hlen.
  exists (retries self args es zs
            ++ [ERequest (Endpoint.url self) args (Returned resp)])%list.
  split; [exact (sendRequest_retries_run self args es zs resp rest ent []
                   extra Hes Hlen)|].
  destruct (slept_retries self args es zs Hlen) as [d [Hd Hb]].
  assert (Hs : (slept (retries self args es zs
                         ++ [ERequest (Endpoint.url self) args (Returned resp)])
                == inject_Z d)%Q).
  { rewrite <- Hd. clear. induction (retries self args es zs) as [|ev t IH];
      [reflexivity|].
    destruct ev; cbn [app slept]; try exact IH. now rewrite IH. }
  rewrite Hs. split; rewrite <- Zle_Qle; lia.
Qed.

Lemma sendRequest_sleeps_between_n_and_6n_witness :
  exists t,
    Endpoint.sendRequest (S (List.length [TransportError; TransportError]) + 0)
      demo_endpoint NetworkInfo
      (mkWorld (map Raised [TransportError; TransportError]
                  ++ Returned (JStr "0x1") :: []) ([5; 0] ++ []) [])
    = (Done (JStr "0x1"), mkWorld [] [] t) /\
    (inject_Z (Z.of_nat (List.length [TransportError; TransportError]))
     <= slept t)%Q /\
    (slept t
     <= inject_Z (6 * Z.of_nat (List.length [TransportError; TransportError])))%Q.
Proof.
  refine (sendRequest_sleeps_between_n_and_6n demo_endpoint NetworkInfo
            [TransportError; TransportError] [5; 0] (JStr "0x1") [] [] 0 _
            eq_refl).
  repeat constructor.
Defined.

(** ** How many rounds an amount takes *)

Lemma blank_lines_app (t1 t2 : list event) :
  blank_lines (t1 ++ t2) = (blank_lines t1 + blank_lines t2)%nat.
Proof. unfold blank_lines. now rewrite filter_app, List.length_app. Qed.

Lemma blank_lines_none (t : list event) :
  Forall (fun ev => is_blank ev = false) t -> blank_lines t = 0%nat.
Proof.
  induction 1 as [|ev t Hev _ IH]; [reflexivity|].
  unfold blank_lines in *. cbn [filter]. now rewrite Hev.
Qed.

Lemma blank_lines_prep {L : Library} (toFund : list string) :
  blank_lines (prep_events toFund) = 0%nat.
Proof.
  apply blank_lines_none. unfold prep_events. apply Forall_map.
  apply Forall_forall. intros a _.
  now destruct (createFrom (Py.drop 2 a)).
Qed.

Lemma blank_lines_flows (fs : list flow) :
  blank_lines (map ELaunch fs) = 0%nat /\ blank_lines (map EDone fs) = 0%nat.
Proof.
  split; apply blank_lines_none, Forall_map, Forall_forall;
    intros f _; reflexivity.
Qed.

Lemma blank_lines_results (results : list (json * Z)) (idx : nat) :
  blank_lines (result_lines idx results) = 0%nat.
Proof.
  apply blank_lines_none. revert idx.
  induction results as [|[txId height] rest IH]; intros idx; [constructor|].
  cbn [result_lines]. constructor; [reflexivity|apply IH].
Qed.

Lemma length_removelast' {A : Type} (l : list A) :
  List.length (removelast l) = Nat.pred (List.length l).
Proof.
  induction l as [|a [|b l] IH]; [reflexivity|reflexivity|].
  change (removelast (a :: b :: l)) with (a :: removelast (b :: l)).
  cbn [List.length] in *. now rewrite IH.
Qed.

Lemma pop_round_longest (byShard byShard' : list (Z * list string))
  (toFund : list string) :
  pop_round byShard = (toFund, byShard') ->
  longest byShard' = Nat.pred (longest byShard) /\
  (toFund = [] <-> longest byShard = 0%nat).
Proof.
  revert byShard' toFund.
  induction byShard as [|[shard addrs] rest IH]; intros byShard' toFund Hpop.
  - injection Hpop as <- <-. now split.
  - cbn [pop_round] in Hpop.
    destruct (pop_round rest) as [toFund0 rest'] eqn:Hrest.
    destruct (IH _ _ eq_refl) as [IH1 IH2].
    destruct addrs as [|a addrs].
    + injection Hpop as <- <-. cbn [longest List.length]. split; [lia|].
      rewrite IH2. lia.
    + injection Hpop as <- <-. cbn [longest].
      replace (Nat.max _ (longest rest'))
        with (Nat.max (List.length (removelast (a :: addrs))) (longest rest'))
        by reflexivity.
      rewrite length_removelast', IH1. cbn [List.length]. split; [lia|].
      split; [discriminate|lia].
Qed.

(** X15: when every flow returns, the rounds of one amount end after as
    many batches as the longest queue has addresses: [fund] prints that
    many blank lines, one after each batch. *)
Theorem rounds_take_as_many_batches_as_the_longest_queue {L : Library}
  (fuel : nat) (endpoint : Endpoint.t) (genesisId : Identity)
  (flow_world : flow -> world) (net shardSize amount : Z) (n : nat)
  (byShard : list (Z * list string)) (w : world) :
  (forall f, exists r, run_flow fuel endpoint genesisId flow_world f = Done r) ->
  queues_ok shardSize byShard ->
  (longest byShard < n)%nat ->
  exists t,
    rounds fuel endpoint genesisId flow_world n net shardSize amount byShard w
    = (Done tt, mkWorld (script w) (entropy w) (trace w ++ t)) /\
    blank_lines t = longest byShard /\
    List.length (batches n byShard) = longest byShard.
Proof.
  intros Hflows. revert byShard w.
  induction n as [|n IH]; intros byShard w Hok Hlen; [lia|].
  cbn [rounds batches].
  destruct (pop_round byShard) as [toFund byShard'] eqn:Hpop.
  destruct (pop_round_longest _ _ _ Hpop) as [Hl' Hnil].
  destruct toFund as [|a toFund].
  - exists []. rewrite app_nil_r. split; [now destruct w|].
    destruct Hnil as [Hnil _]. rewrite (Hnil eq_refl). now split.
  - assert (Hpos : longest byShard <> 0%nat).
    { intros H0. apply Hnil in H0. discriminate. }
    set (fs := valid_flows net shardSize amount (a :: toFund)).
    destruct (collect_all_done
                (map (run_flow fuel endpoint genesisId flow_world) fs))
      as [results Hres].
    { intros o Ho. apply in_map_iff in Ho as [f [<- _]]. apply Hflows. }
    unfold bind at 1.
    rewrite make_futures_spec by exact (pop_round_popped _ _ _ _ Hok Hpop).
    cbn [app]. fold fs. unfold bind at 1. rewrite gather_run, Hres.
    unfold bind at 1. cbn [print emit]. unfold bind at 1.
    rewrite print_results_run. cbn [script entropy trace].
    match goal with
    | |- context [rounds _ _ _ _ n _ _ _ byShard' ?w0] =>
        destruct (IH byShard' w0 (pop_round_ok _ _ _ _ Hok Hpop)
                    ltac:(lia))
          as (t' & Hrun & Hb & Hn)
    end.
    rewrite Hrun. cbn [script entropy trace].
    exists (prep_events (a :: toFund) ++ map ELaunch fs ++ map EDone fs
              ++ [EPrint MsgBlank] ++ result_lines 0 results ++ t')%list.
    split; [now rewrite <- !app_assoc|].
    destruct (blank_lines_flows fs) as [B1 B2].
    rewrite !blank_lines_app, blank_lines_prep, B1, B2, blank_lines_results,
      Hb.
    cbn [List.length]. rewrite Hn. change (blank_lines [EPrint MsgBlank])
      with 1%nat. split; lia.
Qed.

Lemma rounds_take_as_many_batches_as_the_longest_queue_witness :
  exists t,
    rounds (L := demo_library) 5 demo_endpoint demo_genesis demo_flow_world
      5 3 4 5 [(0, [demo_addr1; demo_addr2])] (mkWorld [] [] [])
    = (Done tt, mkWorld [] [] ([] ++ t)) /\
    blank_lines t = longest [(0, [demo_addr1; demo_addr2])] /\
    List.length (batches 5 [(0, [demo_addr1; demo_addr2])])
    = longest [(0, [demo_addr1; demo_addr2])].
Proof.
  refine (rounds_take_as_many_batches_as_the_longest_queue
            (L := demo_library) 5 demo_endpoint demo_genesis demo_flow_world
            3 4 5 5 [(0, [demo_addr1; demo_addr2])] (mkWorld [] [] [])
            demo_flows_return _ _).
  - intros key queue [H|[]] addr Hin. injection H as <- <-.
    destruct Hin as [<-|[<-|[]]]; reflexivity.
  - cbn. lia.
Defined.

(** ** The loader keeps the order of the file *)

Section FirstSeen.
Context {A : Type} (dec : forall x y : A, {x = y} + {x <> y}).

Lemma first_seen_In (l : list A) (k : A) : In k (first_seen dec l) <-> In k l.
Proof. unfold first_seen. now rewrite <- in_rev, nodup_In, <- in_rev. Qed.

Lemma first_seen_snoc (l : list A) (k : A) :
  first_seen dec (l ++ [k]) = push dec (first_seen dec l) k.
Proof.
  unfold push. destruct (in_dec dec k (first_seen dec l)) as [Hin|Hin];
    rewrite first_seen_In, in_rev in Hin;
    unfold first_seen; rewrite rev_app_distr; cbn [rev app nodup];
    destruct (in_dec dec k (rev l)); try contradiction; reflexivity.
Qed.

Lemma fold_push_app (l1 l2 acc : list A) :
  fold_left (push dec) (l1 ++ l2) acc = fold_left (push dec) l2 (fold_left (push dec) l1 acc).
Proof. apply fold_left_app. Qed.

Lemma fold_push_first_seen (l : list A) :
  fold_left (push dec) l [] = first_seen dec l.
Proof.
  induction l as [|k l IH] using rev_ind; [reflexivity|].
  now rewrite fold_push_app, IH, first_seen_snoc.
Qed.
End FirstSeen.

Lemma set_keys (d : list (string * string)) (k v : string) :
  map fst (Dict.set String.eqb d k v) = push string_dec (map fst d) k.
Proof.
  unfold push. induction d as [|[k' v'] d IH]; [reflexivity|].
  cbn [Dict.set map fst]. destruct (String.eqb_spec k k') as [->|Hne].
  - destruct (in_dec string_dec k' (k' :: map fst d)) as [_|Hn];
      [reflexivity|]. now destruct Hn; left.
  - cbn [map fst]. rewrite IH.
    destruct (in_dec string_dec k (map fst d)) as [Hin|Hin];
      destruct (in_dec string_dec k (k' :: map fst d)) as [Hin'|Hin'];
      try reflexivity.
    + destruct Hin'. now right.
    + destruct Hin' as [->|Hin']; [now destruct Hne|contradiction].
Qed.

Lemma store_keys (ps d : list (string * string)) :
  map fst (store d ps) = fold_left (push string_dec) (map fst ps) (map fst d).
Proof.
  unfold store. revert d. induction ps as [|[k v] ps IH]; intros d;
    [reflexivity|].
  cbn [fold_left map fst snd]. now rewrite IH, set_keys.
Qed.

Lemma append_to_push (d : list (Z * list string)) (k : Z) (x : string) :
  map fst (Dict.append_to Z.eqb d k x) = push Z.eq_dec (map fst d) k.
Proof.
  unfold push. induction d as [|[k' l] d IH]; [reflexivity|].
  cbn [Dict.append_to map fst]. destruct (Z.eqb_spec k k') as [->|Hne].
  - destruct (in_dec Z.eq_dec k' (k' :: map fst d)) as [_|Hn];
      [reflexivity|]. now destruct Hn; left.
  - cbn [map fst]. rewrite IH.
    destruct (in_dec Z.eq_dec k (map fst d)) as [Hin|Hin];
      destruct (in_dec Z.eq_dec k (k' :: map fst d)) as [Hin'|Hin'];
      try reflexivity.
    + destruct Hin'. now right.
    + destruct Hin' as [->|Hin']; [now destruct Hne|contradiction].
Qed.

Lemma group_by_amount_order (items : list (string * string))
  (g0 g : list (Z * list string)) :
  group_by_amount items g0 = Ok g ->
  map fst g = fold_left (push Z.eq_dec) (flat_map parsed items) (map fst g0) /\
  forall n,
    lookup g n = (lookup g0 n ++ map fst (filter (has_amount n) items))%list.
Proof.
  revert g0. induction items as [|[addr amount] items IH]; intros g0;
    cbn [group_by_amount].
  - intros H. injection H as <-. split; [reflexivity|].
    intros n. cbn. now rewrite app_nil_r.
  - destruct (Py.int 10 amount) as [m|] eqn:E; [|discriminate].
    intros H. apply IH in H as [Hk Hl]. split.
    + rewrite Hk, append_to_push. cbn [flat_map].
      change (parsed (addr, amount))
        with (match Py.int 10 amount with Some n => [n] | None => [] end).
      rewrite E. reflexivity.
    + intros n. rewrite Hl. unfold lookup at 1. rewrite append_to_get.
      cbn [filter].
      change (has_amount n (addr, amount))
        with (match Py.int 10 amount with
              | Some m => Z.eqb m n
              | None => false
              end).
      rewrite E.
      rewrite (Z.eqb_sym m n).
      destruct (Z.eqb n m); [|reflexivity].
      cbn [map fst]. unfold lookup.
      destruct (Dict.get Z.eqb g0 n); [now rewrite <- app_assoc|reflexivity].
Qed.

Lemma filter_map_fst {B : Type} (p : string * B -> bool) (q : string -> bool)
  (items : list (string * B)) :
  (forall it, In it items -> p it = q (fst it)) ->
  map fst (filter p items) = filter q (map fst items).
Proof.
  induction items as [|it items IH]; intros H; [reflexivity|].
  cbn [filter map]. rewrite <- (H it (or_introl eq_refl)).
  destruct (p it); cbn [map]; rewrite IH; auto; intros; apply H; now right.
Qed.

Lemma flat_map_map_fst {B C : Type} (f : string * B -> list C)
  (h : string -> list C) (items : list (string * B)) :
  (forall it, In it items -> f it = h (fst it)) ->
  flat_map f items = flat_map h (map fst items).
Proof.
  induction items as [|it items IH]; intros H; [reflexivity|].
  cbn [flat_map map]. rewrite (H it (or_introl eq_refl)), IH; auto.
  intros; apply H; now right.
Qed.

(** X16: the grouping that the loader returns follows the file. Take the
    addresses in the order of their first lines, each with the amount of
    its last line: under every amount the addresses stand in that order,
    and the amounts stand in the order in which they are first met along
    it. Amounts are compared as integers, not as they are written. *)
Theorem read_addr_keeps_the_order_of_the_file (content : string)
  (g : list (Z * list string)) :
  read_addr content = Ok g ->
  map fst g
  = first_seen Z.eq_dec
      (flat_map (fun addr => match amount_of content addr with
                             | Some n => [n]
                             | None => []
                             end)
                (first_seen string_dec (map fst (entries content)))) /\
  forall n,
    lookup g n
    = filter (fun addr => match amount_of content addr with
                          | Some m => Z.eqb m n
                          | None => false
                          end)
             (first_seen string_dec (map fst (entries content))).
Proof.
  intros H. apply read_addr_inv in H as [_ H].
  pose proof (store_keys (entries content) []) as Hkeys.
  cbn [map] in Hkeys. rewrite fold_push_first_seen in Hkeys.
  assert (Hamt : forall it, In it (store [] (entries content)) ->
                   amount_of content (fst it) = Py.int 10 (snd it)).
  { intros [a amt] Hin. apply store_items in Hin. unfold amount_of.
    cbn [fst snd]. now rewrite Hin. }
  apply group_by_amount_order in H as [Hk Hl]. cbn [map] in Hk.
  rewrite fold_push_first_seen in Hk. rewrite <- Hkeys. split.
  - rewrite Hk. f_equal. apply flat_map_map_fst.
    intros it Hin. unfold parsed. now rewrite (Hamt it Hin).
  - intros n. rewrite Hl. cbn [lookup Dict.get app]. apply filter_map_fst.
    intros it Hin. unfold has_amount. now rewrite (Hamt it Hin).
Qed.

Lemma read_addr_keeps_the_order_of_the_file_witness :
  map fst [(5, ["0xb"; "0xa"]); (7, ["0xc"])]
  = first_seen Z.eq_dec
      (flat_map (fun addr =>
                   match amount_of
                           ("0xb 7" ++ nl ++ "0xa 5" ++ nl ++ "0xc 07" ++ nl
                              ++ "0xb +5" ++ nl) addr with
                   | Some n => [n]
                   | None => []
                   end)
                (first_seen string_dec
                   (map fst (entries ("0xb 7" ++ nl ++ "0xa 5" ++ nl
                                        ++ "0xc 07" ++ nl ++ "0xb +5" ++ nl))))) /\
  forall n,
    lookup [(5, ["0xb"; "0xa"]); (7, ["0xc"])] n
    = filter (fun addr =>
                match amount_of
                        ("0xb 7" ++ nl ++ "0xa 5" ++ nl ++ "0xc 07" ++ nl
                           ++ "0xb +5" ++ nl) addr with
                | Some m => Z.eqb m n
                | None => false
                end)
             (first_seen string_dec
                (map fst (entries ("0xb 7" ++ nl ++ "0xa 5" ++ nl
                                     ++ "0xc 07" ++ nl ++ "0xb +5" ++ nl)))).
Proof.
  apply (read_addr_keeps_the_order_of_the_file
           ("0xb 7" ++ nl ++ "0xa 5" ++ nl ++ "0xc 07" ++ nl ++ "0xb +5" ++ nl)
           [(5, ["0xb"; "0xa"]); (7, ["0xc"])]).
  vm_compute. reflexivity.
Defined.
